(** * vizuly2: core utilities and the weighted tree component

    A shallow embedding of [src/core/Util.js] and of the layout and
    interaction logic of [src/viz/WeightedTree.js], with the properties
    their specification states.

    Conventions.
    - A JavaScript number is an IEEE double.  In the utilities it is modelled
      by [JS.num]: NaN, the two infinities, or the rational a finite double
      stands for.  Every operation rounds its exact result as binary64
      does ([JS.fin]): to the nearest double, a tie going to the even
      mantissa, and to an infinity past the largest double.  The sign of
      zero is not represented.
    - [undefined] and [null] are kept apart in [JS.value]; a d3 node field
      that is either absent, [null] or an array is an [option (list _)].
    - Mutation in place is rendered by returning the updated object.
    - Lengths and coordinates of the tree are real numbers ([R]), since the
      radius of a node goes through a square root; a value that is not a
      finite number is [None].
    - The d3 library is not part of the sources.  Its hierarchy, the
      traversal [descendants], its extremes [d3.min] and [d3.max], its
      square-root scale and the ['end'] event of its transitions follow its
      documentation; its tree layout is a parameter ([scope_tree]). *)

From Stdlib Require Import ZArith QArith Qround Qreduction Qpower.
From Stdlib Require Import Reals Lra.
From Stdlib Require Import List String Ascii Bool Lia.
From Stdlib Require Lqa.
From Stdlib Require Floats Uint63.
Import ListNotations.

Set Warnings "-register-all".


(* ================================================================== *)
(** * JavaScript values and numbers *)
(* ================================================================== *)

Module JS.

Local Open Scope Z_scope.

Inductive num : Type :=
| NaN
| PInf
| NInf
| Fin (q : Q).

(** ** Rounding to a double

    A finite double is [m * 2 ^ e] for an integer [m] of at most 53 bits
    and an exponent [e] from -1074 to 971. *)

Definition pow2 (e : Z) : Q := (2 ^ e)%Q.

(** The integer part of the base 2 logarithm of a positive rational. *)
Definition ilog2 (q : Q) : Z :=
  let e := Z.log2 (Qnum q) - Z.log2 (Zpos (Qden q)) in
  if Qle_bool (pow2 e) q then e else e - 1.

(** The nearest integer, a tie going to the even one. *)
Definition round_even (x : Q) : Z :=
  let f := Qfloor x in
  match (x - inject_Z f ?= 1 # 2)%Q with
  | Lt => f
  | Gt => f + 1
  | Eq => if Z.even f then f else f + 1
  end.

(** The exponent of the doubles around a positive rational: 53 bits of
    mantissa, and no exponent under that of the subnormal numbers. *)
Definition exponent (q : Q) : Z := Z.max (ilog2 q - 52) (-1074).

(** The mantissa of the double nearest to a positive rational, and that
    double when it is finite. *)
Definition mantissa (q : Q) : Z := round_even (q / pow2 (exponent q)).

Definition nearest (q : Q) : Q :=
  (inject_Z (mantissa q) * pow2 (exponent q))%Q.

(** The largest double is [(2 ^ 53 - 1) * 2 ^ 971]: what rounds past it is
    infinite. *)
Definition overflows (q : Q) : bool :=
  (971 <? exponent q) || ((971 =? exponent q) && (mantissa q =? 2 ^ 53)).

(** A positive rational as a double. *)
Definition round_pos (q : Q) : num :=
  if overflows q then PInf else Fin (Qred (nearest q)).

(** The number the language has for an exact result.  A finite number is
    kept in lowest terms, so that equal numbers are equal terms. *)
Definition fin (q : Q) : num :=
  match (0 ?= q)%Q with
  | Eq => Fin 0
  | Lt => round_pos q
  | Gt => match round_pos (- q) with
          | Fin v => Fin (Qred (- v))
          | _ => NInf
          end
  end.

(** The rationals that are doubles, in lowest terms. *)
Definition double (q : Q) : Prop := fin q = Fin q.

(** The numbers of the language among the terms of [num]. *)
Definition binary64 (a : num) : Prop :=
  match a with
  | Fin q => double q
  | _ => True
  end.

Definition of_Z (z : Z) : num := Fin (inject_Z z).

Definition isNaN_num (a : num) : bool :=
  match a with NaN => true | _ => false end.

Definition neg (a : num) : num :=
  match a with
  | NaN => NaN
  | PInf => NInf
  | NInf => PInf
  | Fin q => fin (- q)%Q
  end.

Definition add (a b : num) : num :=
  match a, b with
  | NaN, _ | _, NaN => NaN
  | PInf, NInf | NInf, PInf => NaN
  | PInf, _ | _, PInf => PInf
  | NInf, _ | _, NInf => NInf
  | Fin x, Fin y => fin (x + y)%Q
  end.

Definition sub (a b : num) : num := add a (neg b).

Definition Qsign (q : Q) : comparison := (0 ?= q)%Q.

(** An infinity times a number of the given sign. *)
Definition inf_times (positive : bool) (s : comparison) : num :=
  match s with
  | Eq => NaN
  | Lt => if positive then PInf else NInf
  | Gt => if positive then NInf else PInf
  end.

Definition sign_of (a : num) : comparison :=
  match a with
  | NaN => Eq
  | PInf => Lt
  | NInf => Gt
  | Fin q => Qsign q
  end.

Definition mul (a b : num) : num :=
  match a, b with
  | NaN, _ | _, NaN => NaN
  | Fin x, Fin y => fin (x * y)%Q
  | PInf, _ => inf_times true (sign_of b)
  | NInf, _ => inf_times false (sign_of b)
  | _, PInf => inf_times true (sign_of a)
  | _, NInf => inf_times false (sign_of a)
  end.

(** Division.  A zero divisor is taken to be [+0]. *)
Definition div (a b : num) : num :=
  match a, b with
  | NaN, _ | _, NaN => NaN
  | Fin x, Fin y =>
      if Qeq_bool y 0 then inf_times true (Qsign x) else fin (x / y)%Q
  | Fin _, _ => of_Z 0
  | PInf, Fin y => if Qle_bool 0 y then PInf else NInf
  | NInf, Fin y => if Qle_bool 0 y then NInf else PInf
  | _, _ => NaN
  end.

(** [a <= b], false as soon as one side is NaN. *)
Definition leb (a b : num) : bool :=
  match a, b with
  | NaN, _ | _, NaN => false
  | NInf, _ | _, PInf => true
  | PInf, _ | _, NInf => false
  | Fin x, Fin y => Qle_bool x y
  end.

(** [a < b], false as soon as one side is NaN. *)
Definition ltb (a b : num) : bool :=
  match a, b with
  | NaN, _ | _, NaN => false
  | _, _ => negb (leb b a)
  end.

(** [Math.min] of two numbers. *)
Definition Math_min (a b : num) : num :=
  match a, b with
  | NaN, _ | _, NaN => NaN
  | _, _ => if leb a b then a else b
  end.

(** [Math.round]: the nearest integer, a tie going up. *)
Definition Math_round (a : num) : num :=
  match a with
  | Fin q => of_Z (Qfloor (q + (1 # 2))%Q)
  | _ => a
  end.

(** ** Strings read as numbers (the language's StringToNumber) *)

Definition is_white (c : ascii) : bool :=
  match nat_of_ascii c with
  | 9 | 10 | 11 | 12 | 13 | 32 => true
  | _ => false
  end%nat.

Fixpoint drop_white (l : list ascii) : list ascii :=
  match l with
  | c :: r => if is_white c then drop_white r else l
  | [] => []
  end.

Definition trim (l : list ascii) : list ascii :=
  rev (drop_white (rev (drop_white l))).

(** The value of a digit in a base up to sixteen. *)
Definition digit_of (base : Z) (c : ascii) : option Z :=
  let n := Z.of_nat (nat_of_ascii c) in
  let v :=
    if (48 <=? n) && (n <=? 57) then Some (n - 48)
    else if (97 <=? n) && (n <=? 102) then Some (n - 87)
    else if (65 <=? n) && (n <=? 70) then Some (n - 55)
    else None in
  match v with
  | Some d => if d <? base then Some d else None
  | None => None
  end.

(** The longest prefix of digits: its value on top of [acc], the number of
    digits read, and what is left. *)
Fixpoint digits (base : Z) (l : list ascii) (acc : Z) (count : nat)
  : Z * nat * list ascii :=
  match l with
  | c :: r =>
      match digit_of base c with
      | Some d => digits base r (acc * base + d) (S count)
      | None => (acc, count, l)
      end
  | [] => (acc, count, [])
  end.

Definition chars (s : string) : list ascii := list_ascii_of_string s.

Definition is_char (c : ascii) (s : string) : bool :=
  match s with
  | String d EmptyString => Ascii.eqb c d
  | _ => false
  end.

(** A sign in front: [true] for a minus. *)
Definition read_sign (l : list ascii) : bool * list ascii :=
  match l with
  | c :: r =>
      if is_char c "-" then (true, r)
      else if is_char c "+" then (false, r)
      else (false, l)
  | [] => (false, [])
  end.

(** The exponent part, [None] when it is malformed. *)
Definition read_exponent (l : list ascii) : option Z :=
  match l with
  | [] => Some 0
  | c :: r =>
      if is_char c "e" || is_char c "E" then
        let '(minus, r1) := read_sign r in
        match digits 10 r1 0 0 with
        | (_, O, _) => None
        | (e, _, []) => Some (if minus then - e else e)
        | _ => None
        end
      else None
  end%Z.

(** An unsigned decimal literal: digits, an optional fraction, an optional
    exponent. *)
Definition read_decimal (l : list ascii) : option Q :=
  let '(ip, n1, r1) := digits 10 l 0 0 in
  let '(fp, n2, r2) :=
    match r1 with
    | c :: r => if is_char c "." then digits 10 r 0 0 else (0, O, r1)
    | [] => (0, O, r1)
    end%Z in
  match (n1 + n2)%nat with
  | O => None
  | _ =>
      match read_exponent r2 with
      | Some e =>
          Some ((inject_Z ip + inject_Z fp / inject_Z (10 ^ Z.of_nat n2))
                * Qpower (inject_Z 10) e)%Q
      | None => None
      end
  end.

(** A literal in base 16, 8 or 2 after its [0x], [0o] or [0b]. *)
Definition read_radix (base : Z) (l : list ascii) : num :=
  match digits base l 0 0 with
  | (_, O, _) => NaN
  | (v, _, []) => fin (inject_Z v)
  | _ => NaN
  end.

Definition StringToNumber (s : string) : num :=
  match trim (chars s) with
  | [] => of_Z 0
  | l =>
      match l with
      | z :: x :: r =>
          if is_char z "0" && (is_char x "x" || is_char x "X")
          then read_radix 16 r
          else if is_char z "0" && (is_char x "o" || is_char x "O")
          then read_radix 8 r
          else if is_char z "0" && (is_char x "b" || is_char x "B")
          then read_radix 2 r
          else
            let '(minus, r1) := read_sign l in
            if list_eq_dec ascii_dec r1 (chars "Infinity")
            then (if minus then NInf else PInf)
            else match read_decimal r1 with
                 | Some q => if minus then fin (- q)%Q else fin q
                 | None => NaN
                 end
      | _ =>
          match read_decimal l with
          | Some q => fin q
          | None => NaN
          end
      end
  end.

(** ** Values *)

Inductive value : Type :=
| VUndefined
| VNull
| VBool (b : bool)
| VNum (n : num)
| VStr (s : string).

(** [Number(v)]. *)
Definition Number (v : value) : num :=
  match v with
  | VUndefined => NaN
  | VNull => of_Z 0
  | VBool b => of_Z (if b then 1 else 0)
  | VNum n => n
  | VStr s => StringToNumber s
  end.

(** The global [isNaN(v)]: the argument is first read as a number. *)
Definition isNaN (v : value) : bool := isNaN_num (Number v).

(** Truthiness, as tested by [if (v)], [!v] and [v ? a : b]. *)
Definition truthy (v : value) : bool :=
  match v with
  | VUndefined | VNull => false
  | VBool b => b
  | VNum NaN => false
  | VNum (Fin q) => negb (Qeq_bool q 0)
  | VNum _ => true
  | VStr s => negb (String.eqb s "")
  end.

(** [v != undefined], the loose comparison. *)
Definition not_undefined (v : value) : bool :=
  match v with
  | VUndefined | VNull => false
  | _ => true
  end.

Definition vnum (z : Z) : value := VNum (of_Z z).

(** ** The doubles of the machine

    The rounding above is written out on rationals; the numbers below are
    the binary64 numbers of the processor, to compare it with. *)

(** A double of the machine as a number of the model. *)
Definition of_float (f : PrimFloat.float) : num :=
  match FloatOps.Prim2SF f with
  | SpecFloat.S754_zero _ => Fin 0
  | SpecFloat.S754_infinity false => PInf
  | SpecFloat.S754_infinity true => NInf
  | SpecFloat.S754_nan => NaN
  | SpecFloat.S754_finite s m e =>
      Fin (Qred ((if s then -1 else 1) * inject_Z (Zpos m) * pow2 e))
  end.

(** An integer of at most 53 bits as a double of the machine. *)
Definition to_float (z : Z) : PrimFloat.float :=
  if z <? 0
  then PrimFloat.opp (PrimFloat.of_uint63 (Uint63.of_Z (- z)))
  else PrimFloat.of_uint63 (Uint63.of_Z z).

(** Two numbers are the same term. *)
Definition same (u v : num) : bool :=
  match u, v with
  | NaN, NaN | PInf, PInf | NInf, NInf => true
  | Fin p, Fin q => Z.eqb (Qnum p) (Qnum q) && Pos.eqb (Qden p) (Qden q)
  | _, _ => false
  end.

(** The four operations of the model give what the machine gives, on
    quotients, products, sums and differences built from two integers, on
    the 32nd power of the first and on its inverse. *)
Definition agree (ab : Z * Z) : bool :=
  let '(a, b) := ab in
  let x := to_float a in
  let y := to_float b in
  let square f := PrimFloat.mul f f in
  let sq n := mul n n in
  same (of_float (square (square (square (square (square x))))))
       (sq (sq (sq (sq (sq (of_Z a))))))
  && same (of_float (PrimFloat.div y
                       (square (square (square (square (square x)))))))
          (div (of_Z b) (sq (sq (sq (sq (sq (of_Z a)))))))
  && same (of_float (PrimFloat.div x y)) (div (of_Z a) (of_Z b))
  && same (of_float (PrimFloat.mul x (PrimFloat.div x y)))
          (mul (of_Z a) (div (of_Z a) (of_Z b)))
  && same (of_float (PrimFloat.add x (PrimFloat.div x y)))
          (add (of_Z a) (div (of_Z a) (of_Z b)))
  && same (of_float (PrimFloat.sub (PrimFloat.div y x) (PrimFloat.div x y)))
          (sub (div (of_Z b) (of_Z a)) (div (of_Z a) (of_Z b)))
  && same (of_float (PrimFloat.mul (PrimFloat.mul x x) (PrimFloat.mul y y)))
          (mul (mul (of_Z a) (of_Z a)) (mul (of_Z b) (of_Z b))).

End JS.

(* ================================================================== *)
(** * src/core/Util.js *)
(* ================================================================== *)

Module Util.

Import JS.

(** ** [vizuly2.core.util.measure] and [vizuly2.core.util.size] *)

(** [m0.substr(m0.length - 1) == '%']. *)
Definition ends_with_percent (m0 : string) : bool :=
  match rev (chars m0) with
  | c :: _ => is_char c "%"
  | [] => false
  end.

(** [m0.substr(0, m0.length - 1)]. *)
Definition without_last (m0 : string) : string :=
  string_of_list_ascii (removelast (chars m0)).

Definition measure (m0 m1 : value) : num :=
  match m0 with
  | VStr s =>
      if ends_with_percent s then
        let r := div (Math_min (Number (VStr (without_last s))) (of_Z 100))
                     (of_Z 100) in
        Math_round (mul (Number m1) r)
      else Number m0
  | _ => Number m0
  end.

Record Margin : Type := mkMargin {
  margin_top : value;
  margin_bottom : value;
  margin_left : value;
  margin_right : value
}.

Record Size : Type := mkSize {
  size_width : num;
  size_height : num;
  size_top : num;
  size_left : num;
  size_bottom : num;
  size_right : num
}.

Definition size (margin : Margin) (width height : value) : Size :=
  {| size_width :=
       sub (sub (Number width) (measure (margin_left margin) width))
           (measure (margin_right margin) width);
     size_height :=
       sub (sub (Number height) (measure (margin_top margin) height))
           (measure (margin_bottom margin) height);
     size_top := measure (margin_top margin) height;
     size_left := measure (margin_left margin) width;
     size_bottom := measure (margin_bottom margin) height;
     size_right := measure (margin_right margin) width |}.

(** ** [vizuly2.core.util.aggregateNest] *)

(** An object of the nest: its own properties in insertion order, and its
    [values] array ([None] when the field is absent).  A record of the
    innermost level has no [values]; a group has. *)
Inductive obj : Type :=
| Obj (props : list (string * value)) (values : option (list obj)).

Definition properties_of (o : obj) : list (string * value) :=
  match o with Obj ps _ => ps end.

Definition values_of (o : obj) : option (list obj) :=
  match o with Obj _ vs => vs end.

(** [o[k]]: [undefined] for a property that is not there. *)
Fixpoint get (k : string) (ps : list (string * value)) : value :=
  match ps with
  | [] => VUndefined
  | (k', v) :: r => if String.eqb k k' then v else get k r
  end.

(** [o[k] = v]: in place for a property that is there, else appended. *)
Fixpoint set (k : string) (v : value) (ps : list (string * value))
  : list (string * value) :=
  match ps with
  | [] => [(k, v)]
  | (k', v') :: r =>
      if String.eqb k k' then (k', v) :: r else (k', v') :: set k v r
  end.

Definition agg_key (p : string) : string := "agg_" ++ p.
Definition childProp_key (p : string) : string := "childProp_" ++ p.

(** The innermost first record: [nest[0]], then [values[0]] as long as
    there is a [values]; [None] where the source reads a field of
    [undefined] and throws. *)
Fixpoint deepest (o : obj) : option obj :=
  match o with
  | Obj _ None => Some o
  | Obj _ (Some vs) =>
      match vs with
      | [] => None
      | c :: _ => deepest c
      end
  end.

Definition own_names (o : obj) : list string := map fst (properties_of o).

Section AggregateNest.

Variable properties : list string.
Variable calculation : value -> value -> value.
Variable childProperties : list string.

(** One turn of the loop of [setSourceFields], on the properties of the
    child and of the parent. *)
Definition setSourceField
  (cp : string) (cs : list (string * value) * list (string * value))
  : list (string * value) * list (string * value) :=
  let '(child, parent) := cs in
  let child1 :=
    if not_undefined (get cp child)
    then set (childProp_key cp) (get cp child) child
    else child in
  let v := get (childProp_key cp) child1 in
  (child1,
   set (childProp_key cp) (if truthy v then v else get cp child1) parent).

Definition setSourceFields
  (child : list (string * value)) (parent : option (list (string * value)))
  : list (string * value) * option (list (string * value)) :=
  match parent with
  | Some pps =>
      let '(c, p) :=
        fold_left (fun cs cp => setSourceField cp cs)
                  childProperties (child, pps) in
      (c, Some p)
  | None => (child, None)
  end.

(** The [else] branch of [aggregateNodes]: a record of the innermost
    level. *)
Definition aggregateLeaf (ps : list (string * value))
  : list (string * value) :=
  fold_left
    (fun node p =>
       let n := Number (get p node) in
       set (agg_key p) (VNum (if isNaN_num n then of_Z 0 else n)) node)
    properties ps.

(** The body of the two inner loops: one child and one property. *)
Definition aggregateStep
  (child : obj) (node : list (string * value)) (p : string)
  : list (string * value) :=
  let node1 :=
    if isNaN (get (agg_key p) node)
    then set (agg_key p) (vnum 0) node
    else node in
  set (agg_key p)
      (calculation (get (agg_key p) node1)
                   (get (agg_key p) (properties_of child)))
      node1.

Definition aggregateChildren
  (vs : list obj) (node : list (string * value)) : list (string * value) :=
  fold_left
    (fun nd child => fold_left (aggregateStep child) properties nd)
    vs node.

(** The loop of [aggregateNodes] over [nodes], [each] standing for the
    work on one node before [setSourceFields(node, parent)]. *)
Definition aggregateLoop (each : obj -> obj)
  : list obj -> option (list (string * value))
    -> list obj * option (list (string * value)) :=
  fix loop (nodes : list obj) (parent : option (list (string * value))) :=
    match nodes with
    | [] => ([], parent)
    | node :: rest =>
        let node1 := each node in
        let '(ps, parent1) :=
          setSourceFields (properties_of node1) parent in
        let '(rest1, parent2) := loop rest parent1 in
        (Obj ps (values_of node1) :: rest1, parent2)
    end.

Fixpoint aggregateNode (node : obj) : obj :=
  match node with
  | Obj ps (Some vs) =>
      let '(vs1, parent1) := aggregateLoop aggregateNode vs (Some ps) in
      let ps1 := match parent1 with Some q => q | None => ps end in
      Obj (aggregateChildren vs1 ps1) (Some vs1)
  | Obj ps None => Obj (aggregateLeaf ps) None
  end.

Definition aggregateNodes
  (nodes : list obj) (parent : option (list (string * value)))
  : list obj * option (list (string * value)) :=
  aggregateLoop aggregateNode nodes parent.

End AggregateNest.

(** The nest after the call; [None] when the source throws on its way to
    the innermost first record. *)
Definition aggregateNest
  (nest : list obj) (properties : list string)
  (calculation : value -> value -> value) : option (list obj) :=
  match nest with
  | [] => None
  | first :: _ =>
      match deepest first with
      | None => None
      | Some d =>
          Some (fst (aggregateNodes properties calculation (own_names d)
                                    nest None))
      end
  end.

(** The sum of the example in the source's documentation:
    [function (a, b) { return Number(a) + Number(b); }]. *)
Definition sum (a b : value) : value := VNum (add (Number a) (Number b)).

(** ** Reading the aggregates off a nest *)

(** [o['agg_' + p]]. *)
Definition agg_of (p : string) (o : obj) : value :=
  get (agg_key p) (properties_of o).

(** What one child adds to the aggregate of its group: the lines
    [if (isNaN(node[k])) node[k] = 0; node[k] = calculation(node[k], child[k])]
    as a function of the two values. *)
Definition combine (calculation : value -> value -> value)
  (acc child : value) : value :=
  calculation (if isNaN acc then vnum 0 else acc) child.

(** The values a left fold of [calculation] goes through. *)
Fixpoint running (calculation : value -> value -> value)
  (l : list value) (acc : value) : list value :=
  match l with
  | [] => []
  | c :: r => calculation acc c :: running calculation r (calculation acc c)
  end.

(** The aggregates of the groups of a nest, each group before the groups it
    holds. *)
Fixpoint group_aggregates (p : string) (o : obj) : list value :=
  match o with
  | Obj _ (Some vs) => agg_of p o :: flat_map (group_aggregates p) vs
  | Obj _ None => []
  end.

(** The aggregates of the records of the innermost level, left to right. *)
Fixpoint record_aggregates (p : string) (o : obj) : list value :=
  match o with
  | Obj _ (Some vs) => flat_map (record_aggregates p) vs
  | Obj _ None => [agg_of p o]
  end.

(** What [aggregateNest] returns: [aggregateNode] run on every node of the
    nest, unless it throws on the way to the innermost first record. *)
Definition aggregateNest_result_holds
  (nest : list obj) (properties : list string)
  (calculation : value -> value -> value) : Prop :=
  match nest with
  | [] => aggregateNest nest properties calculation = None
  | first :: _ =>
      match deepest first with
      | Some d =>
          aggregateNest nest properties calculation
          = Some (map (aggregateNode properties calculation (own_names d))
                      nest)
      | None => aggregateNest nest properties calculation = None
      end
  end.

Definition sample_record (z : Z) : obj :=
  Obj [("v"%string, vnum z); ("name"%string, VStr "r")] None.

(** Records of values 1, 2, 3 and 4, 5 under two groups, under one group
    for the whole. *)
Definition sample_nest : list obj :=
  [Obj [("key"%string, VStr "all")]
       (Some [Obj [("key"%string, VStr "a")]
                  (Some [sample_record 1; sample_record 2; sample_record 3]);
              Obj [("key"%string, VStr "b")]
                  (Some [sample_record 4; sample_record 5])])].

End Util.

(* ================================================================== *)
(** * src/viz/WeightedTree.js *)
(* ================================================================== *)

Module WeightedTree.

Local Open Scope R_scope.

(** ** The data and the d3 hierarchy *)

(** A record of the caller with what [scope.children] returns for it
    ([None]: no array). *)
Inductive inode (A : Type) : Type :=
| INode (datum : A) (kids : option (list (inode A))).
Arguments INode {A} datum kids.

Definition datum_of {A} (d : inode A) : A :=
  match d with INode a _ => a end.

Definition kids_of {A} (d : inode A) : option (list (inode A)) :=
  match d with INode _ ks => ks end.

(** A node of [d3.hierarchy]: the structural fields.  [children] and
    [_children] are [None] when the field is absent or [null]; [parent] is
    the node one step up the path that leads to this one. *)
Inductive hnode (A : Type) : Type :=
| HNode (data : inode A) (depth : nat)
        (children _children : option (list (hnode A))).
Arguments HNode {A} data depth children _children.

Definition data {A} (n : hnode A) : inode A :=
  match n with HNode d _ _ _ => d end.
Definition depth {A} (n : hnode A) : nat :=
  match n with HNode _ k _ _ => k end.
Definition children {A} (n : hnode A) : option (list (hnode A)) :=
  match n with HNode _ _ c _ => c end.
Definition _children {A} (n : hnode A) : option (list (hnode A)) :=
  match n with HNode _ _ _ c => c end.

(** [d3.hierarchy(root, scope.children)]: a node has a [children] array
    only when the accessor returns a non-empty one. *)
Fixpoint hierarchy_at {A} (k : nat) (d : inode A) {struct d} : hnode A :=
  match d with
  | INode _ ks =>
      HNode d k
            match ks with
            | Some l =>
                match l with
                | [] => None
                | _ => Some (map (hierarchy_at (S k)) l)
                end
            | None => None
            end
            None
  end.

Definition hierarchy {A} (root : inode A) : hnode A := hierarchy_at 0 root.

(** The children that take part in the layout. *)
Definition active_children {A} (n : hnode A) : list (hnode A) :=
  match children n with Some l => l | None => [] end.

(** The number of levels below a node through [children]. *)
Fixpoint height {A} (n : hnode A) : nat :=
  match n with
  | HNode _ _ (Some l) _ => S (fold_right (fun c m => Nat.max (height c) m) O l)
  | HNode _ _ None _ => O
  end.

(** A node is addressed by the indices of the children to follow from the
    root. *)
Definition path : Type := list nat.

(** The nodes [k] levels below [n], left to right, with their paths. *)
Fixpoint level {A} (k : nat) (p : path) (n : hnode A)
  : list (path * hnode A) :=
  match k with
  | O => [(p, n)]
  | S k' =>
      flat_map (fun ic => level k' (p ++ [fst ic]) (snd ic))
               (combine (seq 0 (List.length (active_children n)))
                        (active_children n))
  end.

(** [node.descendants()]: the node and the nodes below it through
    [children], level by level. *)
Definition descendants {A} (n : hnode A) : list (path * hnode A) :=
  flat_map (fun k => level k [] n) (seq 0 (S (height n))).

(** The children a path goes through: [children], or [_children] of a
    collapsed node. *)
Definition held_children {A} (n : hnode A) : list (hnode A) :=
  match children n, _children n with
  | Some l, _ => l
  | None, Some l => l
  | None, None => []
  end.

Definition with_held_children {A} (n : hnode A) (l : list (hnode A))
  : hnode A :=
  match n with
  | HNode d k (Some _) c => HNode d k (Some l) c
  | HNode d k None (Some _) => HNode d k None (Some l)
  | HNode d k None None => n
  end.

Fixpoint node_at {A} (p : path) (n : hnode A) : option (hnode A) :=
  match p with
  | [] => Some n
  | i :: r =>
      match nth_error (held_children n) i with
      | Some c => node_at r c
      | None => None
      end
  end.

Fixpoint replace_nth {T} (i : nat) (x : T) (l : list T) : list T :=
  match l, i with
  | [], _ => []
  | _ :: r, O => x :: r
  | y :: r, S j => y :: replace_nth j x r
  end.

(** The hierarchy after [f] has been run on the node at [p]. *)
Fixpoint update_at {A} (p : path) (f : hnode A -> hnode A) (n : hnode A)
  : hnode A :=
  match p with
  | [] => f n
  | i :: r =>
      match nth_error (held_children n) i with
      | Some c =>
          with_held_children n
            (replace_nth i (update_at r f c) (held_children n))
      | None => n
      end
  end.

(** [d.parent]: the path without its last step; the root has none. *)
Definition parent (p : path) : option path :=
  match p with
  | [] => None
  | _ => Some (removelast p)
  end.

(** The function [collapse] of [measure]. *)
Fixpoint collapse {A} (d : hnode A) : hnode A :=
  match d with
  | HNode dt k (Some l) _ => HNode dt k None (Some (map collapse l))
  | HNode _ _ None _ => d
  end.

(** [hieararchy.children.forEach(collapse)]; [None] when the root has no
    [children] and the call throws. *)
Definition collapse_below_root {A} (h : hnode A) : option (hnode A) :=
  match h with
  | HNode dt k (Some l) c => Some (HNode dt k (Some (map collapse l)) c)
  | HNode _ _ None _ => None
  end.

(** The two assignments of each branch of [toggleNode]. *)
Definition toggle {A} (d : hnode A) : hnode A :=
  match d with
  | HNode dt k (Some l) _ => HNode dt k None (Some l)
  | HNode dt k None c => HNode dt k c None
  end.

(** ** Numbers of the layout *)

(** [d3.max] and [d3.min]: values that are not numbers are skipped, and
    there is no result when none is left. *)
Fixpoint d3_max (l : list (option R)) : option R :=
  match l with
  | [] => None
  | None :: r => d3_max r
  | Some v :: r =>
      match d3_max r with
      | Some m => Some (Rmax v m)
      | None => Some v
      end
  end.

Fixpoint d3_min (l : list (option R)) : option R :=
  match l with
  | [] => None
  | None :: r => d3_min r
  | Some v :: r =>
      match d3_min r with
      | Some m => Some (Rmin v m)
      | None => Some v
      end
  end.

Section ScaleSqrt.

(** Where a scale sends every value when its domain is a single point:
    the middle of the range in recent versions of d3, its first end in
    older ones. *)
Variable degenerate : R.

(** The signed square root a square-root scale puts its domain and its
    argument through. *)
Definition transformSqrt (x : R) : R :=
  if Rlt_dec x 0 then - sqrt (- x) else sqrt x.

(** Where [x] lies between [a] and [b], as a fraction. *)
Definition normalize (a b x : R) : R :=
  if Req_dec_T (b - a) 0 then degenerate else (x - a) / (b - a).

(** The point at the fraction [t] of the way from [a] to [b]. *)
Definition interpolate (a b t : R) : R := a * (1 - t) + b * t.

(** A continuous scale with a domain and a range of two ends each; the ends
    are swapped when the domain is decreasing. *)
Definition bimap (d0 d1 r0 r1 x : R) : R :=
  if Rlt_dec d1 d0
  then interpolate r1 r0 (normalize d1 d0 x)
  else interpolate r0 r1 (normalize d0 d1 x).

(** Modelled from the spec: [d3.scaleSqrt()] is the d3 library's, which is
    not part of the sources.  It is "a square-root scale mapped from
    [depthMin, depthMax] to [1.5, halfOfVerticalSpacing]": both ends of
    the domain and the value go through the signed square root, and the
    result is interpolated linearly between the ends of the range,
    without clamping.  A domain or a value that is not a number gives
    NaN. *)
Definition scaleSqrt
  (domain : option R * option R) (range : R * R) (x : option R)
  : option R :=
  match domain, x with
  | (Some a, Some b), Some v =>
      Some (bimap (transformSqrt a) (transformSqrt b)
                  (fst range) (snd range) (transformSqrt v))
  | _, _ => None
  end.

End ScaleSqrt.

Definition to_real (n : JS.num) : option R :=
  match n with
  | JS.Fin q => Some (Q2R q)
  | _ => None
  end.

Record SizeR : Type := mkSizeR {
  width : R;
  height_px : R;
  top : R;
  left : R;
  bottom : R;
  right : R
}.

(** The size object when all its fields are finite numbers. *)
Definition real_size (s : Util.Size) : option SizeR :=
  match to_real (Util.size_width s), to_real (Util.size_height s),
        to_real (Util.size_top s), to_real (Util.size_left s),
        to_real (Util.size_bottom s), to_real (Util.size_right s) with
  | Some w, Some h, Some t, Some l, Some b, Some r =>
      Some (mkSizeR w h t l b r)
  | _, _, _, _, _, _ => None
  end.

(** ** The completion counter of [endUpdate] *)

(** The counter [n] of one call of [endUpdate], and how many times its
    callback has run. *)
Record Latch : Type := mkLatch {
  latch_n : Z;
  latch_calls : nat
}.

(** [endUpdate(transition, callback)] as it returns: [each] has counted
    every element of the transition, and no transition has ended yet. *)
Definition endUpdate {T} (transition : list T) : Latch :=
  {| latch_n := fold_left (fun n _ => (n + 1)%Z) transition 0%Z;
     latch_calls := O |}.

(** The listener of ['end']: [if (!--n) callback.apply(this, arguments)]. *)
Definition on_end (l : Latch) : Latch :=
  let n := (latch_n l - 1)%Z in
  {| latch_n := n;
     latch_calls := if (n =? 0)%Z then S (latch_calls l) else latch_calls l |}.

(** The transitions of [ended] reach their end one after the other. *)
Definition run_ends {T} (l : Latch) (ended : list T) : Latch :=
  fold_left (fun l _ => on_end l) ended l.

(** ** The component *)

Section Component.

Context {A : Type}.
Variable degenerate : R.

(** The properties of the component that the layout reads.  The numbers a
    caller sets are rational; [-1] stands for "automatic" in the three
    spacing properties, as in the source. *)
Record Scope : Type := mkScope {
  scope_data : inode A;
  scope_margin : Util.Margin;
  scope_width : Q;
  scope_height : Q;
  scope_duration : JS.value;
  scope_value : inode A -> option R;
  scope_maxNodeRadius : Q;
  scope_horizontalPadding : Q;
  scope_verticalPadding : Q;
  scope_useZoom : bool;
  scope_useZoomToNode : bool;
  (** [scope.tree], the d3 tree layout: the [x] and [y] it gives to the
      node at a path of a hierarchy. *)
  scope_tree : hnode A -> path -> R * R
}.

(** The variables of the closure.  [zoom_k] is the scale factor of the
    zoom transform kept on the background element. *)
Record State : Type := mkState {
  dataIsDirty : bool;
  refreshNeeded : bool;
  size : SizeR;
  hieararchy : option (hnode A);
  nodes : list (hnode A);
  depthSpan : R;
  maxDepth : nat;
  maxValues : nat -> option R;
  minValues : nat -> option R;
  nodeScale_range : R * R;
  tree_nodeSize : R * R;
  cx : R;
  cy : R;
  zoom_k : R
}.

Variable scope : Scope.

(** [refreshData]: the hierarchy is rebuilt from the data and laid out,
    [nodes] holds all its nodes and [maxDepth] their largest depth.
    The fields it writes on the caller's records ([children], [x0],
    [y0]) are not read by [d3.hierarchy], and the infinite bounds it
    puts in [maxValues] and [minValues] are overwritten by [measure]
    before they are read: neither is represented. *)
Definition refreshData (st : State) : State :=
  let h := hierarchy (scope_data scope) in
  let ns := map snd (descendants h) in
  mkState (dataIsDirty st) (refreshNeeded st) (size st)
          (Some h) ns (depthSpan st)
          (fold_left (fun m n => Nat.max m (depth n)) ns O)
          (maxValues st) (minValues st) (nodeScale_range st)
          (tree_nodeSize st) (cx st) (cy st) (zoom_k st).

(** The block of [measure] under
    [if (dataIsDirty == true || refreshNeeded)]. *)
Definition prepare (st : State) : option State :=
  if dataIsDirty st || refreshNeeded st then
    let st1 := refreshData st in
    let h1 :=
      if dataIsDirty st then
        match hieararchy st1 with
        | Some h => collapse_below_root h
        | None => None
        end
      else hieararchy st1 in
    match h1 with
    | Some h =>
        Some (mkState false false (size st1) (Some h) (nodes st1)
                      (depthSpan st1) (maxDepth st1) (maxValues st1)
                      (minValues st1) (nodeScale_range st1)
                      (tree_nodeSize st1) (cx st1) (cy st1) (zoom_k st1))
    | None => None
    end
  else Some st.

(** The values of the nodes of depth [i]. *)
Definition values_at (ns : list (hnode A)) (i : nat) : list (option R) :=
  map (fun d => scope_value scope (data d))
      (filter (fun d => Nat.eqb (depth d) i) ns).

(** [maxValues] after the loop [for (i = 1; i < maxDepth + 1; i++)]. *)
Definition extremes
  (pick : list (option R) -> option R) (ns : list (hnode A)) (deepest : nat)
  (old : nat -> option R) (i : nat) : option R :=
  if Nat.leb 1 i && Nat.leb i deepest then pick (values_at ns i) else old i.

(** The vertical room given to a node; [None] when
    [scope.children(scope.data).length] throws or the quotient is not
    finite. *)
Definition node_room (sz : SizeR) : option R :=
  if Qeq_bool (scope_maxNodeRadius scope) (-1) then
    match kids_of (scope_data scope) with
    | Some [] => None
    | Some l => Some (height_px sz / INR (List.length l))
    | None => None
    end
  else Some (Q2R (scope_maxNodeRadius scope)).

(** [measure].  [None] when the source throws, or when a length it
    computes is not a finite number.  [viz.validate] and the listeners of
    the events dispatched belong to the component framework and are not
    represented. *)
Definition measure (st : State) : option State :=
  match real_size (Util.size (scope_margin scope)
                             (JS.VNum (JS.Fin (scope_width scope)))
                             (JS.VNum (JS.Fin (scope_height scope)))) with
  | None => None
  | Some sz =>
      match prepare st with
      | None => None
      | Some st1 =>
          match node_room sz with
          | None => None
          | Some scale =>
              Some (mkState
                      (dataIsDirty st1) (refreshNeeded st1) sz
                      (hieararchy st1) (nodes st1)
                      (if Qlt_le_dec 0 (scope_horizontalPadding scope)
                       then Q2R (scope_horizontalPadding scope)
                       else width sz / (INR (maxDepth st1) + 1))
                      (maxDepth st1)
                      (extremes d3_max (nodes st1) (maxDepth st1)
                                (maxValues st1))
                      (extremes d3_min (nodes st1) (maxDepth st1)
                                (minValues st1))
                      (1.5, scale / 2)
                      (if Qeq_bool (scope_verticalPadding scope) (-1)
                       then (scale, 0)
                       else (Q2R (scope_verticalPadding scope), 0))
                      (left sz)
                      (top sz + height_px sz / 2)
                      (zoom_k st1))
          end
      end
  end.

(** [nodeRadius].  [node.data] is an object, so [!node.data] is false. *)
Definition nodeRadius (st : State) (node : hnode A) : R :=
  let r :=
    if Nat.eqb (depth node) 0 then Some (snd (nodeScale_range st) / 2)
    else scaleSqrt degenerate
           (minValues st (depth node), maxValues st (depth node))
           (nodeScale_range st)
           (scope_value scope (data node)) in
  match r with
  | Some v => v
  | None => 0
  end.

(** A node as the tree layout returns it: the geometric fields next to
    the node they belong to.  [pn_r] is [None] until [updateTreeSize]
    has set it. *)
Record pnode : Type := mkPnode {
  pn_path : path;
  pn_node : hnode A;
  pn_x : R;
  pn_y : R;
  pn_r : option R
}.

(** [tree(hieararchy).descendants()]. *)
Definition layout (h : hnode A) : list pnode :=
  map (fun pn =>
         mkPnode (fst pn) (snd pn)
                 (fst (scope_tree scope h (fst pn)))
                 (snd (scope_tree scope h (fst pn)))
                 None)
      (descendants h).

(** What [updateTreeSize] leaves behind: the nodes, the height and the
    width given to the svg element, and the target of [scrollTop] when
    [rootNode] is one of the nodes ([rootNode] is [None] for an object
    that is not a node of the hierarchy). *)
Record TreeSize : Type := mkTreeSize {
  sized_nodes : list pnode;
  svg_height : R;
  svg_width : R;
  scroll_to : option R
}.

Definition Rmaximum (x : R) (l : list R) : R := fold_left Rmax l x.
Definition Rminimum (x : R) (l : list R) : R := fold_left Rmin l x.

(** [updateTreeSize(rootNode, nodes)].  [nodes] always holds the root of
    the hierarchy: the infinite bounds the scan starts from are those of
    its first node, and there is no result for an empty list. *)
Definition updateTreeSize (st : State) (rootNode : option path)
  (ns : list pnode) : option TreeSize :=
  match ns with
  | [] => None
  | first :: rest =>
      let maxX := Rmaximum (pn_x first) (map pn_x rest) in
      let maxY := Rmaximum (pn_y first) (map pn_y rest) in
      let minX := Rminimum (pn_x first) (map pn_x rest) in
      let minY := Rminimum (pn_y first) (map pn_y rest) in
      let k := if scope_useZoom scope then zoom_k st else 1 in
      let minY := minY * k in
      let maxY := maxY * k in
      let maxX := maxX * k in
      let h := Rmax (Q2R (scope_height scope)) (maxX - minX + top (size st)) in
      let w := Rmax (Q2R (scope_width scope))
                    (maxY + Q2R (scope_width scope) * 0.2 + left (size st)) in
      let h := if Rlt_dec h (height_px (size st) / 2 + maxY)
               then height_px (size st) / 2 + maxY + fst (tree_nodeSize st)
               else h in
      let offsetY := Rmax 0 (- minY - height_px (size st) / 2)
                     + fst (tree_nodeSize st) / 2 in
      let moved :=
        map (fun d =>
               mkPnode (pn_path d) (pn_node d)
                       (pn_x d + offsetY + cy st - fst (tree_nodeSize st))
                       (INR (depth (pn_node d)) * depthSpan st + cx st)
                       (Some (nodeRadius st (pn_node d))))
            ns in
      Some (mkTreeSize moved h w
              match rootNode with
              | Some p =>
                  option_map pn_x
                    (find (fun d =>
                             if list_eq_dec Nat.eq_dec (pn_path d) p
                             then true else false) moved)
              | None => None
              end)
  end.

(** What a call of [updateNode] does to the drawing: the duration given to
    its transitions, the nodes as [updateTreeSize] left them, and the
    counter that [endUpdate] attached to the transition of the nodes.
    The elements that enter and leave and the stash of [x0] and [y0]
    only concern the drawing and are not represented. *)
Record Render : Type := mkRender {
  render_duration : JS.value;
  render_tree : TreeSize;
  render_latch : Latch
}.

(** [updateNode(rootNode, duration)]; [None] before any hierarchy has
    been built. *)
Definition updateNode (st : State) (rootNode : option path)
  (duration : JS.value) : option Render :=
  let duration :=
    if negb (JS.truthy duration) then scope_duration scope else duration in
  match hieararchy st with
  | Some h =>
      match updateTreeSize st rootNode (layout h) with
      | Some ts => Some (mkRender duration ts (endUpdate (sized_nodes ts)))
      | None => None
      end
  | None => None
  end.

Record Transform : Type := mkTransform {
  t_x : R;
  t_y : R;
  t_k : R
}.

(** [zoomToNode(d)]: the transform given to the plot, if any. *)
Definition zoomToNode (st : State) (d : option pnode) : option Transform :=
  match d with
  | Some n =>
      if scope_useZoom scope && scope_useZoomToNode scope then
        Some (mkTransform
                (- pn_y n * zoom_k st + width (size st) / 4)
                (- pn_x n * zoom_k st + height_px (size st) / 2)
                (zoom_k st))
      else None
  | None => None
  end.

(** The calls a function makes, in order. *)
Inductive call : Type :=
| Call_updateNode (rootNode : path) (duration : JS.value) (done : Render)
| Call_zoomToNode (d : path).

Definition set_hieararchy (st : State) (h : hnode A) : State :=
  mkState (dataIsDirty st) (refreshNeeded st) (size st) (Some h)
          (nodes st) (depthSpan st) (maxDepth st) (maxValues st)
          (minValues st) (nodeScale_range st) (tree_nodeSize st)
          (cx st) (cy st) (zoom_k st).

(** [toggleNode(d)], [d] being the node at a path of the hierarchy. *)
Definition toggleNode (st : State) (d : path)
  : option (State * list call) :=
  match hieararchy st with
  | Some h =>
      match node_at d h with
      | Some n =>
          let st1 := set_hieararchy st (update_at d toggle h) in
          match updateNode st1 (Some d) (JS.vnum 0) with
          | Some done =>
              Some (st1,
                    Call_updateNode d (JS.vnum 0) done ::
                    match children n with
                    | Some _ =>
                        match parent d with
                        | Some q => [Call_zoomToNode q]
                        | None => []
                        end
                    | None =>
                        match children (toggle n) with
                        | Some _ => [Call_zoomToNode d]
                        | None => []
                        end
                    end)
          | None => None
          end
      | None => None
      end
  | None => None
  end.

(** [onDataChanged]. *)
Definition onDataChanged (st : State) : State :=
  mkState true (refreshNeeded st) (size st) (hieararchy st)
          (nodes st) (depthSpan st) (maxDepth st) (maxValues st)
          (minValues st) (nodeScale_range st) (tree_nodeSize st)
          (cx st) (cy st) (zoom_k st).

(** [if (refresh == true) refreshNeeded = true]. *)
Definition request_refresh (st : State) (refresh : bool) : State :=
  mkState (dataIsDirty st) (refreshNeeded st || refresh) (size st)
          (hieararchy st) (nodes st) (depthSpan st) (maxDepth st)
          (maxValues st) (minValues st) (nodeScale_range st)
          (tree_nodeSize st) (cx st) (cy st) (zoom_k st).

(** [viz.update(refresh)]: [measure], then [updateNode(root)] with no
    duration; [root] is the data, not a node of the hierarchy. *)
Definition update (st : State) (refresh : bool)
  : option (State * Render) :=
  match measure (request_refresh st refresh) with
  | Some st1 =>
      match updateNode st1 None JS.VUndefined with
      | Some done => Some (st1, done)
      | None => None
      end
  | None => None
  end.

(** The component as the constructor leaves it: the data is dirty and
    nothing has been measured. *)
Definition initial : State :=
  mkState true false (mkSizeR 0 0 0 0 0 0) None [] 0 O
          (fun _ => None) (fun _ => None) (0, 1) (0, 0) 0 0 1.

(** A gesture of the user leaves the zoom transform at scale [k]. *)
Definition onZoomed (st : State) (k : R) : State :=
  mkState (dataIsDirty st) (refreshNeeded st) (size st) (hieararchy st)
          (nodes st) (depthSpan st) (maxDepth st) (maxValues st)
          (minValues st) (nodeScale_range st) (tree_nodeSize st)
          (cx st) (cy st) k.

(** The states the component goes through, for given properties: it is
    created, then data changes, calls of [viz.update], toggles and zooms
    follow in any order. *)
Inductive reachable : State -> Prop :=
| reach_initial : reachable initial
| reach_data_change st : reachable st -> reachable (onDataChanged st)
| reach_zoom st k : reachable st -> reachable (onZoomed st k)
| reach_update st refresh st1 done :
    reachable st -> update st refresh = Some (st1, done) -> reachable st1
| reach_toggle st d st1 calls :
    reachable st -> toggleNode st d = Some (st1, calls) -> reachable st1.

(** All the nodes of the data, as [refreshData] records them, and the
    depth of the deepest. *)
Definition all_nodes : list (hnode A) :=
  map snd (descendants (hierarchy (scope_data scope))).

Definition deepest_level : nat :=
  fold_left (fun m n => Nat.max m (depth n)) all_nodes O.

(** What [measure] has set, in a state that has a hierarchy: the nodes and
    the depth of the data, the span of a level, the left edge, the range of
    the scale of the radius and the extreme values of each level. *)
Definition measured (st : State) : Prop :=
  nodes st = all_nodes
  /\ maxDepth st = deepest_level
  /\ depthSpan st
     = (if Qlt_le_dec 0 (scope_horizontalPadding scope)
        then Q2R (scope_horizontalPadding scope)
        else width (size st) / (INR (maxDepth st) + 1))
  /\ cx st = left (size st)
  /\ (exists scale,
        node_room (size st) = Some scale
        /\ nodeScale_range st = (1.5, scale / 2))
  /\ (forall i, (1 <= i <= maxDepth st)%nat ->
        maxValues st i = d3_max (values_at (nodes st) i)
        /\ minValues st i = d3_min (values_at (nodes st) i)).

(** The value of a node is one of those [measure] has seen at its depth. *)
Definition seen (st : State) (a : hnode A) : Prop :=
  In (scope_value scope (data a)) (values_at (nodes st) (depth a)).

(** Every node a call of [updateNode] has laid out sits at its depth. *)
Definition at_their_depth (st : State) (done : Render) : Prop :=
  exists h,
    hieararchy st = Some h
    /\ map pn_node (sized_nodes (render_tree done)) = map snd (descendants h)
    /\ Forall (fun d => pn_y d = INR (depth (pn_node d)) * depthSpan st + cx st)
              (sized_nodes (render_tree done)).

End Component.

(** ** Statements about the two child fields *)

(** A field holds a non-empty array. *)
Definition nonempty {T} (o : option (list T)) : bool :=
  match o with
  | Some (_ :: _) => true
  | _ => false
  end.

(** Exactly one of [children] and [_children] is non-empty. *)
Definition exactly_one {A} (n : hnode A) : Prop :=
  xorb (nonempty (children n)) (nonempty (_children n)) = true.

(** The record of the data has children of its own. *)
Definition has_kids {A} (d : inode A) : bool := nonempty (kids_of d).

(** What the code keeps true of a node and of all the nodes it holds: a
    node whose record has children holds them, non-empty, in exactly one of
    the two fields, and a node whose record has none has both fields
    empty. *)
Inductive exclusive {A} : hnode A -> Prop :=
| exclusive_expanded d k l :
    l <> [] -> has_kids d = true -> Forall exclusive l ->
    exclusive (HNode d k (Some l) None)
| exclusive_collapsed d k l :
    l <> [] -> has_kids d = true -> Forall exclusive l ->
    exclusive (HNode d k None (Some l))
| exclusive_leaf d k :
    has_kids d = false -> exclusive (HNode d k None None).

(** Two hierarchies carry the same records at the same depths, whatever
    field holds the children of each node. *)
Inductive same_records {A} : hnode A -> hnode A -> Prop :=
| same_records_intro d k c c1 c2 c3 :
    Forall2 same_records (held_children (HNode d k c c1))
                         (held_children (HNode d k c2 c3)) ->
    same_records (HNode d k c c1) (HNode d k c2 c3).

(** ** A small tree to run the code on *)

(** A root with a group of two records and a single record. *)
Definition sample_data : inode nat :=
  INode 10%nat
        (Some [INode 4%nat (Some [INode 1%nat None; INode 3%nat None]);
               INode 9%nat None]).

(** The default properties of the component, around [sample_data]; the
    value of a record is the number it carries and the layout puts a node
    at its index and depth. *)
Definition sample_scope : Scope :=
  mkScope sample_data
          (Util.mkMargin (JS.VStr "5%") (JS.VStr "5%")
                         (JS.VStr "8%") (JS.VStr "7%"))
          600 600 (JS.vnum 500)
          (fun d => Some (INR (datum_of d)))
          (-1) (-1) (-1) true true
          (fun _ p => (INR (List.length p), INR (last p O))).

(** The hierarchy of [sample_data] as the first [measure] leaves it. *)
Definition sample_collapsed : hnode nat :=
  HNode sample_data 0
        (Some [HNode (INode 4%nat (Some [INode 1%nat None; INode 3%nat None]))
                     1 None
                     (Some [HNode (INode 1%nat None) 2 None None;
                            HNode (INode 3%nat None) 2 None None]);
               HNode (INode 9%nat None) 1 None None])
        None.

(** The first call of [viz.update()] on the sample. *)
Definition sample_first : option (State * Render) :=
  update (1 / 2) sample_scope initial false.

(** The state it leaves. *)
Definition sample_state : State :=
  match sample_first with
  | Some sr => fst sr
  | None => initial
  end.

(** A root with two records of values 0 and 1, in a component whose
    [maxNodeRadius] is set to 2. *)
Definition narrow_data : inode nat :=
  INode 5%nat (Some [INode 0%nat None; INode 1%nat None]).

Definition narrow_scope : Scope :=
  mkScope narrow_data
          (Util.mkMargin (JS.VStr "5%") (JS.VStr "5%")
                         (JS.VStr "8%") (JS.VStr "7%"))
          600 600 (JS.vnum 500)
          (fun d => Some (INR (datum_of d)))
          2 (-1) (-1) true true
          (fun _ p => (INR (List.length p), INR (last p O))).

Definition narrow_state : State :=
  match update (1 / 2) narrow_scope initial false with
  | Some sr => fst sr
  | None => initial
  end.

(** The group of the sample, collapsed. *)
Definition sample_group : hnode nat :=
  HNode (INode 4%nat (Some [INode 1%nat None; INode 3%nat None]))
        1 None
        (Some [HNode (INode 1%nat None) 2 None None;
               HNode (INode 3%nat None) 2 None None]).

End WeightedTree.

(* ================================================================== *)
(** * src/core/Util.js: keys, identifiers, and what an aggregation keeps *)
(* ================================================================== *)

(** Strings are sequences of ASCII characters.  [Math.random] is a
    parameter: the number its [k]-th call returns. *)

Module UtilRest.

Import JS Util.

Local Open Scope string_scope.

(** ** [vizuly2.core.util.createCSSKey] *)

(** [s.replace(',', '_')]: a pattern that is a string stands for its first
    occurrence only. *)
Fixpoint replace_first_comma (l : list ascii) : list ascii :=
  match l with
  | [] => []
  | c :: r =>
      if is_char c "," then "_"%char :: r else c :: replace_first_comma r
  end.

(** The characters of the class [[\s+,'+,\.,\(,\),\']]: white space, the
    plus sign, the comma, the single quote, the full stop and the two
    parentheses. *)
Definition stripped (c : ascii) : bool :=
  is_white c || is_char c "+" || is_char c "," || is_char c "'"
  || is_char c "." || is_char c "(" || is_char c ")".

(** [toUpperCase] on the letters of ASCII. *)
Definition toUpperCase_char (c : ascii) : ascii :=
  let n := nat_of_ascii c in
  if ((97 <=? n) && (n <=? 122))%nat then ascii_of_nat (n - 32) else c.

Definition toUpperCase (s : string) : string :=
  string_of_list_ascii (map toUpperCase_char (chars s)).

(** [createCSSKey(s)] for a string [s] of ASCII characters. *)
Definition createCSSKey (s : string) : string :=
  let s := string_of_list_ascii (replace_first_comma (chars s)) in
  let s := string_of_list_ascii
             (filter (fun c => negb (stripped c)) (chars s)) in
  "css" ++ toUpperCase s.

(** The string holds no comma. *)
Definition comma_free (s : string) : Prop :=
  Forall (fun c => is_char c "," = false) (chars s).

(** A small letter of ASCII. *)
Definition is_small (c : ascii) : bool :=
  ((97 <=? nat_of_ascii c) && (nat_of_ascii c <=? 122))%nat.

(** ** [vizuly2.core.util.guid] *)

(** [x | 0] for a finite [x]: the integer towards zero, wrapped to 32
    signed bits. *)
Definition to_int32 (x : Q) : Z :=
  let t := if Qle_bool 0 x then Qfloor x else Qceiling x in
  ((t + 2 ^ 31) mod 2 ^ 32 - 2 ^ 31)%Z.

Definition hex_char (d : Z) : ascii :=
  nth (Z.to_nat d) (chars "0123456789abcdef") "0"%char.

(** The digits of a natural number below [16 ^ fuel], the most significant
    first. *)
Fixpoint hex_digits (fuel : nat) (v : Z) (acc : list ascii) : list ascii :=
  match fuel with
  | O => acc
  | S f =>
      let acc1 := hex_char (v mod 16) :: acc in
      if (v / 16 =? 0)%Z then acc1 else hex_digits f (v / 16) acc1
  end.

(** [v.toString(16)] for an integer of 32 signed bits. *)
Definition toString16 (v : Z) : list ascii :=
  if (v <? 0)%Z then "-"%char :: hex_digits 8 (- v) []
  else hex_digits 8 v [].

(** The function given to [replace], [random] being what [Math.random()]
    returns in this call. *)
Definition guid_digit (c : ascii) (random : Q) : list ascii :=
  let r := to_int32 (random * 16) in
  let v := if is_char c "x" then r else Z.lor (Z.land r 3) 8 in
  toString16 v.

(** [template.replace(/[xy]/g, guid_digit)]: the matches are replaced from
    left to right, the [k]-th call of [Math.random()] returning
    [random k]. *)
Fixpoint replace_xy (l : list ascii) (random : nat -> Q) (k : nat)
  : list ascii :=
  match l with
  | [] => []
  | c :: r =>
      if is_char c "x" || is_char c "y"
      then (guid_digit c (random k) ++ replace_xy r random (S k))%list
      else c :: replace_xy r random k
  end.

Definition guid (random : nat -> Q) : string :=
  string_of_list_ascii (replace_xy (chars "vzxxxxxxxx") random 0).

(** One of the sixteen digits [v.toString(16)] is made of. *)
Definition is_hex_digit (c : ascii) : bool :=
  existsb (Ascii.eqb c) (chars "0123456789abcdef").

(** ** What [aggregateNest] leaves alone, and what a sum adds up to *)

(** A name [aggregateNest] writes under. *)
Definition reserved (k : string) : Prop :=
  exists p, k = agg_key p \/ k = childProp_key p.

(** Two nests have the same nodes, and each node has the same value under
    every name that is not reserved. *)
Inductive kept : obj -> obj -> Prop :=
| kept_record ps ps1 :
    (forall k, ~ reserved k -> get k ps1 = get k ps) ->
    kept (Obj ps None) (Obj ps1 None)
| kept_group ps vs ps1 vs1 :
    (forall k, ~ reserved k -> get k ps1 = get k ps) ->
    Forall2 kept vs vs1 ->
    kept (Obj ps (Some vs)) (Obj ps1 (Some vs1)).

(** The integer a record holds under the property [p], 0 when it holds no
    number there, and the sum of these integers over the records below a
    node. *)
Fixpoint total (p : string) (o : obj) : Z :=
  match o with
  | Obj ps None =>
      match Number (get p ps) with
      | Fin q => Qfloor q
      | _ => 0%Z
      end
  | Obj _ (Some vs) => fold_right (fun c acc => (total p c + acc)%Z) 0%Z vs
  end.

(** The sum of their absolute values. *)
Fixpoint weight (p : string) (o : obj) : Z :=
  match o with
  | Obj ps None =>
      match Number (get p ps) with
      | Fin q => Z.abs (Qfloor q)
      | _ => 0%Z
      end
  | Obj _ (Some vs) => fold_right (fun c acc => (weight p c + acc)%Z) 0%Z vs
  end.

(** A nest as [d3.nest] returns it, ready for a sum of [p]: what a record
    holds under [p] is an integer or no number, and every group has
    children and no aggregate yet. *)
Inductive summable (p : string) : obj -> Prop :=
| summable_record ps :
    (isNaN_num (Number (get p ps)) = true
     \/ exists z, Number (get p ps) = of_Z z) ->
    summable p (Obj ps None)
| summable_group ps vs :
    vs <> [] -> isNaN (get (agg_key p) ps) = true ->
    Forall (summable p) vs ->
    summable p (Obj ps (Some vs)).

(** The sums of the groups of a nest, in the order of
    [group_aggregates]. *)
Fixpoint group_totals (p : string) (o : obj) : list Z :=
  match o with
  | Obj _ (Some vs) => total p o :: flat_map (group_totals p) vs
  | Obj _ None => []
  end.

(** The record a nest ends with: the last child of the last child, and so
    on, as long as the groups on the way have no value of their own under
    [f]; [v] is what the record holds under [f]. *)
Inductive last_record (f : string) (v : value) : obj -> Prop :=
| last_here ps : get f ps = v -> last_record f v (Obj ps None)
| last_below ps vs c :
    not_undefined (get f ps) = false -> last_record f v c ->
    last_record f v (Obj ps (Some (vs ++ [c])%list)).

End UtilRest.

(* ================================================================== *)
(** * src/viz/WeightedTree.js: what is shown, the zoom and the colors *)
(* ================================================================== *)

Module TreeRest.

Import WeightedTree.

Local Open Scope R_scope.

(** ** Paths in the data and in what is laid out *)

(** [scope.children(d)] as a list: no children when there is no array. *)
Definition kids_list {A} (d : inode A) : list (inode A) :=
  match kids_of d with Some l => l | None => [] end.

(** The record at a path of the data. *)
Fixpoint record_at {A} (p : path) (d : inode A) : option (inode A) :=
  match p with
  | [] => Some d
  | i :: r =>
      match nth_error (kids_list d) i with
      | Some c => record_at r c
      | None => None
      end
  end.

(** The node at a path that goes through [children] only: a node that
    [descendants] reaches, and that is laid out. *)
Fixpoint shown_at {A} (p : path) (n : hnode A) : option (hnode A) :=
  match p with
  | [] => Some n
  | i :: r =>
      match nth_error (active_children n) i with
      | Some c => shown_at r c
      | None => None
      end
  end.

(** [q] is [d] or lies below [d]. *)
Definition below (d q : path) : Prop := exists r, q = d ++ r.

(** The paths of the nodes a call of [updateNode] has laid out. *)
Definition laid_out {A} (done : @Render A) : list path :=
  map pn_path (sized_nodes (render_tree done)).

(** The node of a path among those a call of [updateNode] has laid out:
    the object a later [zoomToNode(d)] reads [d.x] and [d.y] from. *)
Definition laid_out_at {A} (done : @Render A) (d : path) : option (@pnode A) :=
  find (fun n => if list_eq_dec Nat.eq_dec (pn_path n) d then true else false)
       (sized_nodes (render_tree done)).

(** ** [scaleToHeight] *)

(** [viz.scaleToHeight()]: the transform given to the zoom, [drawn] being
    the nodes bound to the elements of the plot by the last call of
    [updateNode].  There is no result when the scale is not a finite
    number: nothing is drawn, or all the nodes are on one line. *)
Definition scaleToHeight {A} (st : @State A) (drawn : list (@pnode A))
  : option Transform :=
  match drawn with
  | [] => None
  | first :: rest =>
      let minX := Rminimum (pn_x first) (map pn_x rest) in
      let maxX := Rmaximum (pn_x first) (map pn_x rest) in
      let h := height_px (size st) - snd (nodeScale_range st) in
      if Req_dec_T (maxX - minX) 0 then None
      else
        let scale := h / (maxX - minX) in
        Some (mkTransform 0 (- minX * scale + snd (nodeScale_range st)) scale)
  end.

(** Where the transform [translate(t.x, t.y) scale(t.k)] of the plot puts
    the node at [(y, x)]. *)
Definition on_screen (t : Transform) (y x : R) : R * R :=
  (t_x t + t_k t * y, t_y t + t_k t * x).

(** ** The colors of the branches *)

(** The color of a record of the data, which carries its
    [vz_link_color] ([None]: not set) next to what the caller put in. *)
Definition vz_link_color {B} (d : inode (B * option string)) : option string :=
  snd (datum_of d).

(** [node.vz_link_color = color]. *)
Definition set_link_color {B} (color : option string)
  (node : inode (B * option string)) : inode (B * option string) :=
  match node with
  | INode (b, _) ks => INode (b, color) ks
  end.

(** The body of the loop of [styles_setLinkColor]:
    [child.vz_link_color = node.vz_link_color;
     styles_setLinkColor(child)]. *)
Fixpoint setLinkColor_child {B} (color : option string)
  (child : inode (B * option string)) : inode (B * option string) :=
  match child with
  | INode (b, _) ks =>
      INode (b, color)
            match ks with
            | Some l => Some (map (setLinkColor_child color) l)
            | None => None
            end
  end.

(** [styles_setLinkColor(node)]. *)
Definition styles_setLinkColor {B} (node : inode (B * option string))
  : inode (B * option string) :=
  match node with
  | INode (b, color) ks =>
      INode (b, color)
            match ks with
            | Some l => Some (map (setLinkColor_child color) l)
            | None => None
            end
  end.

(** [colors[i % colors.length]]: [undefined] for an empty array. *)
Definition color_of (colors : list string) (i : nat) : option string :=
  match colors with
  | [] => None
  | _ => nth_error colors (i mod List.length colors)
  end.

(** [styles_prepColorData] when the component has styles; [None] when the
    data has no array of children and [forEach] throws. *)
Definition styles_prepColorData {B} (colors : list string)
  (data : inode (B * option string)) : option (inode (B * option string)) :=
  match data with
  | INode bc (Some l) =>
      Some (INode bc
              (Some (map (fun ic =>
                            styles_setLinkColor
                              (set_link_color (color_of colors (fst ic))
                                              (snd ic)))
                         (combine (seq 0 (List.length l)) l))))
  | INode _ None => None
  end.

(** Two states hold the same measures: the variables of the closure are
    equal, the extreme values level by level. *)
Definition same_measures {A} (st st1 : @State A) : Prop :=
  dataIsDirty st1 = dataIsDirty st
  /\ refreshNeeded st1 = refreshNeeded st
  /\ size st1 = size st
  /\ hieararchy st1 = hieararchy st
  /\ nodes st1 = nodes st
  /\ depthSpan st1 = depthSpan st
  /\ maxDepth st1 = maxDepth st
  /\ (forall i, maxValues st1 i = maxValues st i)
  /\ (forall i, minValues st1 i = minValues st i)
  /\ nodeScale_range st1 = nodeScale_range st
  /\ tree_nodeSize st1 = tree_nodeSize st
  /\ cx st1 = cx st
  /\ cy st1 = cy st
  /\ zoom_k st1 = zoom_k st.

(** Two colors, and the sample with a color left from an earlier pass on
    one of its records. *)
Definition sample_palette : list string := ["red"%string; "blue"%string].

Definition sample_records : inode (nat * option string) :=
  INode (10%nat, None)
        (Some [INode (4%nat, None)
                     (Some [INode (1%nat, None) None;
                            INode (3%nat, Some "old"%string) None]);
               INode (9%nat, None) None]).

End TreeRest.

(* ================================================================== *)
(** * Properties of the utilities *)
(* ================================================================== *)

Module UtilFacts.

Import JS Util.

Local Open Scope string_scope.

(** ** Rounding to a double *)

Ltac compared H :=
  first [apply Qeq_alt in H | apply Qlt_alt in H | apply Qgt_alt in H].

Section Rounding.

Local Open Scope Q_scope.

Lemma pow2_pos e : 0 < pow2 e.
Proof. apply Qpower_0_lt. reflexivity. Qed.

Lemma pow2_add a b : pow2 (a + b) == pow2 a * pow2 b.
Proof. apply Qpower_plus. discriminate. Qed.

Lemma pow2_succ a : pow2 (a + 1) == 2 * pow2 a.
Proof. rewrite pow2_add. change (pow2 1) with 2. ring. Qed.

Lemma pow2_le a b : (a <= b)%Z -> pow2 a <= pow2 b.
Proof. intros H. apply Qpower_le_compat_l; [exact H | discriminate]. Qed.

Lemma pow2_lt a b : (a < b)%Z -> pow2 a < pow2 b.
Proof. intros H. apply Qpower_lt_compat_l; [exact H | reflexivity]. Qed.

Lemma pow2_lt_inv a b : pow2 a < pow2 b -> (a < b)%Z.
Proof. intros H. apply (Qpower_lt_compat_l_inv 2); [exact H | reflexivity]. Qed.

Lemma pow2_Z a : (0 <= a)%Z -> pow2 a == inject_Z (2 ^ a).
Proof. intros H. unfold pow2. now rewrite Zpower_Qpower. Qed.

Lemma log2_bounds n :
  (0 < n)%Z -> pow2 (Z.log2 n) <= inject_Z n /\ inject_Z n < pow2 (Z.log2 n + 1).
Proof.
  intros H. destruct (Z.log2_spec n H) as [H1 H2].
  assert (H0 := Z.log2_nonneg n).
  rewrite !pow2_Z by lia. split.
  - now rewrite <- Zle_Qle.
  - rewrite <- Zlt_Qlt. now rewrite <- Z.add_1_r in H2.
Qed.

Lemma ilog2_spec q : 0 < q -> pow2 (ilog2 q) <= q /\ q < pow2 (ilog2 q + 1).
Proof.
  intros Hq. destruct q as [n d].
  assert (Hn : (0 < n)%Z).
  { unfold Qlt in Hq. simpl in Hq. lia. }
  destruct (log2_bounds n Hn) as [A1 A2].
  destruct (log2_bounds (Zpos d) eq_refl) as [B1 B2].
  unfold ilog2. cbn [Qnum Qden].
  set (a := Z.log2 n) in *. set (b := Z.log2 (Zpos d)) in *.
  assert (HA := pow2_pos a). assert (HB := pow2_pos b).
  assert (E : pow2 (a - b) * pow2 b == pow2 a).
  { rewrite <- pow2_add. now replace (a - b + b)%Z with a by lia. }
  assert (Q : (n # d) * inject_Z (Zpos d) == inject_Z n).
  { unfold Qeq, Qmult, inject_Z. simpl. lia. }
  assert (HD : 0 < inject_Z (Zpos d)) by reflexivity.
  rewrite pow2_succ in A2, B2.
  assert (HP := pow2_pos (a - b)).
  destruct (Qle_bool (pow2 (a - b)) (n # d)) eqn:T.
  - apply Qle_bool_iff in T. split; [exact T |].
    rewrite pow2_succ.
    apply (Qmult_lt_r _ _ (inject_Z (Zpos d))); [exact HD |].
    rewrite Q.
    apply Qlt_le_trans with (2 * pow2 a); [exact A2 |].
    rewrite <- E. rewrite <- !Qmult_assoc.
    apply Qmult_le_l; [reflexivity |].
    apply Qmult_le_l; [exact HP | exact B1].
  - assert (T1 : (n # d) < pow2 (a - b)).
    { apply Qnot_le_lt. intros C. apply Qle_bool_iff in C. congruence. }
    replace (a - b - 1 + 1)%Z with (a - b)%Z by lia.
    split; [| exact T1].
    assert (E1 : 2 * pow2 (a - b - 1) == pow2 (a - b)).
    { rewrite <- pow2_succ. now replace (a - b - 1 + 1)%Z with (a - b)%Z by lia. }
    apply (Qmult_le_r _ _ (inject_Z (Zpos d))); [exact HD |].
    rewrite Q.
    apply Qle_trans with (pow2 a); [| exact A1].
    rewrite <- E, <- E1.
    assert (HP1 := pow2_pos (a - b - 1)).
    setoid_replace (2 * pow2 (a - b - 1) * pow2 b)
      with (pow2 (a - b - 1) * (2 * pow2 b)) by ring.
    apply Qmult_le_l; [exact HP1 |]. now apply Qlt_le_weak.
Qed.

Lemma ilog2_unique q a : pow2 a <= q -> q < pow2 (a + 1) -> 0 < q -> ilog2 q = a.
Proof.
  intros H1 H2 Hq. destruct (ilog2_spec q Hq) as [S1 S2].
  assert (ilog2 q < a + 1)%Z.
  { apply pow2_lt_inv. eapply Qle_lt_trans; eassumption. }
  assert (a < ilog2 q + 1)%Z.
  { apply pow2_lt_inv. eapply Qle_lt_trans; eassumption. }
  lia.
Qed.

Lemma ilog2_comp x y : 0 < x -> x == y -> ilog2 x = ilog2 y.
Proof.
  intros Hx E. destruct (ilog2_spec x Hx) as [S1 S2].
  symmetry. apply ilog2_unique; rewrite <- E; assumption.
Qed.

Lemma ilog2_mono x y : 0 < x -> x <= y -> (ilog2 x <= ilog2 y)%Z.
Proof.
  intros Hx H. assert (Hy : 0 < y) by (eapply Qlt_le_trans; eassumption).
  destruct (ilog2_spec x Hx) as [S1 _]. destruct (ilog2_spec y Hy) as [_ T2].
  assert (ilog2 x < ilog2 y + 1)%Z; [| lia].
  apply pow2_lt_inv. eapply Qle_lt_trans; [exact S1 |].
  eapply Qle_lt_trans; eassumption.
Qed.



Lemma round_even_bounds x :
  (Qfloor x <= round_even x <= Qfloor x + 1)%Z.
Proof.
  unfold round_even. destruct (Qcompare _ _); [destruct (Z.even _) | |]; lia.
Qed.

Lemma round_even_comp x y : x == y -> round_even x = round_even y.
Proof.
  intros E. unfold round_even. rewrite (Qfloor_comp _ _ E).
  now rewrite E.
Qed.

Lemma round_even_Z z : round_even (inject_Z z) = z.
Proof.
  unfold round_even. rewrite Qfloor_Z.
  assert (H : inject_Z z - inject_Z z < 1 # 2) by (ring_simplify; reflexivity).
  destruct (inject_Z z - inject_Z z ?= 1 # 2) eqn:C; [| reflexivity |].
  - apply Qeq_alt in C. exfalso. Lqa.lra.
  - apply Qgt_alt in C. exfalso. Lqa.lra.
Qed.

Lemma round_even_mono x y : x <= y -> (round_even x <= round_even y)%Z.
Proof.
  intros H. assert (F := Qfloor_resp_le _ _ H).
  destruct (Z.eq_dec (Qfloor x) (Qfloor y)) as [E | N].
  - unfold round_even. rewrite E.
    destruct (x - inject_Z (Qfloor y) ?= 1 # 2) eqn:Cx;
      destruct (y - inject_Z (Qfloor y) ?= 1 # 2) eqn:Cy;
      try (destruct (Z.even (Qfloor y))); try lia; exfalso;
      compared Cx; compared Cy;
      revert Cx Cy H; generalize (inject_Z (Qfloor y)); intros; Lqa.lra.
  - assert (B1 := round_even_bounds x). assert (B2 := round_even_bounds y). lia.
Qed.

Lemma round_even_le x z : x <= inject_Z z -> (round_even x <= z)%Z.
Proof. intros H. rewrite <- (round_even_Z z). now apply round_even_mono. Qed.

Lemma round_even_ge x z : inject_Z z <= x -> (z <= round_even x)%Z.
Proof. intros H. rewrite <- (round_even_Z z). now apply round_even_mono. Qed.



Lemma exponent_comp x y : 0 < x -> x == y -> exponent x = exponent y.
Proof. intros Hx E. unfold exponent. now rewrite (ilog2_comp x y Hx E). Qed.

Lemma exponent_mono x y : 0 < x -> x <= y -> (exponent x <= exponent y)%Z.
Proof. intros Hx H. assert (L := ilog2_mono x y Hx H). unfold exponent. lia. Qed.

Lemma mantissa_comp x y : 0 < x -> x == y -> mantissa x = mantissa y.
Proof.
  intros Hx E. unfold mantissa. rewrite (exponent_comp x y Hx E).
  apply round_even_comp. now rewrite E.
Qed.

Lemma nearest_comp x y : 0 < x -> x == y -> nearest x == nearest y.
Proof.
  intros Hx E. unfold nearest.
  now rewrite (exponent_comp x y Hx E), (mantissa_comp x y Hx E).
Qed.

Lemma div_pow2_le x y e : x <= y -> x / pow2 e <= y / pow2 e.
Proof.
  intros H. unfold Qdiv. apply Qmult_le_compat_r; [exact H |].
  apply Qlt_le_weak, Qinv_lt_0_compat, pow2_pos.
Qed.

Lemma mantissa_nonneg x : 0 <= x -> (0 <= mantissa x)%Z.
Proof.
  intros H. apply round_even_ge.
  change (inject_Z 0) with 0. apply Qle_shift_div_l; [apply pow2_pos |].
  now rewrite Qmult_0_l.
Qed.

(** A mantissa has 53 bits at most, the last step up included. *)
Lemma mantissa_le x : 0 < x -> (mantissa x <= 2 ^ 53)%Z.
Proof.
  intros Hx. destruct (ilog2_spec x Hx) as [_ X2].
  apply round_even_le. rewrite <- (pow2_Z 53) by lia.
  apply Qle_shift_div_r; [apply pow2_pos |].
  rewrite <- pow2_add. apply Qlt_le_weak.
  eapply Qlt_le_trans; [exact X2 |]. apply pow2_le. unfold exponent. lia.
Qed.

(** Above the subnormal numbers it has exactly 53 bits. *)
Lemma mantissa_ge x :
  0 < x -> (-1074 < exponent x)%Z -> (2 ^ 52 <= mantissa x)%Z.
Proof.
  intros Hx He. destruct (ilog2_spec x Hx) as [X1 _].
  assert (E : exponent x = (ilog2 x - 52)%Z) by (unfold exponent in *; lia).
  apply round_even_ge. rewrite <- (pow2_Z 52) by lia.
  apply Qle_shift_div_l; [apply pow2_pos |].
  rewrite <- pow2_add, E.
  now replace (52 + (ilog2 x - 52))%Z with (ilog2 x) by lia.
Qed.

Lemma mantissa_mono x y :
  0 < x -> x <= y -> exponent x = exponent y -> (mantissa x <= mantissa y)%Z.
Proof.
  intros Hx H E. unfold mantissa. rewrite E.
  apply round_even_mono. now apply div_pow2_le.
Qed.

Lemma nearest_nonneg x : 0 <= x -> 0 <= nearest x.
Proof.
  intros H. unfold nearest. apply Qmult_le_0_compat.
  - change 0 with (inject_Z 0). rewrite <- Zle_Qle. now apply mantissa_nonneg.
  - apply Qlt_le_weak, pow2_pos.
Qed.

Lemma nearest_mono x y : 0 < x -> x <= y -> nearest x <= nearest y.
Proof.
  intros Hx H. assert (Hy : 0 < y) by (eapply Qlt_le_trans; eassumption).
  assert (L := exponent_mono x y Hx H).
  destruct (Z.eq_dec (exponent x) (exponent y)) as [E | N].
  - unfold nearest. rewrite <- E.
    apply Qmult_le_compat_r; [| apply Qlt_le_weak, pow2_pos].
    rewrite <- Zle_Qle. now apply mantissa_mono.
  - assert (Ge : (-1074 < exponent y)%Z) by (unfold exponent in *; lia).
    apply Qle_trans with (pow2 (53 + exponent x)).
    + unfold nearest. rewrite pow2_add.
      apply Qmult_le_compat_r; [| apply Qlt_le_weak, pow2_pos].
      rewrite (pow2_Z 53) by lia. rewrite <- Zle_Qle. now apply mantissa_le.
    + apply Qle_trans with (pow2 (52 + exponent y)); [apply pow2_le; lia |].
      unfold nearest. rewrite pow2_add.
      apply Qmult_le_compat_r; [| apply Qlt_le_weak, pow2_pos].
      rewrite (pow2_Z 52) by lia. rewrite <- Zle_Qle. now apply mantissa_ge.
Qed.



Lemma overflows_comp x y : 0 < x -> x == y -> overflows x = overflows y.
Proof.
  intros Hx E. unfold overflows.
  now rewrite (exponent_comp x y Hx E), (mantissa_comp x y Hx E).
Qed.

Lemma overflows_mono x y :
  0 < x -> x <= y -> overflows x = true -> overflows y = true.
Proof.
  intros Hx H. assert (Hy : 0 < y) by (eapply Qlt_le_trans; eassumption).
  assert (L := exponent_mono x y Hx H).
  assert (My := mantissa_le y Hy).
  unfold overflows. intros O.
  destruct (Z.eq_dec (exponent x) (exponent y)) as [E | N].
  - assert (M := mantissa_mono x y Hx H E). lia.
  - lia.
Qed.

Lemma round_pos_comp x y : 0 < x -> x == y -> round_pos x = round_pos y.
Proof.
  intros Hx E. unfold round_pos. rewrite (overflows_comp x y Hx E).
  destruct (overflows y); [reflexivity |].
  f_equal. apply Qred_complete. now apply nearest_comp.
Qed.

Lemma fin_comp x y : x == y -> fin x = fin y.
Proof.
  intros E. unfold fin. rewrite <- E.
  destruct (0 ?= x) eqn:C; compared C; [reflexivity | |].
  - now rewrite (round_pos_comp x y C E).
  - assert (C1 : 0 < - x) by Lqa.lra.
    rewrite (round_pos_comp (- x) (- y) C1); [reflexivity | now rewrite E].
Qed.

Lemma round_pos_cases x :
  0 <= x ->
  (round_pos x = PInf /\ overflows x = true)
  \/ (exists v, round_pos x = Fin v /\ v == nearest x /\ 0 <= v
                /\ overflows x = false).
Proof.
  intros Hx. unfold round_pos. destruct (overflows x).
  - left. split; reflexivity.
  - right. exists (Qred (nearest x)). split; [reflexivity |].
    split; [apply Qred_correct |]. rewrite Qred_correct.
    split; [now apply nearest_nonneg | reflexivity].
Qed.

Lemma leb_Fin x y : leb (Fin x) (Fin y) = true <-> x <= y.
Proof. apply Qle_bool_iff. Qed.

Lemma round_pos_mono x y :
  0 < x -> x <= y -> leb (round_pos x) (round_pos y) = true.
Proof.
  intros Hx H. assert (Hy : 0 < y) by (eapply Qlt_le_trans; eassumption).
  assert (N := nearest_mono x y Hx H).
  destruct (round_pos_cases x (Qlt_le_weak _ _ Hx))
    as [[-> X] | (v & -> & Xv & _ & X)];
    destruct (round_pos_cases y (Qlt_le_weak _ _ Hy))
      as [[-> Y] | (w & -> & Yw & _ & Y)];
    try reflexivity.
  - rewrite (overflows_mono x y Hx H X) in Y. discriminate.
  - apply leb_Fin. rewrite Xv, Yw. exact N.
Qed.

Lemma fin_mono x y : x <= y -> leb (fin x) (fin y) = true.
Proof.
  intros H. unfold fin.
  destruct (0 ?= x) eqn:Cx; destruct (0 ?= y) eqn:Cy;
    compared Cx; compared Cy;
    try (exfalso; Lqa.lra); try reflexivity.
  - destruct (round_pos_cases y (Qlt_le_weak _ _ Cy))
      as [[-> _] | (w & -> & _ & Y & _)];
      [reflexivity | now apply leb_Fin].
  - now apply round_pos_mono.
  - assert (C : 0 <= - x) by Lqa.lra.
    destruct (round_pos_cases (- x) C) as [[-> _] | (w & -> & _ & Y & _)];
      [reflexivity |]. apply leb_Fin. rewrite Qred_correct. Lqa.lra.
  - assert (C : 0 <= - x) by Lqa.lra.
    destruct (round_pos_cases (- x) C) as [[-> _] | (w & -> & _ & Y & _)];
    destruct (round_pos_cases y (Qlt_le_weak _ _ Cy))
      as [[-> _] | (u & -> & _ & U & _)];
      try reflexivity.
    apply leb_Fin. rewrite Qred_correct. Lqa.lra.
  - assert (Cx1 : 0 < - x) by Lqa.lra. assert (Cy1 : 0 < - y) by Lqa.lra.
    assert (M := round_pos_mono (- y) (- x) Cy1 ltac:(Lqa.lra)).
    destruct (round_pos_cases (- x) (Qlt_le_weak _ _ Cx1))
      as [[Ex _] | (w & Ex & _ & W & _)];
      destruct (round_pos_cases (- y) (Qlt_le_weak _ _ Cy1))
        as [[Ey _] | (u & Ey & _ & U & _)];
      rewrite Ex, Ey in *; try reflexivity; try discriminate.
    apply leb_Fin in M. apply leb_Fin. rewrite !Qred_correct. Lqa.lra.
Qed.

Lemma fin_zero : fin 0 = Fin 0.
Proof. reflexivity. Qed.

Lemma fin_one : fin 1 = Fin 1.
Proof. vm_compute. reflexivity. Qed.

(** What lies between two finite numbers is finite. *)
Lemma leb_between a x y :
  leb (Fin x) a = true -> leb a (Fin y) = true ->
  exists v, a = Fin v /\ x <= v /\ v <= y.
Proof.
  destruct a as [| | | v]; try discriminate. intros H1 H2.
  exists v. split; [reflexivity |]. split; now apply leb_Fin.
Qed.

Lemma Qred_inject_Z z : Qred (inject_Z z) = inject_Z z.
Proof. destruct z as [| p | p]; [reflexivity | |]; destruct p; reflexivity. Qed.

Lemma ilog2_Z z : (0 < z)%Z -> ilog2 (inject_Z z) = Z.log2 z.
Proof.
  intros Hz. destruct (log2_bounds z Hz) as [H1 H2].
  apply ilog2_unique; try assumption.
  change 0 with (inject_Z 0). now rewrite <- Zlt_Qlt.
Qed.

(** An integer of at most 53 bits is a double. *)
Lemma round_pos_Z z :
  (0 < z <= 2 ^ 53)%Z -> round_pos (inject_Z z) = Fin (inject_Z z).
Proof.
  intros [Hz Hle].
  assert (L0 := Z.log2_nonneg z).
  assert (L : (Z.log2 z <= 53)%Z).
  { assert (Z.log2 z < 54)%Z; [| lia]. apply Z.log2_lt_pow2; lia. }
  assert (E : exponent (inject_Z z) = (Z.log2 z - 52)%Z).
  { unfold exponent. rewrite (ilog2_Z z Hz). lia. }
  assert (N : nearest (inject_Z z) == inject_Z z).
  { unfold nearest, mantissa. rewrite E.
    destruct (Z.eq_dec (Z.log2 z) 53) as [E53 | N53].
    - assert (z = 2 ^ 53)%Z.
      { destruct (Z.log2_spec z Hz) as [S1 _]. rewrite E53 in S1. lia. }
      subst z. rewrite E53. vm_compute. reflexivity.
    - set (k := (52 - Z.log2 z)%Z).
      replace (Z.log2 z - 52)%Z with (- k)%Z by (unfold k; lia).
      assert (Hk : (0 <= k)%Z) by (unfold k; lia).
      assert (P : pow2 (- k) * inject_Z (2 ^ k) == 1).
      { rewrite <- (pow2_Z k Hk), <- pow2_add.
        now replace (- k + k)%Z with 0%Z by lia. }
      assert (Pk := pow2_pos (- k)).
      rewrite (round_even_comp _ (inject_Z (z * 2 ^ k))).
      + rewrite round_even_Z, inject_Z_mult, <- Qmult_assoc.
        rewrite (Qmult_comm (inject_Z (2 ^ k))), P. ring.
      + rewrite inject_Z_mult, <- (pow2_Z k Hk). unfold Qdiv.
        apply Qmult_comp; [reflexivity |]. unfold pow2.
        rewrite <- Qpower_opp. now rewrite Z.opp_involutive. }
  unfold round_pos, overflows. rewrite E.
  replace (971 <? Z.log2 z - 52)%Z with false by (symmetry; apply Z.ltb_ge; lia).
  replace (971 =? Z.log2 z - 52)%Z with false by (symmetry; apply Z.eqb_neq; lia).
  cbn [orb andb]. f_equal.
  rewrite (Qred_complete _ _ N). apply Qred_inject_Z.
Qed.

Lemma fin_of_Z z : (Z.abs z <= 2 ^ 53)%Z -> fin (inject_Z z) = of_Z z.
Proof.
  intros H. unfold fin, of_Z.
  destruct (0 ?= inject_Z z) eqn:C; compared C.
  - assert (z = 0%Z) by (unfold Qeq in C; simpl in C; lia). now subst z.
  - change 0 with (inject_Z 0) in C. rewrite <- Zlt_Qlt in C.
    apply round_pos_Z. lia.
  - change 0 with (inject_Z 0) in C. rewrite <- Zlt_Qlt in C.
    rewrite <- inject_Z_opp, round_pos_Z by lia. f_equal.
    rewrite <- inject_Z_opp, Z.opp_involutive. apply Qred_inject_Z.
Qed.

(** Sums and differences of integers are exact as long as they keep to 53
    bits. *)
Lemma add_of_Z a b :
  (Z.abs (a + b) <= 2 ^ 53)%Z -> add (of_Z a) (of_Z b) = of_Z (a + b).
Proof.
  intros H. rewrite <- (fin_of_Z _ H). unfold add, of_Z.
  apply fin_comp. now rewrite inject_Z_plus.
Qed.

Lemma neg_of_Z a : (Z.abs a <= 2 ^ 53)%Z -> neg (of_Z a) = of_Z (- a).
Proof.
  intros H. rewrite <- (fin_of_Z (- a)) by lia. unfold neg, of_Z.
  apply fin_comp. now rewrite inject_Z_opp.
Qed.

Lemma sub_of_Z a b :
  (Z.abs b <= 2 ^ 53)%Z -> (Z.abs (a - b) <= 2 ^ 53)%Z ->
  sub (of_Z a) (of_Z b) = of_Z (a - b).
Proof.
  intros Hb H. unfold sub. rewrite neg_of_Z by exact Hb.
  now rewrite add_of_Z.
Qed.

(** Multiplying a number of the language by 1 changes nothing. *)
Lemma mul_one a : binary64 a -> mul a (of_Z 1) = a.
Proof.
  destruct a as [| | | x]; try reflexivity. unfold binary64, double.
  intros H. unfold mul, of_Z. rewrite <- H. apply fin_comp.
  change (inject_Z 1) with 1. ring.
Qed.

Lemma ilog2_scaled m e :
  (0 < m)%Z -> ilog2 (inject_Z m * pow2 e) = (Z.log2 m + e)%Z.
Proof.
  intros Hm. destruct (log2_bounds m Hm) as [H1 H2].
  assert (P := pow2_pos e).
  apply ilog2_unique.
  - rewrite pow2_add. now apply Qmult_le_compat_r; [| apply Qlt_le_weak].
  - replace (Z.log2 m + e + 1)%Z with (Z.log2 m + 1 + e)%Z by lia.
    rewrite pow2_add. now apply Qmult_lt_compat_r.
  - apply Qmult_lt_0_compat; [| exact P].
    change 0 with (inject_Z 0). now rewrite <- Zlt_Qlt.
Qed.

Lemma scaled_div m e : inject_Z m * pow2 e / pow2 e == inject_Z m.
Proof.
  assert (P := pow2_pos e). field. intros C. rewrite C in P. discriminate.
Qed.

(** What the rounding returns is a double: rounding it again changes
    nothing. *)
Lemma round_pos_idem q v :
  0 < q -> round_pos q = Fin v ->
  v = 0 \/ (0 < v /\ round_pos v = Fin v).
Proof.
  intros Hq H. unfold round_pos in H.
  destruct (overflows q) eqn:O; [discriminate |].
  assert (Hv : v = Qred (nearest q)) by congruence. subst v. clear H.
  assert (Mle := mantissa_le q Hq).
  assert (M0 := mantissa_nonneg q (Qlt_le_weak _ _ Hq)).
  assert (E0 : (-1074 <= exponent q)%Z) by (unfold exponent; lia).
  assert (N : nearest q == inject_Z (mantissa q) * pow2 (exponent q))
    by reflexivity.
  set (M := mantissa q) in *. set (E := exponent q) in *.
  destruct (Z.eq_dec M 0) as [Z0 | NZ].
  { left. rewrite (Qred_complete _ 0); [reflexivity |].
    rewrite N, Z0. ring. }
  right.
  assert (Mpos : (0 < M)%Z) by lia.
  assert (Vpos : 0 < inject_Z M * pow2 E).
  { apply Qmult_lt_0_compat; [| apply pow2_pos].
    change 0 with (inject_Z 0). now rewrite <- Zlt_Qlt. }
  assert (Rpos : 0 < Qred (nearest q)) by (rewrite Qred_correct, N; exact Vpos).
  split; [exact Rpos |].
  assert (Rv : Qred (nearest q) == inject_Z M * pow2 E)
    by (rewrite Qred_correct; exact N).
  rewrite (round_pos_comp _ _ Rpos Rv).
  assert (L := ilog2_scaled M E Mpos).
  assert (Mge : (-1074 < E)%Z -> (2 ^ 52 <= M)%Z)
    by (intros; now apply mantissa_ge).
  assert (L0 := Z.log2_nonneg M).
  assert (L53 : (Z.log2 M <= 53)%Z).
  { assert (Z.log2 M < 54)%Z; [| lia]. apply Z.log2_lt_pow2; lia. }
  unfold overflows in O. fold M E in O.
  destruct (Z.eq_dec M (2 ^ 53)) as [E53 | N53].
  - assert (LM : Z.log2 M = 53%Z) by (rewrite E53; reflexivity).
    assert (Ev : exponent (inject_Z M * pow2 E) = (E + 1)%Z)
      by (unfold exponent; rewrite L; lia).
    assert (Mv : mantissa (inject_Z M * pow2 E) = (2 ^ 52)%Z).
    { unfold mantissa. rewrite Ev.
      rewrite (round_even_comp _ (inject_Z (2 ^ 52))); [apply round_even_Z |].
      rewrite E53, pow2_succ.
      change (inject_Z (2 ^ 53)) with (2 * inject_Z (2 ^ 52)).
      generalize (inject_Z (2 ^ 52)). intros k.
      assert (P := pow2_pos E). field. intros C. rewrite C in P. discriminate. }
    unfold round_pos, overflows. rewrite Ev, Mv.
    replace (971 <? E + 1)%Z with false by (symmetry; apply Z.ltb_ge; lia).
    replace (2 ^ 52 =? 2 ^ 53)%Z with false by reflexivity.
    rewrite andb_false_r. cbn [orb]. f_equal. apply Qred_complete.
    rewrite N. unfold nearest. rewrite Ev, Mv. fold M E.
    rewrite E53, pow2_succ.
    change (inject_Z (2 ^ 53)) with (2 * inject_Z (2 ^ 52)).
    generalize (inject_Z (2 ^ 52)). intros k. ring.
  - assert (LM : (Z.log2 M <= 52)%Z).
    { assert (Z.log2 M < 53)%Z; [| lia]. apply Z.log2_lt_pow2; lia. }
    assert (Ev : exponent (inject_Z M * pow2 E) = E).
    { unfold exponent. rewrite L.
      destruct (Z.eq_dec E (-1074)) as [-> | NE]; [lia |].
      assert (2 ^ 52 <= M)%Z by (apply Mge; lia).
      assert (52 <= Z.log2 M)%Z by (apply Z.log2_le_pow2; lia). lia. }
    assert (Mv : mantissa (inject_Z M * pow2 E) = M).
    { unfold mantissa. rewrite Ev.
      rewrite (round_even_comp _ (inject_Z M)); [apply round_even_Z |].
      apply scaled_div. }
    unfold round_pos, overflows. rewrite Ev, Mv, O. f_equal.
    apply Qred_complete. rewrite N. unfold nearest. now rewrite Ev, Mv.
Qed.

Lemma fin_double q v : fin q = Fin v -> double v.
Proof.
  unfold double, fin at 1.
  destruct (0 ?= q) eqn:C; compared C.
  - intros [= <-]. reflexivity.
  - intros H. destruct (round_pos_idem q v C H) as [-> | [Hv Hr]];
      [reflexivity |].
    unfold fin. destruct (0 ?= v) eqn:Cv; compared Cv;
      [exfalso; Lqa.lra | exact Hr | exfalso; Lqa.lra].
  - assert (C1 : 0 < - q) by Lqa.lra.
    destruct (round_pos (- q)) as [| | | w] eqn:R; try discriminate.
    intros H. assert (Hv : v = Qred (- w)) by congruence. subst v. clear H.
    destruct (round_pos_idem (- q) w C1 R) as [-> | [Hw Hr]];
      [reflexivity |].
    assert (Hn : Qred (- w) < 0) by (rewrite Qred_correct; Lqa.lra).
    unfold fin. destruct (0 ?= Qred (- w)) eqn:Cv; compared Cv;
      [exfalso; Lqa.lra | exfalso; Lqa.lra |].
    rewrite (round_pos_comp (- Qred (- w)) w).
    + now rewrite Hr.
    + rewrite Qred_correct. Lqa.lra.
    + rewrite Qred_correct. ring.
Qed.

(** Every result of the arithmetic is a number of the language. *)
Lemma fin_binary64 q : binary64 (fin q).
Proof.
  unfold binary64. destruct (fin q) as [| | | v] eqn:E; try exact I.
  exact (fin_double q v E).
Qed.

(** The model against the doubles of the machine: on fractions that round
    (29/100, 1/3), on the largest mantissas, on powers that overflow, on
    inverses that are subnormal or vanish, and on divisions by zero. *)
Lemma arithmetic_is_binary64 :
  forallb agree
    [(29, 100); (35, 100); (1, 10); (1, 3); (-7, 9); (50, 7);
     (9007199254740991, 3); (1, 9007199254740992);
     (4503599627370497, 4503599627370496); (123456789, -987654321);
     (4200000000, 1); (4250000001, -3); (4294967295, 7); (5000000000, 7);
     (0, 5); (5, 0); (0, 0)]%Z = true.
Proof. vm_compute. reflexivity. Qed.

End Rounding.

(** ** Strings that end in a percent sign *)

Lemma chars_app (s t : string) : chars (s ++ t) = (chars s ++ chars t)%list.
Proof.
  induction s as [| c s IH]; simpl.
  - reflexivity.
  - unfold chars in *. simpl. now rewrite IH.
Qed.

Lemma ends_with_percent_app (p : string) : ends_with_percent (p ++ "%") = true.
Proof.
  unfold ends_with_percent. rewrite chars_app. simpl chars.
  rewrite rev_unit. reflexivity.
Qed.

Lemma without_last_app (p : string) : without_last (p ++ "%") = p.
Proof.
  unfold without_last. rewrite chars_app. simpl chars.
  rewrite removelast_last. apply string_of_list_ascii_of_string.
Qed.

Lemma ends_with_percent_inv (s : string) :
  ends_with_percent s = true -> s = without_last s ++ "%".
Proof.
  unfold ends_with_percent, without_last. intros H.
  rewrite <- (string_of_list_ascii_of_string s) at 1.
  unfold chars in *.
  destruct (rev (list_ascii_of_string s)) as [| c r] eqn:E; [discriminate |].
  apply (f_equal (@rev ascii)) in E. rewrite rev_involutive in E. simpl in E.
  rewrite E, removelast_last.
  unfold is_char in H. apply Ascii.eqb_eq in H. subst c.
  clear E. induction (rev r) as [| a l IH]; simpl.
  - reflexivity.
  - now rewrite IH.
Qed.

(** ** Rounding and the clamp *)

Lemma Math_round_integral (a : num) :
  isNaN_num a = false -> a <> PInf -> a <> NInf ->
  exists z, Math_round a = of_Z z.
Proof.
  destruct a; simpl; intros; try congruence. eauto.
Qed.

Lemma Math_min_clamps (a : num) :
  leb (of_Z 100) a = true ->
  div (Math_min a (of_Z 100)) (of_Z 100) = of_Z 1.
Proof.
  unfold Math_min, leb, div, of_Z.
  destruct a as [| | | q]; try discriminate; intros H.
  - vm_compute. reflexivity.
  - destruct (Qle_bool q (inject_Z 100)) eqn:E.
    + apply Qle_bool_iff in H, E.
      assert (Hq : (q == inject_Z 100)%Q) by now apply Qle_antisym.
      change (Qeq_bool (inject_Z 100) 0) with false. cbv iota.
      rewrite (fin_comp (q / inject_Z 100) 1).
      * exact fin_one.
      * rewrite Hq. reflexivity.
    + vm_compute. reflexivity.
Qed.

(** ** [measure] and [size] *)

Lemma measure_percent (p : string) (m1 : value) :
  measure (VStr (p ++ "%")) m1
  = Math_round (mul (Number m1)
                    (div (Math_min (StringToNumber p) (of_Z 100)) (of_Z 100))).
Proof.
  unfold measure. now rewrite ends_with_percent_app, without_last_app.
Qed.

Lemma measure_other (m0 m1 : value) :
  (forall p, m0 <> VStr (p ++ "%")) -> measure m0 m1 = Number m0.
Proof.
  intros H. destruct m0 as [| | b | n | s]; try reflexivity.
  unfold measure. destruct (ends_with_percent s) eqn:E; [| reflexivity].
  exfalso. apply (H (without_last s)). f_equal.
  now apply ends_with_percent_inv.
Qed.

(** C3.  [size] of the margin [{top: 10, bottom: 10, left: '10%', right:
    '10%'}] with a width and a height of 500 is [{width: 400, height: 480,
    left: 50, top: 10, right: 50, bottom: 10}].  For every margin, the left
    and right sides are measured against the width, the top and bottom
    sides against the height, and the width and height of the result are
    the dimensions given less the two measured sides of their axis. *)
Theorem size_of_documented_margin :
  size (mkMargin (vnum 10) (vnum 10) (VStr "10%") (VStr "10%"))
       (vnum 500) (vnum 500)
  = mkSize (of_Z 400) (of_Z 480) (of_Z 10) (of_Z 50) (of_Z 10) (of_Z 50)
  /\ (forall margin width height,
        let s := size margin width height in
        size_left s = measure (margin_left margin) width
        /\ size_right s = measure (margin_right margin) width
        /\ size_top s = measure (margin_top margin) height
        /\ size_bottom s = measure (margin_bottom margin) height
        /\ size_width s = sub (sub (Number width) (size_left s)) (size_right s)
        /\ size_height s
           = sub (sub (Number height) (size_top s)) (size_bottom s))
  /\ size (mkMargin (VStr "10%") (VStr "10%") (VStr "10%") (VStr "10%"))
          (vnum 500) (vnum 200)
     = mkSize (of_Z 400) (of_Z 160) (of_Z 20) (of_Z 50) (of_Z 20) (of_Z 50).
Proof.
  split; [vm_compute; reflexivity |].
  split; [| vm_compute; reflexivity].
  intros margin width height s. subst s. simpl. repeat split.
Qed.



(** ** Properties of an object *)

Lemma get_set_same k v ps : get k (set k v ps) = v.
Proof.
  induction ps as [| [k1 v1] r IH]; simpl.
  - now rewrite String.eqb_refl.
  - destruct (String.eqb k k1) eqn:E; simpl; rewrite E; auto.
Qed.

Lemma get_set_other k k1 v ps : k <> k1 -> get k (set k1 v ps) = get k ps.
Proof.
  intros Hne. apply String.eqb_neq in Hne.
  induction ps as [| [k2 v2] r IH]; simpl.
  - now rewrite Hne.
  - destruct (String.eqb k1 k2) eqn:E; simpl.
    + apply String.eqb_eq in E. subst k2. now rewrite Hne.
    + now rewrite IH.
Qed.

Lemma agg_key_inj p q : agg_key p = agg_key q -> p = q.
Proof. unfold agg_key. simpl. intros H. now inversion H. Qed.

Lemma agg_key_not_childProp p q : agg_key p <> childProp_key q.
Proof. unfold agg_key, childProp_key. simpl. intros H. inversion H. Qed.

#[local] Hint Resolve agg_key_not_childProp : core.

(** ** [setSourceFields] leaves the aggregates alone *)

Lemma setSourceField_agg p cp cs :
  get (agg_key p) (fst (setSourceField cp cs)) = get (agg_key p) (fst cs)
  /\ get (agg_key p) (snd (setSourceField cp cs)) = get (agg_key p) (snd cs).
Proof.
  destruct cs as [child parent]. unfold setSourceField. simpl. split.
  - destruct (not_undefined (get cp child)); [| reflexivity].
    now apply get_set_other.
  - now apply get_set_other.
Qed.

Lemma setSourceField_fold_agg p cps cs :
  let r := fold_left (fun cs cp => setSourceField cp cs) cps cs in
  get (agg_key p) (fst r) = get (agg_key p) (fst cs)
  /\ get (agg_key p) (snd r) = get (agg_key p) (snd cs).
Proof.
  revert cs. induction cps as [| cp cps IH]; intros cs; simpl.
  - split; reflexivity.
  - destruct (IH (setSourceField cp cs)) as [H1 H2].
    destruct (setSourceField_agg p cp cs) as [H3 H4].
    split; congruence.
Qed.

Lemma setSourceFields_agg p cps child parent :
  get (agg_key p) (fst (setSourceFields cps child parent))
  = get (agg_key p) child
  /\ option_map (get (agg_key p)) (snd (setSourceFields cps child parent))
     = option_map (get (agg_key p)) parent.
Proof.
  unfold setSourceFields. destruct parent as [pps |]; [| split; reflexivity].
  pose proof (setSourceField_fold_agg p cps (child, pps)) as H. simpl in H.
  destruct (fold_left _ cps (child, pps)) as [c q]. simpl in *.
  destruct H as [H1 H2]. split; congruence.
Qed.

Lemma setSourceFields_parent cps child pps :
  exists q, snd (setSourceFields cps child (Some pps)) = Some q.
Proof.
  unfold setSourceFields.
  destruct (fold_left _ cps (child, pps)) as [c q]. simpl. eauto.
Qed.

(** ** The loop over the nodes of one level *)

Lemma aggregateLoop_cons cps each node rest parent :
  aggregateLoop cps each (node :: rest) parent
  = (Obj (fst (setSourceFields cps (properties_of (each node)) parent))
         (values_of (each node))
       :: fst (aggregateLoop cps each rest
                 (snd (setSourceFields cps (properties_of (each node)) parent))),
     snd (aggregateLoop cps each rest
            (snd (setSourceFields cps (properties_of (each node)) parent)))).
Proof.
  simpl.
  destruct (setSourceFields cps (properties_of (each node)) parent) as [ps q].
  simpl. now destruct (aggregateLoop cps each rest q).
Qed.

Lemma aggregateLoop_agg p cps each vs parent :
  map (agg_of p) (fst (aggregateLoop cps each vs parent))
  = map (fun c => agg_of p (each c)) vs
  /\ option_map (get (agg_key p)) (snd (aggregateLoop cps each vs parent))
     = option_map (get (agg_key p)) parent.
Proof.
  revert parent. induction vs as [| c vs IH]; intros parent.
  - split; reflexivity.
  - rewrite aggregateLoop_cons. cbn [fst snd map].
    destruct (setSourceFields_agg p cps (properties_of (each c)) parent)
      as [H1 H2].
    destruct (IH (snd (setSourceFields cps (properties_of (each c)) parent)))
      as [H3 H4].
    split.
    + f_equal; [| exact H3]. unfold agg_of at 1. simpl. exact H1.
    + congruence.
Qed.

Lemma aggregateLoop_parent cps each vs pps :
  exists q, snd (aggregateLoop cps each vs (Some pps)) = Some q.
Proof.
  revert pps. induction vs as [| c vs IH]; intros pps.
  - simpl. eauto.
  - rewrite aggregateLoop_cons. cbn [snd].
    destruct (setSourceFields_parent cps (properties_of (each c)) pps)
      as [q ->].
    apply IH.
Qed.

Lemma aggregateLoop_top cps each vs :
  fst (aggregateLoop cps each vs None) = map each vs.
Proof.
  induction vs as [| c vs IH].
  - reflexivity.
  - rewrite aggregateLoop_cons. cbn [fst snd map setSourceFields].
    rewrite IH. now destruct (each c).
Qed.

(** ** The aggregate of a record and of a group *)

Lemma aggregateLeaf_fold p l ps :
  NoDup l -> In p l -> (forall q, In q l -> p <> agg_key q) ->
  get (agg_key p) (aggregateLeaf l ps)
  = VNum (let n := Number (get p ps) in if isNaN_num n then of_Z 0 else n).
Proof.
  unfold aggregateLeaf.
  set (f := fun node q =>
              let n := Number (get q node) in
              set (agg_key q) (VNum (if isNaN_num n then of_Z 0 else n)) node).
  assert (Hout : forall l node,
            ~ In p l -> get (agg_key p) (fold_left f l node)
                        = get (agg_key p) node).
  { clear l. induction l as [| q l IH]; intros node Hn; simpl; [reflexivity |].
    rewrite IH by (intros H; apply Hn; now right).
    unfold f. apply get_set_other. intros H. apply agg_key_inj in H.
    apply Hn. now left. }
  revert ps. induction l as [| q l IH]; intros ps Hnd Hin Hplain;
    [destruct Hin |].
  simpl. inversion Hnd as [| ? ? Hq Hl]; subst.
  destruct (string_dec q p) as [-> | Hne].
  - rewrite Hout by assumption. unfold f. apply get_set_same.
  - destruct Hin as [-> | Hin]; [congruence |].
    rewrite IH; auto.
    + unfold f. rewrite get_set_other; [reflexivity |].
      apply Hplain. now left.
    + intros r Hr. apply Hplain. now right.
Qed.

Lemma aggregateStep_same calculation child node p :
  get (agg_key p) (aggregateStep calculation child node p)
  = combine calculation (get (agg_key p) node) (agg_of p child).
Proof.
  unfold aggregateStep, combine, agg_of. rewrite get_set_same.
  destruct (isNaN (get (agg_key p) node)); [| reflexivity].
  now rewrite get_set_same.
Qed.

Lemma aggregateStep_other calculation child node p q :
  p <> q ->
  get (agg_key p) (aggregateStep calculation child node q)
  = get (agg_key p) node.
Proof.
  intros Hne. unfold aggregateStep.
  assert (H : agg_key p <> agg_key q)
    by (intros H; now apply agg_key_inj in H).
  rewrite get_set_other by assumption.
  destruct (isNaN (get (agg_key q) node)); [| reflexivity].
  now apply get_set_other.
Qed.

Lemma aggregateStep_fold calculation child p l node :
  NoDup l -> In p l ->
  get (agg_key p) (fold_left (aggregateStep calculation child) l node)
  = combine calculation (get (agg_key p) node) (agg_of p child).
Proof.
  assert (Hout : forall l node,
            ~ In p l ->
            get (agg_key p) (fold_left (aggregateStep calculation child) l node)
            = get (agg_key p) node).
  { clear l node. induction l as [| q l IH]; intros node Hn; simpl;
      [reflexivity |].
    rewrite IH by (intros H; apply Hn; now right).
    apply aggregateStep_other. intros ->. apply Hn. now left. }
  revert node. induction l as [| q l IH]; intros node Hnd Hin;
    [destruct Hin |].
  simpl. inversion Hnd as [| ? ? Hq Hl]; subst.
  destruct (string_dec q p) as [-> | Hne].
  - rewrite Hout by assumption. apply aggregateStep_same.
  - destruct Hin as [-> | Hin]; [congruence |].
    rewrite IH by assumption.
    rewrite aggregateStep_other by congruence. reflexivity.
Qed.

Lemma aggregateChildren_agg properties calculation p vs node :
  NoDup properties -> In p properties ->
  get (agg_key p) (aggregateChildren properties calculation vs node)
  = fold_left (combine calculation) (map (agg_of p) vs)
              (get (agg_key p) node).
Proof.
  intros Hnd Hin. unfold aggregateChildren. revert node.
  induction vs as [| c vs IH]; intros node; simpl; [reflexivity |].
  rewrite IH. now rewrite aggregateStep_fold.
Qed.

(** As long as no value the fold goes through is NaN, [combine] is
    [calculation] itself. *)
Lemma combine_fold_numbers calculation l acc :
  isNaN acc = false ->
  Forall (fun v => isNaN v = false) (running calculation l acc) ->
  fold_left (combine calculation) l acc = fold_left calculation l acc.
Proof.
  revert acc. induction l as [| c l IH]; intros acc Hacc Hrun; simpl;
    [reflexivity |].
  simpl in Hrun. inversion Hrun as [| ? ? H1 H2]; subst.
  unfold combine at 2. rewrite Hacc. now apply IH.
Qed.

Lemma combine_fold_fresh calculation l acc :
  isNaN acc = true -> l <> [] ->
  Forall (fun v => isNaN v = false) (running calculation l (vnum 0)) ->
  fold_left (combine calculation) l acc = fold_left calculation l (vnum 0).
Proof.
  intros Hacc Hl Hrun. destruct l as [| c l]; [congruence |]. simpl.
  simpl in Hrun. inversion Hrun as [| ? ? H1 H2]; subst.
  unfold combine at 2. rewrite Hacc. now apply combine_fold_numbers.
Qed.

Lemma aggregateNode_group properties calculation cps ps vs :
  aggregateNode properties calculation cps (Obj ps (Some vs))
  = let r := aggregateLoop cps (aggregateNode properties calculation cps)
                           vs (Some ps) in
    Obj (aggregateChildren properties calculation (fst r)
           match snd r with Some q => q | None => ps end)
        (Some (fst r)).
Proof.
  simpl.
  now destruct (aggregateLoop cps (aggregateNode properties calculation cps)
                              vs (Some ps)).
Qed.

Lemma aggregateNest_result nest properties calculation :
  aggregateNest_result_holds nest properties calculation.
Proof.
  unfold aggregateNest_result_holds.
  destruct nest as [| first rest]; [reflexivity |].
  unfold aggregateNest. destruct (deepest first) as [d |]; [| reflexivity].
  unfold aggregateNodes. now rewrite aggregateLoop_top.
Qed.

(** C4, amended.  Let the property list have no duplicates and hold no name
    of the form [agg_<prop>] for a [<prop>] of its own.  Then [aggregateNest]
    runs [aggregateNode] on every node of the nest (and throws only when the
    nest is empty or has an empty [values] on the way to its innermost first
    record), and for every node and listed property:
    - a record of the innermost level gets [agg_<prop> = Number(record[prop])],
      0 when that is NaN;
    - a group gets in [agg_<prop>] the left fold over the [agg_<prop>] of its
      children of [acc, child => calculation(isNaN(acc) ? 0 : acc, child)],
      started from the [agg_<prop>] the group had before the call;
    - so a group with children and no [agg_<prop>] yet gets the left fold of
      [calculation] seeded at 0, as long as no value that fold goes through
      is NaN.
    With the sum over records 1, 2, 3 and 4, 5 in two groups under one, the
    aggregates are 6 and 9 and, for the whole, 15. *)
Theorem aggregateNest_spec properties calculation :
  NoDup properties ->
  (forall q, In q properties -> ~ In (agg_key q) properties) ->
  (forall nest, aggregateNest_result_holds nest properties calculation)
  /\ (forall cps node p,
        In p properties ->
        let done := aggregateNode properties calculation cps in
        match node with
        | Obj ps None =>
            agg_of p (done node)
            = VNum (let n := Number (get p ps) in
                    if isNaN_num n then of_Z 0 else n)
        | Obj ps (Some vs) =>
            exists vs1,
              values_of (done node) = Some vs1
              /\ map (agg_of p) vs1 = map (fun c => agg_of p (done c)) vs
              /\ agg_of p (done node)
                 = fold_left (combine calculation) (map (agg_of p) vs1)
                             (get (agg_key p) ps)
              /\ (isNaN (get (agg_key p) ps) = true -> vs <> [] ->
                  Forall (fun v => isNaN v = false)
                         (running calculation (map (agg_of p) vs1) (vnum 0)) ->
                  agg_of p (done node)
                  = fold_left calculation (map (agg_of p) vs1) (vnum 0))
        end)
  /\ option_map (flat_map (group_aggregates "v"))
                (aggregateNest sample_nest ["v"] sum)
     = Some [vnum 15; vnum 6; vnum 9]
  /\ option_map (flat_map (record_aggregates "v"))
                (aggregateNest sample_nest ["v"] sum)
     = Some [vnum 1; vnum 2; vnum 3; vnum 4; vnum 5].
Proof.
  intros Hnd Hplain. split; [| split; [| split; vm_compute; reflexivity]].
  - intros nest. apply aggregateNest_result.
  - intros cps node p Hin done. destruct node as [ps [vs |]].
    + subst done. rewrite aggregateNode_group. cbv zeta.
      set (r := aggregateLoop cps (aggregateNode properties calculation cps)
                              vs (Some ps)).
      destruct (aggregateLoop_agg p cps
                  (aggregateNode properties calculation cps) vs (Some ps))
        as [Hkids Hpar].
      fold r in Hkids, Hpar.
      destruct (aggregateLoop_parent cps
                  (aggregateNode properties calculation cps) vs ps) as [q Hq].
      fold r in Hq. rewrite Hq in *. simpl in Hpar.
      assert (Hagg : agg_of p (Obj (aggregateChildren properties calculation
                                      (fst r) q) (Some (fst r)))
                     = fold_left (combine calculation) (map (agg_of p) (fst r))
                                 (get (agg_key p) ps)).
      { unfold agg_of at 1. simpl.
        rewrite aggregateChildren_agg by assumption. congruence. }
      exists (fst r). repeat split; try assumption.
      intros Hfresh Hvs Hrun. rewrite Hagg.
      apply combine_fold_fresh; try assumption.
      intros E. apply (f_equal (@List.length value)) in E.
      rewrite Hkids in E. rewrite length_map in E.
      destruct vs; [congruence | discriminate].
    + subst done. unfold agg_of. simpl.
      apply aggregateLeaf_fold; try assumption.
      intros q Hq E. apply (Hplain q Hq). now rewrite <- E.
Qed.

(** The group of the records 1, 2 and 3, aggregated with the sum. *)
Lemma aggregateNest_spec_witness :
  NoDup ["v"]
  /\ (forall q, In q ["v"] -> ~ In (agg_key q) ["v"])
  /\ agg_of "v"
       (aggregateNode ["v"] sum ["v"; "name"]
          (Obj [("key", VStr "a")]
               (Some [sample_record 1; sample_record 2; sample_record 3])))
     = vnum 6.
Proof.
  assert (Hnd : NoDup ["v"]) by (constructor; [simpl; tauto | constructor]).
  assert (Hplain : forall q, In q ["v"] -> ~ In (agg_key q) ["v"]).
  { intros q [<- | []] [H | []]. discriminate H. }
  split; [exact Hnd | split; [exact Hplain |]].
  destruct (proj1 (proj2 (aggregateNest_spec ["v"] sum Hnd Hplain))
              ["v"; "name"]
              (Obj [("key", VStr "a")]
                   (Some [sample_record 1; sample_record 2; sample_record 3]))
              "v" (or_introl eq_refl))
    as (vs1 & _ & Hkids & _ & Hfresh).
  assert (Haggs : map (agg_of "v") vs1 = [vnum 1; vnum 2; vnum 3])
    by (rewrite Hkids; vm_compute; reflexivity).
  rewrite Hfresh; rewrite ?Haggs.
  - reflexivity.
  - reflexivity.
  - discriminate.
  - change (running sum [vnum 1; vnum 2; vnum 3] (vnum 0))
      with [sum (vnum 0) (vnum 1);
            sum (sum (vnum 0) (vnum 1)) (vnum 2);
            sum (sum (sum (vnum 0) (vnum 1)) (vnum 2)) (vnum 3)].
    repeat constructor.
Defined.

(** C4, as stated, fails.  On a nest that has been aggregated before, a
    group starts from the aggregate it already has: the group of the
    records 1, 2 and 3 ends with 12, and the fold of the sum over 1, 2 and
    3 seeded at 0 is 6.  A property listed twice is folded twice, with the
    same result. *)
Lemma aggregateNest_not_always_seeded_at_zero :
  option_map (flat_map (group_aggregates "v"))
             match aggregateNest sample_nest ["v"] sum with
             | Some nest => aggregateNest nest ["v"] sum
             | None => None
             end
  = Some [vnum 45; vnum 12; vnum 18]
  /\ option_map (flat_map (record_aggregates "v"))
                match aggregateNest sample_nest ["v"] sum with
                | Some nest => aggregateNest nest ["v"] sum
                | None => None
                end
     = Some [vnum 1; vnum 2; vnum 3; vnum 4; vnum 5]
  /\ fold_left sum [vnum 1; vnum 2; vnum 3] (vnum 0) = vnum 6
  /\ option_map (flat_map (group_aggregates "v"))
                (aggregateNest sample_nest ["v"; "v"] sum)
     = Some [vnum 60; vnum 12; vnum 18].
Proof. repeat split; vm_compute; reflexivity. Qed.

End UtilFacts.

(* ================================================================== *)
(** * Properties of the weighted tree *)
(* ================================================================== *)

Module TreeFacts.

Import WeightedTree.

(** The call on the sample is evaluated, its real numbers left as they
    are written. *)
Tactic Notation "evaluate" :=
  lazy -[Q2R INR IZR Rplus Rminus Rmult Rdiv Ropp Rinv Rmax Rmin sqrt
         Rlt_dec Req_dec_T].

Tactic Notation "evaluate" "in" hyp(H) :=
  lazy -[Q2R INR IZR Rplus Rminus Rmult Rdiv Ropp Rinv Rmax Rmin sqrt
         Rlt_dec Req_dec_T] in H.

(** ** Induction over the data and over the hierarchy *)

Section Induction.

Context {A : Type}.

Definition option_list {T} (o : option (list T)) : list T :=
  match o with Some l => l | None => [] end.

Variable P : inode A -> Prop.
Hypothesis P_step :
  forall a ks, Forall P (option_list ks) -> P (INode a ks).

Fixpoint inode_induction (d : inode A) : P d :=
  match d with
  | INode a ks =>
      P_step a ks
        match ks as o return Forall P (option_list o) with
        | Some l =>
            (fix all (l : list (inode A)) : Forall P l :=
               match l with
               | [] => Forall_nil P
               | x :: r => Forall_cons x (inode_induction x) (all r)
               end) l
        | None => Forall_nil P
        end
  end.

Variable Q : hnode A -> Prop.
Hypothesis Q_step :
  forall d k c c1,
    Forall Q (option_list c) -> Forall Q (option_list c1) ->
    Q (HNode d k c c1).

Fixpoint hnode_induction (n : hnode A) : Q n :=
  match n with
  | HNode d k c c1 =>
      let all :=
        fix all (l : list (hnode A)) : Forall Q l :=
          match l with
          | [] => Forall_nil Q
          | x :: r => Forall_cons x (hnode_induction x) (all r)
          end in
      Q_step d k c c1
        match c as o return Forall Q (option_list o) with
        | Some l => all l
        | None => Forall_nil Q
        end
        match c1 as o return Forall Q (option_list o) with
        | Some l => all l
        | None => Forall_nil Q
        end
  end.

End Induction.

(** ** The two child fields *)

Section Exclusive.

Context {A : Type}.

Lemma exclusive_hierarchy_at (d : inode A) : forall k, exclusive (hierarchy_at k d).
Proof.
  induction d as [a ks IH] using inode_induction. intros k.
  destruct ks as [[| x l] |]; simpl.
  - now apply exclusive_leaf.
  - apply exclusive_expanded; try reflexivity; try discriminate.
    simpl in IH. change (Forall exclusive (map (hierarchy_at (S k)) (x :: l))).
    apply Forall_map. revert IH. apply Forall_impl. auto.
  - now apply exclusive_leaf.
Qed.

Lemma exclusive_collapse (n : hnode A) : exclusive n -> exclusive (collapse n).
Proof.
  induction n as [d k c c1 IH IH1] using hnode_induction. intros H.
  inversion H as [? ? l Hl Hk Hall | ? ? l Hl Hk Hall | ? ? Hk]; subst; simpl.
  - apply exclusive_collapsed; auto.
    + destruct l; [congruence | discriminate].
    + apply Forall_map. simpl in IH. rewrite Forall_forall in *. auto.
  - assumption.
  - assumption.
Qed.

Lemma exclusive_collapse_below_root (h h1 : hnode A) :
  exclusive h -> collapse_below_root h = Some h1 -> exclusive h1.
Proof.
  intros H E. destruct h as [d k [l |] c]; [| discriminate].
  injection E as <-.
  inversion H as [? ? ? Hl Hk Hall | |]; subst.
  apply exclusive_expanded; auto.
  - destruct l; [congruence | discriminate].
  - apply Forall_map. rewrite Forall_forall in *.
    intros x Hx. apply exclusive_collapse. auto.
Qed.

Lemma exclusive_toggle (n : hnode A) : exclusive n -> exclusive (toggle n).
Proof.
  intros H. inversion H; subst; simpl; now constructor.
Qed.

Lemma replace_nth_length {T} (i : nat) (x : T) (l : list T) :
  List.length (replace_nth i x l) = List.length l.
Proof.
  revert i. induction l as [| y l IH]; intros [| i]; simpl; auto.
Qed.

Lemma replace_nth_Forall {T} (R : T -> Prop) (i : nat) (x : T) (l : list T) :
  Forall R l -> R x -> Forall R (replace_nth i x l).
Proof.
  intros Hl Hx. revert i.
  induction Hl as [| y l Hy Hl IH]; intros [| i]; simpl; auto.
Qed.

Lemma replace_nth_not_nil {T} (i : nat) (x : T) (l : list T) :
  l <> [] -> replace_nth i x l <> [].
Proof.
  intros Hl E. apply (f_equal (@List.length T)) in E.
  rewrite replace_nth_length in E. destruct l; [congruence | discriminate].
Qed.

Lemma exclusive_held (n c : hnode A) (i : nat) :
  exclusive n -> nth_error (held_children n) i = Some c -> exclusive c.
Proof.
  intros H E. apply nth_error_In in E.
  inversion H as [? ? l Hl Hk Hall | ? ? l Hl Hk Hall | ? ? Hk]; subst;
    simpl in E; try contradiction;
    rewrite Forall_forall in Hall; auto.
Qed.

Lemma exclusive_update_at (f : hnode A -> hnode A) :
  (forall n, exclusive n -> exclusive (f n)) ->
  forall p n, exclusive n -> exclusive (update_at p f n).
Proof.
  intros Hf. induction p as [| i p IH]; intros n H; simpl; [auto |].
  destruct (nth_error (held_children n) i) as [c |] eqn:E; [| assumption].
  pose proof (IH c (exclusive_held n c i H E)) as Hc.
  inversion H as [? ? l Hl Hk Hall | ? ? l Hl Hk Hall | ? ? Hk]; subst;
    simpl in *.
  - apply exclusive_expanded; auto using replace_nth_not_nil, replace_nth_Forall.
  - apply exclusive_collapsed; auto using replace_nth_not_nil, replace_nth_Forall.
  - assumption.
Qed.

Lemma exclusive_node_at (p : path) :
  forall n m : hnode A, exclusive n -> node_at p n = Some m -> exclusive m.
Proof.
  induction p as [| i p IH]; intros n m H E; simpl in E.
  - injection E as E. now subst m.
  - destruct (nth_error (held_children n) i) as [c |] eqn:Ec; [| discriminate].
    apply (IH c m); [| exact E]. exact (exclusive_held n c i H Ec).
Qed.

(** An exclusive node seen from outside. *)
Lemma exclusive_fields (n : hnode A) :
  exclusive n ->
  nonempty (children n) && nonempty (_children n) = false
  /\ (exactly_one n <-> has_kids (data n) = true)
  /\ (has_kids (data n) = false -> children n = None /\ _children n = None)
  /\ toggle (toggle n) = n.
Proof.
  intros H. unfold exactly_one.
  inversion H as [? ? l Hl Hk Hall | ? ? l Hl Hk Hall | ? ? Hk]; subst;
    simpl; try (destruct l; [congruence |]); simpl;
    repeat split; auto; try congruence; try discriminate.
Qed.

End Exclusive.

(** ** What [measure], [update] and [toggleNode] do to the state *)

Section Steps.

Context {A : Type}.
Variable degenerate : R.
Variable scope : @Scope A.

Lemma prepare_cases st st1 :
  prepare scope st = Some st1 ->
  (dataIsDirty st = false /\ refreshNeeded st = false /\ st1 = st)
  \/ (dataIsDirty st1 = false /\ refreshNeeded st1 = false
      /\ nodes st1 = all_nodes scope /\ maxDepth st1 = deepest_level scope
      /\ ((dataIsDirty st = true
           /\ exists h, collapse_below_root (hierarchy (scope_data scope))
                        = Some h
                        /\ hieararchy st1 = Some h)
          \/ (dataIsDirty st = false /\ refreshNeeded st = true
              /\ hieararchy st1 = Some (hierarchy (scope_data scope))))).
Proof.
  unfold prepare. destruct (dataIsDirty st) eqn:Ed; simpl.
  - destruct (collapse_below_root (hierarchy (scope_data scope))) as [h |] eqn:E;
      [| discriminate].
    intros [= <-]. right. simpl. repeat split. left. split; eauto.
  - destruct (refreshNeeded st) eqn:Er; simpl.
    + intros [= <-]. right. simpl. repeat split. right. auto.
    + intros [= <-]. left. auto.
Qed.

Lemma measure_inv st st2 :
  measure scope st = Some st2 ->
  exists sz st1 scale,
    real_size (Util.size (scope_margin scope)
                 (JS.VNum (JS.Fin (scope_width scope)))
                 (JS.VNum (JS.Fin (scope_height scope)))) = Some sz
    /\ prepare scope st = Some st1
    /\ node_room scope sz = Some scale
    /\ hieararchy st2 = hieararchy st1
    /\ nodes st2 = nodes st1
    /\ maxDepth st2 = maxDepth st1
    /\ dataIsDirty st2 = dataIsDirty st1
    /\ refreshNeeded st2 = refreshNeeded st1
    /\ size st2 = sz
    /\ depthSpan st2
       = (if Qlt_le_dec 0 (scope_horizontalPadding scope)
          then Q2R (scope_horizontalPadding scope)
          else width sz / (INR (maxDepth st1) + 1))%R
    /\ cx st2 = left sz
    /\ nodeScale_range st2 = (1.5, scale / 2)%R
    /\ maxValues st2
       = extremes scope d3_max (nodes st1) (maxDepth st1) (maxValues st1)
    /\ minValues st2
       = extremes scope d3_min (nodes st1) (maxDepth st1) (minValues st1).
Proof.
  unfold measure.
  destruct (real_size _) as [sz |] eqn:Es; [| discriminate].
  destruct (prepare scope st) as [st1 |] eqn:Ep; [| discriminate].
  destruct (node_room scope sz) as [scale |] eqn:En; [| discriminate].
  intros [= <-]. exists sz, st1, scale. simpl. repeat split; assumption.
Qed.

Lemma update_inv st refresh st1 done :
  update degenerate scope st refresh = Some (st1, done) ->
  measure scope (request_refresh st refresh) = Some st1
  /\ updateNode degenerate scope st1 None JS.VUndefined = Some done.
Proof.
  unfold update.
  destruct (measure scope (request_refresh st refresh)) as [st2 |] eqn:Em;
    [| discriminate].
  destruct (updateNode degenerate scope st2 None JS.VUndefined) as [r |] eqn:Eu;
    [| discriminate].
  intros [= <- <-]. split; [reflexivity | assumption].
Qed.

Lemma toggleNode_inv st d st1 calls :
  toggleNode degenerate scope st d = Some (st1, calls) ->
  exists h n done,
    hieararchy st = Some h
    /\ node_at d h = Some n
    /\ st1 = set_hieararchy st (update_at d toggle h)
    /\ updateNode degenerate scope st1 (Some d) (JS.vnum 0) = Some done
    /\ calls
       = Call_updateNode d (JS.vnum 0) done
         :: match children n with
            | Some _ =>
                match parent d with
                | Some q => [Call_zoomToNode q]
                | None => []
                end
            | None =>
                match children (toggle n) with
                | Some _ => [Call_zoomToNode d]
                | None => []
                end
            end.
Proof.
  unfold toggleNode.
  destruct (hieararchy st) as [h |] eqn:Eh; [| discriminate].
  destruct (node_at d h) as [n |] eqn:En; [| discriminate].
  destruct (updateNode _ _ _ _ _) as [r |] eqn:Eu; [| discriminate].
  intros [= <- <-]. exists h, n, r. repeat split; assumption.
Qed.

(** The hierarchy of a component is exclusive all along. *)
Lemma reachable_exclusive st :
  reachable degenerate scope st ->
  forall h, hieararchy st = Some h -> exclusive h.
Proof.
  induction 1 as [| st Hr IH | st k Hr IH | st refresh st1 done Hr IH Hu
                  | st d st1 calls Hr IH Ht]; intros h Hh.
  - discriminate.
  - apply IH. exact Hh.
  - apply IH. exact Hh.
  - apply update_inv in Hu. destruct Hu as (Hm & _).
    apply measure_inv in Hm.
    destruct Hm as (sz & st2 & scale & _ & Hp & _ & Hh2 & _).
    rewrite Hh2 in Hh.
    apply prepare_cases in Hp.
    destruct Hp as [(_ & _ & ->) | (_ & _ & _ & _ & Hcase)].
    + apply IH. exact Hh.
    + destruct Hcase as [(_ & h1 & Hc & Hh1) | (_ & _ & Hh1)].
      * assert (h = h1) by congruence. subst h1.
        eapply exclusive_collapse_below_root; [| exact Hc].
        apply exclusive_hierarchy_at.
      * assert (h = hierarchy (scope_data scope)) by congruence. subst h.
        apply exclusive_hierarchy_at.
  - apply toggleNode_inv in Ht.
    destruct Ht as (h0 & n & r & Hh0 & _ & -> & _).
    simpl in Hh. injection Hh as <-.
    apply exclusive_update_at; [apply exclusive_toggle | auto].
Qed.

End Steps.

(** ** C2: the two child fields *)

(** C2, amended.  At every point of the life of the component and for every
    node of its hierarchy, shown or collapsed: [children] and [_children]
    are never both non-empty; exactly one of them is non-empty when the
    record of the node has children, and both are empty when it has none.
    Collapsing moves the array of [children] to [_children] and leaves
    [children] empty, expanding moves it back, and two toggles in a row give
    the node back. *)
Theorem child_fields_exclusive {A} degenerate (scope : @Scope A) st :
  reachable degenerate scope st ->
  forall h p n,
    hieararchy st = Some h -> node_at p h = Some n ->
    nonempty (children n) && nonempty (_children n) = false
    /\ (exactly_one n <-> has_kids (data n) = true)
    /\ (has_kids (data n) = false -> children n = None /\ _children n = None)
    /\ (forall l, children n = Some l ->
         children (toggle n) = None /\ _children (toggle n) = Some l)
    /\ (children n = None ->
        children (toggle n) = _children n /\ _children (toggle n) = None)
    /\ toggle (toggle n) = n.
Proof.
  intros Hr h p n Hh Hn.
  assert (He : exclusive n).
  { eapply exclusive_node_at; [| exact Hn].
    eapply reachable_exclusive; eauto. }
  destruct (exclusive_fields n He) as (H1 & H2 & H3 & H4).
  repeat split; try assumption; try apply H2; try apply H3; auto.
  - destruct n as [d k [l0 |] c]; simpl in *; congruence.
  - destruct n as [d k [l0 |] c]; simpl in *; congruence.
  - destruct n as [d k [l0 |] c]; simpl in *; congruence.
  - destruct n as [d k [l0 |] c]; simpl in *; congruence.
Qed.

(** The group of the sample after the first update: exactly one field, the
    collapsed one, holds its two records. *)
Lemma sample_state_reachable : reachable (1 / 2) sample_scope sample_state.
Proof.
  unfold sample_state, sample_first.
  destruct (update (1 / 2) sample_scope initial false) as [[st1 done] |] eqn:E;
    cbn [fst].
  - exact (reach_update (1 / 2) sample_scope initial false st1 done
             (reach_initial _ _) E).
  - apply reach_initial.
Qed.

Lemma sample_hieararchy : hieararchy sample_state = Some sample_collapsed.
Proof. reflexivity. Qed.

Lemma child_fields_exclusive_witness :
  reachable (1 / 2) sample_scope sample_state
  /\ hieararchy sample_state = Some sample_collapsed
  /\ node_at [0%nat] sample_collapsed = Some sample_group
  /\ exactly_one sample_group
  /\ toggle (toggle sample_group) = sample_group.
Proof.
  split; [exact sample_state_reachable |].
  split; [reflexivity |]. split; [reflexivity |].
  pose proof (child_fields_exclusive (1 / 2) sample_scope sample_state
                sample_state_reachable sample_collapsed [0%nat] sample_group
                eq_refl eq_refl) as H.
  split; [apply (proj1 (proj2 H)); reflexivity | apply H].
Defined.

(** C2, as stated, fails: a node whose record has no children has both
    fields empty.  After the first update of the sample, the single record
    under the root is such a node. *)
Lemma leaf_has_neither_field :
  option_map (fun sr => hieararchy (fst sr)) sample_first
  = Some (Some sample_collapsed)
  /\ node_at [1%nat] sample_collapsed = Some (HNode (INode 9%nat None) 1 None None)
  /\ ~ exactly_one (HNode (INode 9%nat None) 1 None None).
Proof.
  split; [reflexivity |]. split; [reflexivity |].
  unfold exactly_one. simpl. discriminate.
Qed.

(** ** C6: the first build *)

Section FirstBuild.

Context {A : Type}.

Lemma collapse_children (n : hnode A) : children (collapse n) = None.
Proof. now destruct n as [d k [l |] c]. Qed.

Lemma node_at_collapsed (p : path) :
  forall (d : inode A) k n,
    node_at p (collapse (hierarchy_at k d)) = Some n -> children n = None.
Proof.
  induction p as [| i p IH]; intros d k n E; simpl in E.
  - injection E as <-. apply collapse_children.
  - destruct d as [a [[| x l] |]]; simpl in E;
      try (destruct i; discriminate).
    cbn [held_children children _children] in E.
    rewrite map_map in E.
    change (collapse (hierarchy_at (S k) x)
              :: map (fun y => collapse (hierarchy_at (S k) y)) l)
      with (map (fun y => collapse (hierarchy_at (S k) y)) (x :: l)) in E.
    rewrite nth_error_map in E.
    destruct (nth_error (x :: l) i) as [y |]; simpl in E; [| discriminate].
    eapply IH. exact E.
Qed.

Lemma height_shallow (d : inode A) k l c :
  Forall (fun x => children x = None) l ->
  height (HNode d k (Some l) c) = 1%nat.
Proof.
  intros H. simpl. f_equal.
  induction H as [| x l Hx Hl IH]; simpl; [reflexivity |].
  rewrite IH. destruct x as [dx kx [lx |] cx]; [discriminate | reflexivity].
Qed.

Lemma level_one_paths (l : list (hnode A)) :
  forall start,
    map snd (flat_map (fun ic : nat * hnode A =>
                         level 0 ([] ++ [fst ic]) (snd ic))
                      (combine (seq start (List.length l)) l)) = l.
Proof.
  induction l as [| x l IH]; intros start; simpl; [reflexivity |].
  f_equal. apply IH.
Qed.

Lemma descendants_shallow (d : inode A) k l c :
  Forall (fun x => children x = None) l ->
  map snd (descendants (HNode d k (Some l) c)) = HNode d k (Some l) c :: l.
Proof.
  intros H. unfold descendants. rewrite (height_shallow d k l c H).
  cbn [seq flat_map]. rewrite app_nil_r, map_app. cbn [level map snd app].
  f_equal. unfold active_children. cbn [children].
  apply level_one_paths.
Qed.

Lemma descendants_head (n : hnode A) :
  exists rest, descendants n = ([], n) :: rest.
Proof.
  unfold descendants. cbn [seq flat_map level app]. eauto.
Qed.

Lemma collapse_below_hierarchy (root : inode A) h :
  collapse_below_root (hierarchy root) = Some h ->
  exists kids,
    kids_of root = Some kids /\ kids <> []
    /\ h = HNode root 0
             (Some (map (fun d => collapse (hierarchy_at 1 d)) kids)) None.
Proof.
  destruct root as [a [[| x l] |]]; simpl; try discriminate.
  intros [= <-]. exists (x :: l). split; [reflexivity |].
  split; [discriminate |]. simpl. now rewrite map_map.
Qed.

(** C6.  Let the data be dirty when [measure] runs (as it is on the first
    build).  [measure] goes through as soon as the root has children and the
    size is a finite number; and when it has gone through, the hierarchy is
    the root with its immediate children in [children], every node below
    the root has an empty [children], its own children (when its record has
    some) sitting in [_children], so that the nodes laid out are exactly the
    root and its immediate children; the data is no longer dirty. *)
Theorem first_build_shows_two_levels (scope : @Scope A) st :
  dataIsDirty st = true ->
  (has_kids (scope_data scope) = true ->
   real_size (Util.size (scope_margin scope)
                (JS.VNum (JS.Fin (scope_width scope)))
                (JS.VNum (JS.Fin (scope_height scope)))) <> None ->
   exists st1, measure scope st = Some st1)
  /\ (forall st1,
        measure scope st = Some st1 ->
        exists kids,
          kids_of (scope_data scope) = Some kids /\ kids <> []
          /\ let shown := map (fun d => collapse (hierarchy_at 1 d)) kids in
             let h := HNode (scope_data scope) 0 (Some shown) None in
             hieararchy st1 = Some h
             /\ map snd (descendants h) = h :: shown
             /\ map data shown = kids
             /\ (forall p n,
                   p <> [] -> node_at p h = Some n ->
                   children n = None
                   /\ (has_kids (data n) = true ->
                       nonempty (_children n) = true))
             /\ dataIsDirty st1 = false).
Proof.
  intros Hd. split.
  - intros Hk Hs. unfold measure.
    destruct (real_size _) as [sz |]; [| congruence].
    unfold prepare, node_room. rewrite Hd. cbn [orb refreshData hieararchy].
    destruct (scope_data scope) as [a [[| x l] |]]; try discriminate.
    cbn [hierarchy hierarchy_at collapse_below_root kids_of].
    destruct (Qeq_bool (scope_maxNodeRadius scope) (-1)); eauto.
  - intros st1 Hm. apply measure_inv in Hm.
    destruct Hm as (sz & st0 & scale & _ & Hp & _ & Hh & _ & _ & Hdirty & _).
    apply prepare_cases in Hp.
    destruct Hp as [(Hd0 & _) | (Hd1 & _ & _ & _ & Hcase)]; [congruence |].
    destruct Hcase as [(_ & h & Hc & Hh0) | (Hd0 & _)]; [| congruence].
    destruct (collapse_below_hierarchy _ h Hc) as (kids & Hk & Hne & ->).
    exists kids. split; [exact Hk |]. split; [exact Hne |]. cbv zeta.
    set (shown := map (fun d => collapse (hierarchy_at 1 d)) kids).
    assert (Hshown : Forall (fun x => children x = None) shown).
    { apply Forall_map, Forall_forall. intros x _. apply collapse_children. }
    split; [rewrite Hh; exact Hh0 |].
    split; [now apply descendants_shallow |].
    split.
    { subst shown. rewrite map_map. rewrite <- (map_id kids) at 2.
      apply map_ext. intros d. destruct d as [a [[| x l] |]]; reflexivity. }
    split; [| congruence].
    intros p n Hp Hn.
    assert (Hex : exclusive n).
    { eapply exclusive_node_at; [| exact Hn].
      eapply exclusive_collapse_below_root; [| exact Hc].
      apply exclusive_hierarchy_at. }
    assert (Hnone : children n = None).
    { destruct p as [| i p]; [congruence |].
      cbn [node_at held_children children _children] in Hn.
      subst shown. rewrite nth_error_map in Hn.
      destruct (nth_error kids i) as [y |]; simpl in Hn; [| discriminate].
      eapply node_at_collapsed. exact Hn. }
    split; [exact Hnone |].
    intros Hkids. apply (exclusive_fields n Hex) in Hkids.
    unfold exactly_one in Hkids. rewrite Hnone in Hkids. exact Hkids.
Qed.

End FirstBuild.

(** The first build of the sample. *)
Lemma first_build_shows_two_levels_witness :
  dataIsDirty (@initial nat) = true
  /\ exists st1,
       measure sample_scope initial = Some st1
       /\ hieararchy st1 = Some sample_collapsed
       /\ map snd (descendants sample_collapsed)
          = [sample_collapsed; sample_group; HNode (INode 9%nat None) 1 None None].
Proof.
  split; [reflexivity |].
  destruct (proj1 (first_build_shows_two_levels sample_scope initial eq_refl)
              eq_refl) as [st1 Hm].
  { evaluate. discriminate. }
  exists st1. split; [exact Hm |].
  destruct (proj2 (first_build_shows_two_levels sample_scope initial eq_refl)
              st1 Hm) as (kids & Hk & _ & Hh & Hdesc & _).
  injection Hk as <-. split; [exact Hh | exact Hdesc].
Defined.


(** ** C7 and C1: what a toggle calls *)

Section Toggle.

Context {A : Type}.
Variable degenerate : R.
Variable scope : @Scope A.

Lemma nth_error_replace_nth {T} (l : list T) :
  forall i x y, nth_error l i = Some y ->
                nth_error (replace_nth i x l) i = Some x.
Proof.
  induction l as [| z l IH]; intros [| i] x y E; simpl in *;
    try discriminate; eauto.
Qed.

Lemma held_with_held (n : hnode A) (l : list (hnode A)) :
  held_children n <> [] -> held_children (with_held_children n l) = l.
Proof.
  destruct n as [d k [c |] [c1 |]]; simpl; intros H;
    try reflexivity; now elim H.
Qed.

Lemma node_at_update_at (f : hnode A -> hnode A) (p : path) :
  forall h n, node_at p h = Some n -> node_at p (update_at p f h) = Some (f n).
Proof.
  induction p as [| i p IH]; intros h n E; simpl in *.
  - now injection E as <-.
  - destruct (nth_error (held_children h) i) as [c |] eqn:Ec; [| discriminate].
    rewrite held_with_held
      by (intros H; rewrite H in Ec; destruct i; discriminate).
    rewrite (nth_error_replace_nth _ i _ c Ec). now apply IH.
Qed.

Lemma updateTreeSize_defined st rootNode first rest :
  exists ts, updateTreeSize degenerate scope st rootNode (first :: rest)
             = Some ts.
Proof. unfold updateTreeSize. eauto. Qed.

Lemma layout_not_nil h : exists first rest, layout scope h = first :: rest.
Proof.
  unfold layout. destruct (descendants_head h) as [rest ->]. simpl. eauto.
Qed.

Lemma updateNode_defined st rootNode duration h :
  hieararchy st = Some h ->
  exists done, updateNode degenerate scope st rootNode duration = Some done.
Proof.
  intros Hh. unfold updateNode. rewrite Hh.
  destruct (layout_not_nil h) as (first & rest & ->).
  destruct (updateTreeSize_defined st rootNode first rest) as [ts ->]. eauto.
Qed.

Lemma updateNode_inv st rootNode duration done :
  updateNode degenerate scope st rootNode duration = Some done ->
  exists h ts,
    hieararchy st = Some h
    /\ updateTreeSize degenerate scope st rootNode (layout scope h) = Some ts
    /\ done = mkRender (if negb (JS.truthy duration)
                        then scope_duration scope else duration)
                       ts (endUpdate (sized_nodes ts)).
Proof.
  unfold updateNode. destruct (hieararchy st) as [h |]; [| discriminate].
  destruct (updateTreeSize _ _ _ _ _) as [ts |] eqn:E; [| discriminate].
  intros [= <-]. eauto.
Qed.

Lemma toggleNode_defined st d h n :
  hieararchy st = Some h -> node_at d h = Some n ->
  exists st1 calls, toggleNode degenerate scope st d = Some (st1, calls).
Proof.
  intros Hh Hn. unfold toggleNode. rewrite Hh, Hn.
  destruct (updateNode_defined (set_hieararchy st (update_at d toggle h))
              (Some d) (JS.vnum 0) (update_at d toggle h) eq_refl) as [r ->].
  eauto.
Qed.

(** C7.  [toggleNode(d)] on a node of the hierarchy goes through, toggles
    that node and calls [updateNode(d, 0)] first.  When the node was
    collapsed with children to show (it is toggled open: [children] gets the
    array of [_children]), the only other call is [zoomToNode(d)].  When the
    node was open (it is toggled closed: the array of [children] goes to
    [_children]), the only other call is [zoomToNode(d.parent)], made when
    the node has a parent, that is when it is not the root. *)
Theorem toggleNode_zooms st d h n :
  hieararchy st = Some h -> node_at d h = Some n ->
  exists st1 calls done,
    toggleNode degenerate scope st d = Some (st1, calls)
    /\ hieararchy st1 = Some (update_at d toggle h)
    /\ node_at d (update_at d toggle h) = Some (toggle n)
    /\ (forall l, children n = None -> _children n = Some l ->
         children (toggle n) = Some l
         /\ calls = [Call_updateNode d (JS.vnum 0) done; Call_zoomToNode d])
    /\ (forall l, children n = Some l ->
         children (toggle n) = None /\ _children (toggle n) = Some l
         /\ calls = Call_updateNode d (JS.vnum 0) done
                    :: match d with
                       | [] => []
                       | _ :: _ => [Call_zoomToNode (removelast d)]
                       end).
Proof.
  intros Hh Hn.
  destruct (toggleNode_defined st d h n Hh Hn) as (st1 & calls & Ht).
  pose proof (toggleNode_inv degenerate scope st d st1 calls Ht)
    as (h0 & n0 & r & Hh0 & Hn0 & -> & _ & ->).
  assert (h0 = h) by congruence. subst h0.
  assert (n0 = n) by congruence. subst n0.
  exists (set_hieararchy st (update_at d toggle h)). eexists. exists r.
  split; [exact Ht |]. split; [reflexivity |].
  split; [now apply node_at_update_at |].
  split.
  - intros l Hc Hc1. destruct n as [dn kn c c1]. simpl in *. subst.
    auto.
  - intros l Hc. destruct n as [dn kn c c1]. simpl in *. subst.
    repeat split. now destruct d.
Qed.

(** C1, on the code.  [toggleNode] does call [updateNode(d, 0)], but the
    zero does not reach the transitions: [updateNode] starts with
    [if (!duration) duration = scope.duration], zero is false there, and the
    transitions of the toggle get the configured [scope.duration]. *)
Theorem toggleNode_runs_at_configured_duration st d st1 calls :
  toggleNode degenerate scope st d = Some (st1, calls) ->
  exists done rest,
    calls = Call_updateNode d (JS.vnum 0) done :: rest
    /\ JS.truthy (JS.vnum 0) = false
    /\ render_duration done = scope_duration scope.
Proof.
  intros Ht. apply toggleNode_inv in Ht.
  destruct Ht as (h & n & r & _ & _ & _ & Hu & ->).
  exists r. eexists. split; [reflexivity |]. split; [reflexivity |].
  apply updateNode_inv in Hu. destruct Hu as (h1 & ts & _ & _ & ->).
  reflexivity.
Qed.

End Toggle.


(** The collapsed group of the sample is toggled open. *)
Lemma toggleNode_zooms_witness :
  hieararchy sample_state = Some sample_collapsed
  /\ node_at [0%nat] sample_collapsed = Some sample_group
  /\ exists st1 done,
       toggleNode (1 / 2) sample_scope sample_state [0%nat]
       = Some (st1, [Call_updateNode [0%nat] (JS.vnum 0) done;
                     Call_zoomToNode [0%nat]]).
Proof.
  split; [reflexivity |]. split; [reflexivity |].
  destruct (toggleNode_zooms (1 / 2) sample_scope sample_state [0%nat]
              sample_collapsed sample_group eq_refl eq_refl)
    as (st1 & calls & done & Ht & _ & _ & Hopen & _).
  destruct (Hopen _ eq_refl eq_refl) as [_ ->].
  exists st1, done. exact Ht.
Defined.

(** The same toggle, with the default duration of 500: its transitions run
    for 500 milliseconds. *)
Lemma toggleNode_runs_at_configured_duration_witness :
  exists st1 done rest,
    toggleNode (1 / 2) sample_scope sample_state [0%nat]
    = Some (st1, Call_updateNode [0%nat] (JS.vnum 0) done :: rest)
    /\ render_duration done = JS.vnum 500.
Proof.
  destruct (toggleNode_defined (1 / 2) sample_scope sample_state [0%nat]
              sample_collapsed sample_group eq_refl eq_refl)
    as (st1 & calls & Ht).
  destruct (toggleNode_runs_at_configured_duration
              (1 / 2) sample_scope sample_state [0%nat] st1 calls Ht)
    as (done & rest & -> & _ & Hd).
  exists st1, done, rest. split; [exact Ht | exact Hd].
Defined.

(** ** C9: the completion counter *)

Section Settled.

Lemma endUpdate_count {T} (transition : list T) :
  latch_n (endUpdate transition) = Z.of_nat (List.length transition)
  /\ latch_calls (endUpdate transition) = O.
Proof.
  unfold endUpdate. simpl. split; [| reflexivity].
  assert (H : forall l z, fold_left (fun n (_ : T) => (n + 1)%Z) l z
                          = (z + Z.of_nat (List.length l))%Z).
  { induction l as [| x l IH]; intros z; simpl List.length.
    - simpl. lia.
    - cbn [fold_left]. rewrite IH. lia. }
  now rewrite H.
Qed.

Lemma run_ends_calls {T} (ended : list T) :
  forall l,
    latch_calls (run_ends l ended)
    = (latch_calls l
       + if (1 <=? latch_n l)%Z
            && (latch_n l <=? Z.of_nat (List.length ended))%Z
         then 1 else 0)%nat.
Proof.
  induction ended as [| e ended IH]; intros l.
  - cbn [run_ends fold_left List.length].
    destruct (Z.leb_spec 1 (latch_n l));
      destruct (Z.leb_spec (latch_n l) (Z.of_nat 0)); cbn [andb]; lia.
  - change (run_ends l (e :: ended)) with (run_ends (on_end l) ended).
    rewrite IH. unfold on_end. cbn [latch_n latch_calls].
    change (List.length (e :: ended)) with (S (List.length ended)).
    destruct (Z.eqb_spec (latch_n l - 1) 0);
      destruct (Z.leb_spec 1 (latch_n l - 1));
      destruct (Z.leb_spec (latch_n l - 1) (Z.of_nat (List.length ended)));
      destruct (Z.leb_spec 1 (latch_n l));
      destruct (Z.leb_spec (latch_n l) (Z.of_nat (S (List.length ended))));
      cbn [andb]; lia.
Qed.

(** The counter of a batch, whatever its elements: the callback has run
    once when as many transitions have ended as were started, and not
    before. *)
Lemma latch_counts {T} (batch ended : list T) :
  NoDup ended -> incl ended batch ->
  latch_calls (run_ends (endUpdate batch) ended)
  = if Nat.eqb (List.length ended) (List.length batch)
       && negb (Nat.eqb (List.length batch) 0)
    then 1%nat else 0%nat.
Proof.
  intros Hnd Hincl.
  pose proof (NoDup_incl_length Hnd Hincl) as Hle.
  rewrite run_ends_calls.
  destruct (endUpdate_count batch) as [-> ->].
  destruct (Nat.eqb_spec (List.length ended) (List.length batch));
    destruct (Nat.eqb_spec (List.length batch) 0);
    destruct (Z.leb_spec 1 (Z.of_nat (List.length batch)));
    destruct (Z.leb_spec (Z.of_nat (List.length batch))
                         (Z.of_nat (List.length ended)));
    cbn [andb negb]; lia.
Qed.

Context {A : Type}.
Variable degenerate : R.
Variable scope : @Scope A.


End Settled.




(** ** What every state with a hierarchy has been measured with *)

Section Measured.

Context {A : Type}.
Variable degenerate : R.
Variable scope : @Scope A.

Lemma measure_measured st st2 :
  (dataIsDirty st = false -> hieararchy st <> None) ->
  (hieararchy st <> None -> measured scope st) ->
  measure scope st = Some st2 ->
  hieararchy st2 <> None /\ measured scope st2.
Proof.
  intros Hclean Hmeasured Hm. apply measure_inv in Hm.
  destruct Hm as (sz & st1 & scale & _ & Hp & Hroom & Hh & Hn & Hd & _ & _
                  & Hs & Hspan & Hcx & Hrange & Hmax & Hmin).
  assert (H1 : hieararchy st1 <> None
               /\ nodes st1 = all_nodes scope
               /\ maxDepth st1 = deepest_level scope).
  { apply prepare_cases in Hp.
    destruct Hp as [(Hd0 & _ & ->) | (_ & _ & Hn1 & Hd1 & Hcase)].
    - specialize (Hclean Hd0). destruct (Hmeasured Hclean) as (? & ? & _).
      auto.
    - split; [| auto].
      destruct Hcase as [(_ & h & _ & ->) | (_ & _ & ->)]; discriminate. }
  destruct H1 as (Hh1 & Hn1 & Hd1).
  split; [congruence |].
  unfold measured. rewrite Hn, Hd, Hs, Hspan, Hcx, Hrange, Hmax, Hmin.
  repeat split; auto.
  - exists scale. auto.
  - unfold extremes. destruct H as [Hlo Hhi].
    apply Nat.leb_le in Hlo, Hhi. now rewrite Hlo, Hhi.
  - unfold extremes. destruct H as [Hlo Hhi].
    apply Nat.leb_le in Hlo, Hhi. now rewrite Hlo, Hhi.
Qed.

Lemma reachable_measured st :
  reachable degenerate scope st ->
  (dataIsDirty st = false -> hieararchy st <> None)
  /\ (hieararchy st <> None -> measured scope st).
Proof.
  induction 1 as [| st Hr IH | st k Hr IH | st refresh st1 done Hr IH Hu
                  | st d st1 calls Hr IH Ht].
  - split; [discriminate | intros H; now elim H].
  - split; [discriminate | exact (proj2 IH)].
  - exact IH.
  - apply update_inv in Hu. destruct Hu as (Hm & _).
    destruct (measure_measured (request_refresh st refresh) st1
                (proj1 IH) (proj2 IH) Hm) as [H1 H2].
    split; intros; assumption.
  - apply toggleNode_inv in Ht.
    destruct Ht as (h & n & r & Hh & _ & -> & _).
    split; [discriminate |]. intros _.
    apply (proj2 IH). congruence.
Qed.

(** ** C8: the horizontal position of the nodes *)

Lemma updateTreeSize_nodes st rootNode ns ts :
  updateTreeSize degenerate scope st rootNode ns = Some ts ->
  map pn_node (sized_nodes ts) = map pn_node ns
  /\ map pn_path (sized_nodes ts) = map pn_path ns
  /\ Forall (fun d =>
               pn_y d = (INR (depth (pn_node d)) * depthSpan st + cx st)%R
               /\ pn_r d = Some (nodeRadius degenerate scope st (pn_node d)))
            (sized_nodes ts).
Proof.
  unfold updateTreeSize. destruct ns as [| first rest]; [discriminate |].
  intros [= <-]. cbn [sized_nodes map pn_node pn_path].
  rewrite !map_map. cbn [pn_node pn_path]. repeat split.
  constructor; [split; reflexivity |].
  apply Forall_map, Forall_forall. intros d _. split; reflexivity.
Qed.

Lemma updateNode_at_their_depth st rootNode duration done :
  updateNode degenerate scope st rootNode duration = Some done ->
  at_their_depth st done.
Proof.
  intros Hu. apply updateNode_inv in Hu. destruct Hu as (h & ts & Hh & Hts & ->).
  destruct (updateTreeSize_nodes _ _ _ _ Hts) as (Hn & _ & Hy).
  exists h. cbn [render_tree]. split; [exact Hh |]. split.
  - rewrite Hn. unfold layout. rewrite map_map. reflexivity.
  - revert Hy. apply Forall_impl. intros d [Hd _]. exact Hd.
Qed.


End Measured.



(** ** C5: the radius of a node *)

Section Radius.

Local Open Scope R_scope.

Lemma transformSqrt_mono x y : x <= y -> transformSqrt x <= transformSqrt y.
Proof.
  intros H. unfold transformSqrt.
  destruct (Rlt_dec x 0) as [Hx | Hx], (Rlt_dec y 0) as [Hy | Hy].
  - apply Ropp_le_contravar, sqrt_le_1_alt. lra.
  - pose proof (sqrt_pos (- x)). pose proof (sqrt_pos y). lra.
  - lra.
  - now apply sqrt_le_1_alt.
Qed.

Lemma transformSqrt_lt x y : x < y -> transformSqrt x < transformSqrt y.
Proof.
  intros H. unfold transformSqrt.
  destruct (Rlt_dec x 0) as [Hx | Hx], (Rlt_dec y 0) as [Hy | Hy].
  - apply Ropp_lt_contravar, sqrt_lt_1_alt. lra.
  - pose proof (sqrt_lt_R0 (- x)). pose proof (sqrt_pos y). lra.
  - lra.
  - apply sqrt_lt_1_alt. lra.
Qed.

(** A scale with an increasing domain, written out. *)
Lemma bimap_formula deg d0 d1 r0 r1 x :
  (d0 < d1 ->
   bimap deg d0 d1 r0 r1 x = r0 + (r1 - r0) * ((x - d0) / (d1 - d0)))
  /\ (d0 = d1 -> bimap deg d0 d1 r0 r1 x = r0 + (r1 - r0) * deg).
Proof.
  unfold bimap, normalize, interpolate. split; intros H.
  - destruct (Rlt_dec d1 d0); [lra |].
    destruct (Req_dec_T (d1 - d0) 0); [lra |]. ring.
  - destruct (Rlt_dec d1 d0); [lra |].
    destruct (Req_dec_T (d1 - d0) 0); [ring | lra].
Qed.

Lemma normalize_unit deg a b x :
  0 <= deg <= 1 -> a <= x <= b -> 0 <= normalize deg a b x <= 1.
Proof.
  intros Hd Hx. unfold normalize.
  destruct (Req_dec_T (b - a) 0) as [E | E]; [exact Hd |].
  assert (Hpos : 0 < b - a) by lra.
  split.
  - unfold Rdiv. apply Rmult_le_pos; [lra |].
    left. now apply Rinv_0_lt_compat.
  - apply (Rmult_le_reg_r (b - a)); [exact Hpos |].
    unfold Rdiv. rewrite Rmult_assoc, Rinv_l by lra. lra.
Qed.

Lemma normalize_mono deg a b x y :
  a <= b -> x <= y -> normalize deg a b x <= normalize deg a b y.
Proof.
  intros Hab Hxy. unfold normalize.
  destruct (Req_dec_T (b - a) 0) as [E | E]; [lra |].
  unfold Rdiv. apply Rmult_le_compat_r; [| lra].
  left. apply Rinv_0_lt_compat. lra.
Qed.

Lemma interpolate_mono r0 r1 s t :
  r0 <= r1 -> s <= t -> interpolate r0 r1 s <= interpolate r0 r1 t.
Proof. intros. unfold interpolate. nra. Qed.

Lemma interpolate_between r0 r1 t :
  0 <= t <= 1 -> Rmin r0 r1 <= interpolate r0 r1 t <= Rmax r0 r1.
Proof.
  intros Ht. unfold interpolate, Rmin, Rmax.
  destruct (Rle_dec r0 r1); split; nra.
Qed.

Lemma bimap_mono deg d0 d1 r0 r1 x y :
  d0 <= d1 -> r0 <= r1 -> x <= y ->
  bimap deg d0 d1 r0 r1 x <= bimap deg d0 d1 r0 r1 y.
Proof.
  intros Hd Hr Hxy. unfold bimap. destruct (Rlt_dec d1 d0); [lra |].
  now apply interpolate_mono, normalize_mono.
Qed.

Lemma bimap_between deg d0 d1 r0 r1 x :
  0 <= deg <= 1 -> d0 <= x <= d1 ->
  Rmin r0 r1 <= bimap deg d0 d1 r0 r1 x <= Rmax r0 r1.
Proof.
  intros Hd Hx. unfold bimap. destruct (Rlt_dec d1 d0); [lra |].
  now apply interpolate_between, normalize_unit.
Qed.

(** ** The extreme values of a level *)

Lemma d3_extremes l v :
  In (Some v) l ->
  exists a b, d3_min l = Some a /\ d3_max l = Some b /\ a <= v <= b.
Proof.
  induction l as [| [w |] l IH]; intros Hin.
  - destruct Hin.
  - simpl. destruct Hin as [E | Hin].
    + injection E as ->.
      destruct (d3_min l) as [a |], (d3_max l) as [b |];
        do 2 eexists; (split; [reflexivity |]); (split; [reflexivity |]);
        unfold Rmin, Rmax;
        repeat match goal with
               | |- context [Rle_dec ?p ?q] => destruct (Rle_dec p q)
               end; lra.
    + destruct (IH Hin) as (a & b & -> & -> & Hab).
      do 2 eexists. split; [reflexivity |]. split; [reflexivity |].
      unfold Rmin, Rmax.
      repeat match goal with
             | |- context [Rle_dec ?p ?q] => destruct (Rle_dec p q)
             end; lra.
  - simpl. destruct Hin as [E | Hin]; [discriminate | auto].
Qed.

Lemma d3_min_attained l a : d3_min l = Some a -> In (Some a) l.
Proof.
  revert a. induction l as [| [w |] l IH]; intros a E; simpl in E.
  - discriminate.
  - destruct (d3_min l) as [m |].
    + injection E as <-. unfold Rmin. destruct (Rle_dec w m).
      * now left.
      * right. now apply IH.
    + injection E as <-. now left.
  - right. now apply IH.
Qed.

Lemma d3_min_le_max l a b : d3_min l = Some a -> d3_max l = Some b -> a <= b.
Proof.
  intros Ea Eb.
  destruct (d3_extremes l a (d3_min_attained l a Ea)) as (a1 & b1 & _ & E & H).
  assert (b1 = b) by congruence. subst b1. lra.
Qed.

End Radius.


(** ** The nodes of the hierarchy are those [measure] has seen *)

Section Seen.

Context {A : Type}.

Lemma Forall2_map_diagonal {T U} (R : U -> U -> Prop) (f : T -> U) l :
  Forall (fun x => R (f x) (f x)) l -> Forall2 R (map f l) (map f l).
Proof. induction 1; simpl; constructor; auto. Qed.

Lemma same_records_hierarchy (d : inode A) :
  forall k, same_records (hierarchy_at k d) (hierarchy_at k d).
Proof.
  induction d as [a ks IH] using inode_induction. intros k.
  destruct ks as [[| x l] |].
  - simpl. constructor. simpl. constructor.
  - change (hierarchy_at k (INode a (Some (x :: l))))
      with (HNode (INode a (Some (x :: l))) k
                  (Some (map (hierarchy_at (S k)) (x :: l))) None).
    constructor. cbn [held_children children].
    apply Forall2_map_diagonal. simpl in IH.
    revert IH. apply Forall_impl. auto.
  - simpl. constructor. simpl. constructor.
Qed.

Lemma same_records_collapse (a : hnode A) :
  forall b, same_records a b -> same_records a (collapse b).
Proof.
  induction a as [d k c c1 IH IH1] using hnode_induction.
  intros b H. inversion H as [? ? ? ? c2 c3 Hall]; subst.
  assert (Hheld : Forall (fun x => forall y, same_records x y ->
                                             same_records x (collapse y))
                         (held_children (HNode d k c c1))).
  { destruct c as [l |]; [exact IH |]. destruct c1 as [l1 |]; [exact IH1 |].
    constructor. }
  destruct c2 as [l2 |]; [| exact H].
  change (collapse (HNode d k (Some l2) c3))
    with (HNode d k None (Some (map collapse l2))).
  constructor.
  change (held_children (HNode d k None (Some (map collapse l2))))
    with (map collapse l2).
  change (held_children (HNode d k (Some l2) c3)) with l2 in Hall.
  clear IH IH1 H. revert Hall Hheld.
  generalize (held_children (HNode d k c c1)) as la. intros la Hall Hheld.
  induction Hall as [| x y lx ly Hxy Hl IHl]; simpl; constructor;
    inversion Hheld; subst; auto.
Qed.

Lemma same_records_toggle (a b : hnode A) :
  same_records a b -> same_records a (toggle b).
Proof.
  intros H. inversion H as [? ? ? ? c2 c3 Hall]; subst.
  destruct c2 as [l2 |]; simpl; constructor; simpl in *; [exact Hall |].
  destruct c3; exact Hall.
Qed.

Lemma Forall2_replace_nth {T U} (R : T -> U -> Prop) (l : list T) :
  forall (m : list U) i x y y1,
    Forall2 R l m -> nth_error l i = Some x -> nth_error m i = Some y ->
    R x y1 -> Forall2 R l (replace_nth i y1 m).
Proof.
  induction l as [| z l IH]; intros m i x y y1 H El Em Hr;
    inversion H; subst; destruct i; simpl in *; try discriminate.
  - injection El as ->. constructor; auto.
  - constructor; eauto.
Qed.

Lemma Forall2_nth_error_r {T U} (R : T -> U -> Prop) (l : list T) :
  forall (m : list U) i y,
    Forall2 R l m -> nth_error m i = Some y ->
    exists x, nth_error l i = Some x /\ R x y.
Proof.
  induction l as [| z l IH]; intros m i y H Em; inversion H; subst;
    destruct i; simpl in *; try discriminate.
  - injection Em as ->. eauto.
  - eauto.
Qed.

Lemma same_records_update_at (f : hnode A -> hnode A) :
  (forall a b, same_records a b -> same_records a (f b)) ->
  forall p a b, same_records a b -> same_records a (update_at p f b).
Proof.
  intros Hf. induction p as [| i p IH]; intros a b H; simpl; [auto |].
  destruct (nth_error (held_children b) i) as [y |] eqn:Ey; [| exact H].
  inversion H as [d k c c1 c2 c3 Hall]; subst.
  destruct (Forall2_nth_error_r _ _ _ _ _ Hall Ey) as (x & Ex & Hxy).
  assert (Hnew : Forall2 same_records (held_children (HNode d k c c1))
                         (replace_nth i (update_at p f y)
                                      (held_children (HNode d k c2 c3)))).
  { eapply Forall2_replace_nth; eauto. }
  assert (Hne : held_children (HNode d k c2 c3) <> []).
  { intros E. rewrite E in Ey. destruct i; discriminate. }
  destruct c2 as [l2 |]; [| destruct c3 as [l3 |]];
    simpl in *; try congruence; constructor; exact Hnew.
Qed.

Lemma same_records_node_at (p : path) :
  forall (a b n : hnode A),
    same_records a b -> node_at p b = Some n ->
    exists m, node_at p a = Some m /\ depth m = depth n /\ data m = data n.
Proof.
  induction p as [| i p IH]; intros a b n H E; simpl in E.
  - injection E as <-. exists a. inversion H; subst. auto.
  - destruct (nth_error (held_children b) i) as [y |] eqn:Ey; [| discriminate].
    inversion H as [d k c c1 c2 c3 Hall]; subst.
    destruct (Forall2_nth_error_r _ _ _ _ _ Hall Ey) as (x & Ex & Hxy).
    destruct (IH x y n Hxy E) as (m & Hm & Hdm).
    exists m. simpl. simpl in Ex. rewrite Ex. auto.
Qed.

Lemma same_records_collapse_below_root (a h h1 : hnode A) :
  same_records a h -> collapse_below_root h = Some h1 -> same_records a h1.
Proof.
  intros H E. destruct h as [d k [l |] c]; [| discriminate].
  injection E as <-. inversion H as [? ? c0 c1 ? ? Hall]; subst.
  constructor.
  change (held_children (HNode d k (Some (map collapse l)) c))
    with (map collapse l).
  change (held_children (HNode d k (Some l) c)) with l in Hall.
  clear H. revert Hall.
  generalize (held_children (HNode d k c0 c1)) as la. intros la Hall.
  induction Hall; simpl; constructor; auto using same_records_collapse.
Qed.

(** Every node of the hierarchy built from the data is one of its
    descendants. *)
Lemma nth_error_combine_seq {T} (l : list T) :
  forall start i x,
    nth_error l i = Some x ->
    In ((start + i)%nat, x) (combine (seq start (List.length l)) l).
Proof.
  induction l as [| y l IH]; intros start [| i] x E; simpl in *;
    try discriminate.
  - injection E as ->. left. f_equal. lia.
  - right. replace (start + S i)%nat with (S start + i)%nat by lia.
    now apply IH.
Qed.

Lemma held_hierarchy_at (d : inode A) k :
  held_children (hierarchy_at k d) = active_children (hierarchy_at k d).
Proof. destruct d as [a [[| x l] |]]; reflexivity. Qed.

Lemma active_hierarchy_at (d : inode A) k i c :
  nth_error (active_children (hierarchy_at k d)) i = Some c ->
  exists y, c = hierarchy_at (S k) y.
Proof.
  destruct d as [a [[| x l] |]].
  - destruct i; discriminate.
  - change (active_children (hierarchy_at k (INode a (Some (x :: l)))))
      with (map (hierarchy_at (S k)) (x :: l)).
    rewrite nth_error_map.
    destruct (nth_error (x :: l) i) as [y |]; simpl; [| discriminate].
    intros [= <-]. eauto.
  - destruct i; discriminate.
Qed.

Lemma node_at_in_level (p : path) :
  forall (d : inode A) k q n,
    node_at p (hierarchy_at k d) = Some n ->
    exists q1, In (q1, n) (level (List.length p) q (hierarchy_at k d)).
Proof.
  induction p as [| i p IH]; intros d k q n E.
  - simpl in E. injection E as <-. exists q. now left.
  - cbn [node_at] in E. rewrite held_hierarchy_at in E.
    destruct (nth_error (active_children (hierarchy_at k d)) i) as [c |] eqn:Ec;
      [| discriminate].
    destruct (active_hierarchy_at d k i c Ec) as [y ->].
    destruct (IH y (S k) (q ++ [i]) n E) as [q1 Hq1].
    exists q1. cbn [List.length level]. apply in_flat_map.
    exists (i, hierarchy_at (S k) y). split; [| exact Hq1].
    exact (nth_error_combine_seq _ 0 i _ Ec).
Qed.

Lemma height_child (n c : hnode A) :
  In c (active_children n) -> (S (height c) <= height n)%nat.
Proof.
  destruct n as [d k [l |] c1]; simpl; [| contradiction].
  intros Hin. apply le_n_S.
  induction l as [| x l IH]; simpl; [destruct Hin |].
  destruct Hin as [-> | Hin]; [lia |]. specialize (IH Hin). lia.
Qed.

Lemma node_at_height (p : path) :
  forall (d : inode A) k n,
    node_at p (hierarchy_at k d) = Some n ->
    (List.length p <= height (hierarchy_at k d))%nat.
Proof.
  induction p as [| i p IH]; intros d k n E; [simpl; lia |].
  cbn [node_at] in E. rewrite held_hierarchy_at in E.
  destruct (nth_error (active_children (hierarchy_at k d)) i) as [c |] eqn:Ec;
    [| discriminate].
  pose proof (height_child _ _ (nth_error_In _ _ Ec)) as Hh.
  destruct (active_hierarchy_at d k i c Ec) as [y ->].
  specialize (IH y (S k) n E). simpl. lia.
Qed.

Lemma node_at_descendant (p : path) (d : inode A) k n :
  node_at p (hierarchy_at k d) = Some n ->
  In n (map snd (descendants (hierarchy_at k d))).
Proof.
  intros E. destruct (node_at_in_level p d k [] n E) as [q1 Hq1].
  apply in_map_iff. exists (q1, n). split; [reflexivity |].
  unfold descendants. apply in_flat_map. exists (List.length p).
  split; [| exact Hq1]. apply in_seq.
  pose proof (node_at_height p d k n E). lia.
Qed.

Lemma fold_max_bound (l : list (hnode A)) :
  forall m n,
    In n l ->
    (depth n <= fold_left (fun m n => Nat.max m (depth n)) l m)%nat.
Proof.
  assert (Hmono : forall l m,
            (m <= fold_left (fun m (n : hnode A) => Nat.max m (depth n)) l m)%nat).
  { clear l. induction l as [| x l IH]; intros m; simpl; [lia |].
    specialize (IH (Nat.max m (depth x))). lia. }
  induction l as [| x l IH]; intros m n Hin; [destruct Hin |].
  simpl. destruct Hin as [-> | Hin]; [| now apply IH].
  specialize (Hmono l (Nat.max m (depth n))). lia.
Qed.

Variable degenerate : R.
Variable scope : @Scope A.

Lemma reachable_same_records st :
  reachable degenerate scope st ->
  forall h, hieararchy st = Some h ->
            same_records (hierarchy (scope_data scope)) h.
Proof.
  induction 1 as [| st Hr IH | st k Hr IH | st refresh st1 done Hr IH Hu
                  | st d st1 calls Hr IH Ht]; intros h Hh.
  - discriminate.
  - apply IH. exact Hh.
  - apply IH. exact Hh.
  - apply update_inv in Hu. destruct Hu as (Hm & _).
    apply measure_inv in Hm.
    destruct Hm as (sz & st2 & scale & _ & Hp & _ & Hh2 & _).
    rewrite Hh2 in Hh. apply prepare_cases in Hp.
    destruct Hp as [(_ & _ & ->) | (_ & _ & _ & _ & Hcase)].
    + apply IH. exact Hh.
    + destruct Hcase as [(_ & h1 & Hc & Hh1) | (_ & _ & Hh1)].
      * assert (h = h1) by congruence. subst h1.
        eapply same_records_collapse_below_root; [| exact Hc].
        apply same_records_hierarchy.
      * assert (h = hierarchy (scope_data scope)) by congruence. subst h.
        apply same_records_hierarchy.
  - apply toggleNode_inv in Ht.
    destruct Ht as (h0 & n & r & Hh0 & _ & -> & _).
    simpl in Hh. injection Hh as <-.
    apply same_records_update_at; [apply same_records_toggle | auto].
Qed.

(** The value of every node of the hierarchy, shown or collapsed, is among
    those [measure] has seen at the depth of the node, and no node is
    deeper than [maxDepth]. *)
Lemma reachable_seen st h p n :
  reachable degenerate scope st ->
  hieararchy st = Some h -> node_at p h = Some n ->
  seen scope st n /\ (depth n <= maxDepth st)%nat.
Proof.
  intros Hr Hh Hn.
  pose proof (reachable_same_records st Hr h Hh) as Hsame.
  destruct (same_records_node_at p _ _ n Hsame Hn) as (m & Hm & Hd & Hdata).
  apply node_at_descendant in Hm.
  destruct (proj2 (reachable_measured degenerate scope st Hr)) as (Hnodes & Hmax & _);
    [congruence |].
  split.
  - unfold seen, values_at. rewrite Hnodes. apply in_map_iff.
    exists m. split; [now rewrite Hdata |].
    apply filter_In. split; [exact Hm |]. apply Nat.eqb_eq. exact Hd.
  - rewrite Hmax, <- Hd. unfold deepest_level. now apply fold_max_bound.
Qed.

End Seen.


Section RadiusSpec.

Local Open Scope R_scope.

Context {A : Type}.
Variable degenerate : R.
Variable scope : @Scope A.

Lemma seen_depth st a :
  measured scope st -> seen scope st a -> (depth a <= maxDepth st)%nat.
Proof.
  intros (Hnodes & Hmax & _) Hs. unfold seen, values_at in Hs.
  apply in_map_iff in Hs. destruct Hs as (n & _ & Hn).
  apply filter_In in Hn. destruct Hn as [Hn Hd]. apply Nat.eqb_eq in Hd.
  rewrite Hmax, <- Hd. unfold deepest_level. apply fold_max_bound.
  now rewrite <- Hnodes.
Qed.

(** The domain of the scale at the depth of a node whose value has been
    seen. *)
Lemma seen_domain st a v :
  measured scope st -> seen scope st a -> depth a <> O ->
  scope_value scope (data a) = Some v ->
  exists mn mx,
    minValues st (depth a) = Some mn /\ maxValues st (depth a) = Some mx
    /\ mn <= v <= mx.
Proof.
  intros Hm Hs Hd Hv. pose proof (seen_depth st a Hm Hs) as Hle.
  destruct Hm as (_ & _ & _ & _ & _ & Hext).
  destruct (Hext (depth a)) as [-> ->]; [lia |].
  unfold seen in Hs. rewrite Hv in Hs.
  destruct (d3_extremes _ v Hs) as (mn & mx & Hmn & Hmx & Hb). eauto.
Qed.

Lemma nodeRadius_below st a :
  depth a <> O ->
  nodeRadius degenerate scope st a
  = match scaleSqrt degenerate
            (minValues st (depth a), maxValues st (depth a))
            (nodeScale_range st) (scope_value scope (data a)) with
    | Some r => r
    | None => 0
    end.
Proof.
  intros Hd. unfold nodeRadius.
  destruct (Nat.eqb_spec (depth a) 0); [contradiction | reflexivity].
Qed.


End RadiusSpec.




End TreeFacts.

(* ================================================================== *)
(** * More properties of the utilities *)
(* ================================================================== *)

Module UtilRestFacts.

Import JS Util UtilRest UtilFacts.

Local Open Scope string_scope.

(** ** Characters *)

Ltac each_char c :=
  destruct c as [[] [] [] [] [] [] [] []]; try reflexivity; try discriminate.

Lemma stripped_toUpperCase c : stripped (toUpperCase_char c) = stripped c.
Proof. each_char c. Qed.

Lemma toUpperCase_not_small c : is_small (toUpperCase_char c) = false.
Proof. each_char c. Qed.

Lemma toUpperCase_char_idem c :
  toUpperCase_char (toUpperCase_char c) = toUpperCase_char c.
Proof. each_char c. Qed.

Lemma toUpperCase_comma c :
  is_char (toUpperCase_char c) "," = is_char c ",".
Proof. each_char c. Qed.

Lemma chars_of_list l : chars (string_of_list_ascii l) = l.
Proof. apply list_ascii_of_string_of_list_ascii. Qed.

(** [createCSSKey] on the characters. *)
Definition key_chars (l : list ascii) : list ascii :=
  map toUpperCase_char
      (filter (fun c => negb (stripped c)) (replace_first_comma l)).

Lemma createCSSKey_chars s :
  chars (createCSSKey s) = (chars "css" ++ key_chars (chars s))%list.
Proof.
  unfold createCSSKey, toUpperCase. rewrite chars_app, !chars_of_list.
  reflexivity.
Qed.

Lemma chars_inj s t : chars s = chars t -> s = t.
Proof.
  intros H. rewrite <- (string_of_list_ascii_of_string s),
              <- (string_of_list_ascii_of_string t).
  unfold chars in H. now rewrite H.
Qed.

Lemma createCSSKey_eq s t :
  key_chars (chars s) = key_chars (chars t) -> createCSSKey s = createCSSKey t.
Proof.
  intros H. apply chars_inj. now rewrite !createCSSKey_chars, H.
Qed.

Lemma replace_first_comma_none l :
  Forall (fun c => is_char c "," = false) l -> replace_first_comma l = l.
Proof.
  induction 1 as [| c l Hc Hl IH]; cbn [replace_first_comma];
    [reflexivity |].
  now rewrite Hc, IH.
Qed.

Lemma replace_first_comma_app l1 c l2 :
  Forall (fun c => is_char c "," = false) l1 -> is_char c "," = true ->
  replace_first_comma (l1 ++ c :: l2) = (l1 ++ "_"%char :: l2)%list.
Proof.
  intros H Hc.
  induction H as [| d l Hd Hl IH]; cbn [replace_first_comma app].
  - now rewrite Hc.
  - now rewrite Hd, IH.
Qed.

Lemma length_chars s : String.length s = List.length (chars s).
Proof. induction s as [| c s IH]; simpl; [reflexivity | now rewrite IH]. Qed.

(** X1.  [createCSSKey(s)] is ['css'] followed by a key that holds no white
    space, plus sign, comma, single quote, full stop or parenthesis, and no
    small letter; the key is not longer than [s]. *)
Theorem createCSSKey_shape s :
  exists k,
    createCSSKey s = "css" ++ k
    /\ Forall (fun c => stripped c = false /\ is_small c = false) (chars k)
    /\ (String.length k <= String.length s)%nat.
Proof.
  exists (string_of_list_ascii (key_chars (chars s))). split; [| split].
  - apply chars_inj. now rewrite createCSSKey_chars, chars_app, chars_of_list.
  - rewrite chars_of_list. unfold key_chars. apply Forall_map.
    apply Forall_forall. intros c Hc. apply filter_In in Hc.
    destruct Hc as [_ Hc]. rewrite stripped_toUpperCase, toUpperCase_not_small.
    split; [| reflexivity]. now destruct (stripped c).
  - rewrite !length_chars, chars_of_list. unfold key_chars.
    rewrite length_map.
    etransitivity; [apply filter_length_le |].
    generalize (chars s). intros l.
    induction l as [| c l IH]; cbn [replace_first_comma]; [simpl; lia |].
    destruct (is_char c ","); cbn [List.length]; lia.
Qed.

Lemma replace_first_comma_map l :
  replace_first_comma (map toUpperCase_char l)
  = map toUpperCase_char (replace_first_comma l).
Proof.
  induction l as [| c l IH]; cbn [replace_first_comma map]; [reflexivity |].
  rewrite toUpperCase_comma. destruct (is_char c ","); [reflexivity |].
  cbn [map]. now rewrite IH.
Qed.

Lemma filter_stripped_map l :
  filter (fun c => negb (stripped c)) (map toUpperCase_char l)
  = map toUpperCase_char (filter (fun c => negb (stripped c)) l).
Proof.
  induction l as [| c l IH]; cbn [filter map]; [reflexivity |].
  rewrite stripped_toUpperCase. destruct (stripped c); cbn [negb map];
    now rewrite IH.
Qed.

Lemma filter_stripped_drop l1 c l2 :
  stripped c = true -> is_char c "," = false ->
  filter (fun c => negb (stripped c)) (replace_first_comma (l1 ++ c :: l2))
  = filter (fun c => negb (stripped c)) (replace_first_comma (l1 ++ l2)).
Proof.
  intros Hs Hc.
  induction l1 as [| d l1 IH]; cbn [app replace_first_comma].
  - rewrite Hc. cbn [filter]. now rewrite Hs.
  - destruct (is_char d ",").
    + cbn [filter]. rewrite !filter_app. cbn [filter]. now rewrite Hs.
    + cbn [filter]. now rewrite IH.
Qed.

Lemma filter_underscore l :
  filter (fun c => negb (stripped c)) ("_"%char :: l)
  = "_"%char :: filter (fun c => negb (stripped c)) l.
Proof. reflexivity. Qed.

Lemma filter_comma l :
  filter (fun c => negb (stripped c)) (","%char :: l)
  = filter (fun c => negb (stripped c)) l.
Proof. reflexivity. Qed.

(** X2.  Only the first comma of the string becomes an underscore: the
    commas after it are removed with the other stripped characters.  So,
    when [s1] holds no comma, [s1 + ',' + s2] and [s1 + '_' + s2] have the
    same key as soon as [s2] holds no comma either, and a second comma
    leaves no trace in the key. *)
Theorem createCSSKey_commas s1 s2 s3 :
  comma_free s1 ->
  (comma_free s2 ->
   createCSSKey (s1 ++ "," ++ s2) = createCSSKey (s1 ++ "_" ++ s2))
  /\ createCSSKey (s1 ++ "," ++ s2 ++ "," ++ s3)
     = createCSSKey (s1 ++ "," ++ s2 ++ s3).
Proof.
  unfold comma_free. intros H1. split.
  - intros H2. apply createCSSKey_eq. unfold key_chars.
    rewrite !chars_app. cbn [chars list_ascii_of_string app].
    rewrite replace_first_comma_app by (assumption || reflexivity).
    rewrite replace_first_comma_none; [reflexivity |].
    apply Forall_app. split; [assumption |]. now constructor.
  - apply createCSSKey_eq. unfold key_chars.
    rewrite !chars_app. cbn [chars list_ascii_of_string app].
    rewrite !replace_first_comma_app by (assumption || reflexivity).
    f_equal. rewrite !filter_app. f_equal.
    rewrite !filter_underscore. f_equal.
    rewrite !filter_app. now rewrite filter_comma.
Qed.

(** The keys of [a b,c], of [a b_c] and of [a b,c,d]. *)
Lemma createCSSKey_commas_witness :
  comma_free "a b" /\ comma_free "c"
  /\ createCSSKey "a b,c" = "cssAB_C"
  /\ createCSSKey "a b_c" = "cssAB_C"
  /\ createCSSKey "a b,c,d" = "cssAB_CD".
Proof.
  assert (H1 : comma_free "a b") by (repeat constructor).
  assert (H2 : comma_free "c") by (repeat constructor).
  split; [exact H1 |]. split; [exact H2 |].
  split; [| split; [reflexivity |]].
  - exact (eq_trans (proj1 (createCSSKey_commas "a b" "c" "" H1) H2) eq_refl).
  - exact (eq_trans (proj2 (createCSSKey_commas "a b" "c" "d" H1)) eq_refl).
Defined.

(** X3.  The key tells neither the case of the letters nor the stripped
    characters other than commas: a string and its upper case have the same
    key, and a white space, plus sign, single quote, full stop or
    parenthesis can be taken out of a string, wherever it is, without a
    change of the key. *)
Theorem createCSSKey_collisions :
  (forall s, createCSSKey (toUpperCase s) = createCSSKey s)
  /\ (forall s1 c s2,
        stripped c = true -> is_char c "," = false ->
        createCSSKey (s1 ++ String c s2) = createCSSKey (s1 ++ s2)).
Proof.
  split.
  - intros s. apply createCSSKey_eq. unfold key_chars, toUpperCase.
    rewrite chars_of_list, replace_first_comma_map, filter_stripped_map.
    rewrite map_map. apply map_ext. apply toUpperCase_char_idem.
  - intros s1 c s2 Hs Hc. apply createCSSKey_eq. unfold key_chars.
    rewrite !chars_app. cbn [chars list_ascii_of_string].
    now rewrite filter_stripped_drop.
Qed.

(** Three names of one city with the same key. *)
Lemma createCSSKey_collisions_witness :
  createCSSKey "New York (NY)" = createCSSKey "NewYorkNY"
  /\ createCSSKey "NEWYORKNY" = createCSSKey "NewYorkNY".
Proof.
  split.
  - exact (eq_trans
             (proj2 createCSSKey_collisions "New" " "%char "York (NY)"
                    eq_refl eq_refl)
             (eq_trans
                (proj2 createCSSKey_collisions "NewYork" " "%char "(NY)"
                       eq_refl eq_refl)
                (eq_trans
                   (proj2 createCSSKey_collisions "NewYork" "("%char "NY)"
                          eq_refl eq_refl)
                   (proj2 createCSSKey_collisions "NewYorkNY" ")"%char ""
                          eq_refl eq_refl)))).
  - exact (proj1 createCSSKey_collisions "NewYorkNY").
Defined.


(** ** The identifier *)

Lemma to_int32_small z :
  (0 <= z < 16)%Z -> ((z + 2 ^ 31) mod 2 ^ 32 - 2 ^ 31 = z)%Z.
Proof. intros H. rewrite Z.mod_small; lia. Qed.

Lemma guid_digit_x (q : Q) :
  (0 <= q)%Q -> (q < 1)%Q ->
  guid_digit "x" q = [hex_char (Qfloor (q * 16))]
  /\ is_hex_digit (hex_char (Qfloor (q * 16))) = true.
Proof.
  intros H0 H1.
  assert (Hlo : (0 <= Qfloor (q * 16))%Z).
  { change 0%Z with (Qfloor 0). apply Qfloor_resp_le.
    rewrite <- (Qmult_0_l 16).
    apply Qmult_le_compat_r; [exact H0 | discriminate]. }
  assert (Hhi : (Qfloor (q * 16) < 16)%Z).
  { rewrite Zlt_Qlt. apply Qle_lt_trans with (q * 16)%Q; [apply Qfloor_le |].
    change (inject_Z 16) with (1 * 16)%Q.
    apply Qmult_lt_compat_r; [reflexivity | exact H1]. }
  unfold guid_digit, to_int32.
  assert (Hnn : Qle_bool 0 (q * 16) = true).
  { apply Qle_bool_iff. rewrite <- (Qmult_0_l 16).
    apply Qmult_le_compat_r; [exact H0 | discriminate]. }
  rewrite Hnn. cbn [is_char Ascii.eqb Bool.eqb].
  remember (Qfloor (q * 16)) as r eqn:Er. clear Er Hnn H0 H1.
  rewrite to_int32_small by lia.
  assert (Hr : (r = 0 \/ r = 1 \/ r = 2 \/ r = 3 \/ r = 4 \/ r = 5 \/ r = 6
                \/ r = 7 \/ r = 8 \/ r = 9 \/ r = 10 \/ r = 11 \/ r = 12
                \/ r = 13 \/ r = 14 \/ r = 15)%Z) by lia.
  repeat (destruct Hr as [-> | Hr]); [.. | subst r]; split; reflexivity.
Qed.

(** X4.  As long as [Math.random()] returns numbers from 0 up to, and not
    including, 1, [guid()] is ['vz'] followed by eight digits among
    [0123456789abcdef], the [k]-th being the digit of the integer part of
    sixteen times the [k]-th random number. *)
Theorem guid_format (random : nat -> Q) :
  (forall k, (0 <= random k)%Q /\ (random k < 1)%Q) ->
  exists ds,
    guid random = "vz" ++ string_of_list_ascii ds
    /\ ds = map (fun k => hex_char (Qfloor (random k * 16))) (seq 0 8)
    /\ List.length ds = 8%nat
    /\ Forall (fun c => is_hex_digit c = true) ds.
Proof.
  intros H. eexists. split; [| split; [reflexivity | split; [reflexivity |]]].
  - unfold guid.
    change (chars "vzxxxxxxxx")
      with ["v"; "z"; "x"; "x"; "x"; "x"; "x"; "x"; "x"; "x"]%char.
    cbn [replace_xy is_char Ascii.eqb Bool.eqb orb].
    rewrite !(fun k => proj1 (guid_digit_x (random k)
                                            (proj1 (H k)) (proj2 (H k)))).
    reflexivity.
  - cbn [seq map].
    repeat constructor;
      apply (fun k => proj2 (guid_digit_x (random k)
                                          (proj1 (H k)) (proj2 (H k)))).
Qed.

(** The identifier when every random number is 5/8. *)
Lemma guid_format_witness :
  (forall k : nat, (0 <= 5 # 8)%Q /\ (5 # 8 < 1)%Q)
  /\ guid (fun _ => 5 # 8) = "vzaaaaaaaa".
Proof.
  assert (H : forall k : nat, (0 <= 5 # 8)%Q /\ (5 # 8 < 1)%Q)
    by (intros _; split; reflexivity || discriminate).
  split; [exact H |].
  destruct (guid_format (fun _ => 5 # 8) H) as (ds & -> & -> & _).
  reflexivity.
Defined.


(** ** The sides and the inside of a size *)



(** ** A side given as a percentage *)

(** The percentage as the fraction [measure] multiplies by: it lies
    between 0 and 1 and does not decrease when the percentage grows. *)
Lemma percent_ratio q :
  (0 <= q)%Q ->
  exists r,
    div (Math_min (Fin q) (of_Z 100)) (of_Z 100) = Fin r
    /\ (0 <= r <= 1)%Q
    /\ forall q1, (q <= q1)%Q ->
         exists r1,
           div (Math_min (Fin q1) (of_Z 100)) (of_Z 100) = Fin r1
           /\ (r <= r1)%Q /\ (r1 <= 1)%Q.
Proof.
  assert (Hdiv : forall m, div (Fin m) (of_Z 100) = fin (m / 100))
    by reflexivity.
  assert (Hmin : forall x,
            exists m, Math_min (Fin x) (of_Z 100) = Fin m
                      /\ m = (if Qle_bool x 100 then x else 100)).
  { intros x. unfold Math_min, leb, of_Z. change (inject_Z 100) with 100%Q.
    destruct (Qle_bool x 100); eauto. }
  assert (Hclamp : forall x, (0 <= x)%Q ->
            (0 <= (if Qle_bool x 100 then x else 100) / 100 <= 1)%Q).
  { intros x Hx. destruct (Qle_bool x 100) eqn:E.
    - apply Qle_bool_iff in E. split.
      + apply Qle_shift_div_l; [reflexivity | Lqa.lra].
      + apply Qle_shift_div_r; [reflexivity | Lqa.lra].
    - split; discriminate. }
  assert (Hfin : forall x, (0 <= x <= 1)%Q ->
            exists r, fin x = Fin r /\ (0 <= r <= 1)%Q).
  { intros x [H0 H1].
    destruct (leb_between (fin x) 0 1) as (r & Hr & Hb).
    - rewrite <- fin_zero. now apply fin_mono.
    - rewrite <- fin_one. now apply fin_mono.
    - eauto. }
  intros Hq. destruct (Hmin q) as (m & -> & ->). rewrite Hdiv.
  destruct (Hfin _ (Hclamp q Hq)) as (r & Hr & Hb).
  exists r. split; [exact Hr |]. split; [exact Hb |].
  intros q1 Hle. destruct (Hmin q1) as (m1 & -> & ->). rewrite Hdiv.
  assert (Hq1 : (0 <= q1)%Q) by Lqa.lra.
  destruct (Hfin _ (Hclamp q1 Hq1)) as (r1 & Hr1 & Hb1).
  exists r1. split; [exact Hr1 |]. split; [| apply Hb1].
  apply leb_Fin. rewrite <- Hr, <- Hr1. apply fin_mono.
  apply Qmult_le_compat_r; [| discriminate].
  destruct (Qle_bool q 100) eqn:E, (Qle_bool q1 100) eqn:E1;
    try apply Qle_bool_iff in E; try apply Qle_bool_iff in E1;
    try assumption; try apply Qle_refl.
  exfalso. assert (Qle_bool q 100 = true); [| congruence].
  apply Qle_bool_iff. Lqa.lra.
Qed.

(** A dimension that is not negative times a fraction between 0 and 1. *)
Lemma mul_ratio d r :
  (0 <= d)%Q -> double d -> (0 <= r <= 1)%Q ->
  exists c,
    mul (Fin d) (Fin r) = Fin c /\ (0 <= c <= d)%Q
    /\ forall r1, (r <= r1)%Q -> (r1 <= 1)%Q ->
         exists c1, mul (Fin d) (Fin r1) = Fin c1 /\ (c <= c1)%Q.
Proof.
  intros Hd Hdbl Hr.
  assert (Hfin : forall x, (0 <= x <= 1)%Q ->
            exists c, fin (d * x) = Fin c /\ (0 <= c <= d)%Q).
  { intros x Hx. destruct (leb_between (fin (d * x)) 0 d) as (c & Hc & Hb).
    - rewrite <- fin_zero. apply fin_mono. Lqa.nra.
    - rewrite <- Hdbl. apply fin_mono. Lqa.nra.
    - eauto. }
  destruct (Hfin r Hr) as (c & Hc & Hb).
  exists c. split; [exact Hc |]. split; [exact Hb |].
  intros r1 Hle H1. destruct (Hfin r1 ltac:(Lqa.lra)) as (c1 & Hc1 & Hb1).
  exists c1. split; [exact Hc1 |].
  apply leb_Fin. unfold mul in Hc, Hc1. rewrite <- Hc, <- Hc1.
  apply fin_mono. Lqa.nra.
Qed.

(** X6.  A side given as a percentage that is not negative, of a dimension
    that is not negative, is an integer between 0 and the dimension
    rounded ([Math.round(m1)]); and it does not decrease when the
    percentage grows.  The dimension is any number of the language. *)
Theorem measure_percent_bounds p q d :
  StringToNumber p = Fin q -> (0 <= q)%Q -> (0 <= d)%Q -> double d ->
  exists z,
    measure (VStr (p ++ "%")) (VNum (Fin d)) = of_Z z
    /\ (0 <= z)%Z
    /\ Math_round (Fin d) = of_Z (Qfloor (d + (1 # 2)))
    /\ (z <= Qfloor (d + (1 # 2)))%Z
    /\ forall p1 q1,
         StringToNumber p1 = Fin q1 -> (q <= q1)%Q ->
         exists z1,
           measure (VStr (p1 ++ "%")) (VNum (Fin d)) = of_Z z1 /\ (z <= z1)%Z.
Proof.
  intros Hp Hq Hd Hdbl.
  destruct (percent_ratio q Hq) as (r & Hr & Hb & Hmono).
  destruct (mul_ratio d r Hd Hdbl Hb) as (c & Hc & Hcb & Hcmono).
  exists (Qfloor (c + (1 # 2))).
  split.
  { rewrite measure_percent, Hp. cbn [Number]. now rewrite Hr, Hc. }
  split.
  { change 0%Z with (Qfloor 0). apply Qfloor_resp_le. Lqa.lra. }
  split; [reflexivity |].
  split.
  { apply Qfloor_resp_le. Lqa.lra. }
  intros p1 q1 Hp1 Hle.
  destruct (Hmono q1 Hle) as (r1 & Hr1 & Hle1 & Hone).
  destruct (Hcmono r1 Hle1 Hone) as (c1 & Hc1 & Hcc).
  exists (Qfloor (c1 + (1 # 2))). split.
  - rewrite measure_percent, Hp1. cbn [Number]. now rewrite Hr1, Hc1.
  - apply Qfloor_resp_le. Lqa.lra.
Qed.

(** 12.5% of 99. *)
Lemma measure_percent_bounds_witness :
  exists z,
    measure (VStr "12.5%") (VNum (Fin 99)) = of_Z z
    /\ (0 <= z <= 99)%Z.
Proof.
  assert (Hp : StringToNumber "12.5" = Fin (25 # 2))
    by (vm_compute; reflexivity).
  assert (Hq : (0 <= 25 # 2)%Q) by discriminate.
  assert (Hd : (0 <= 99)%Q) by discriminate.
  assert (Hdbl : double 99) by (vm_compute; reflexivity).
  destruct (measure_percent_bounds "12.5" (25 # 2) 99 Hp Hq Hd Hdbl)
    as (z & Hz & H0 & _ & H1 & _).
  exists z. split; [exact Hz |]. split; [exact H0 | exact H1].
Defined.


(** ** Induction over a nest *)

Section ObjInduction.

Variable P : obj -> Prop.
Hypothesis P_step :
  forall ps vs, Forall P (TreeFacts.option_list vs) -> P (Obj ps vs).

Fixpoint obj_induction (o : obj) : P o :=
  match o with
  | Obj ps vs =>
      P_step ps vs
        match vs as v return Forall P (TreeFacts.option_list v) with
        | Some l =>
            (fix all (l : list obj) : Forall P l :=
               match l with
               | [] => Forall_nil P
               | x :: r => Forall_cons x (obj_induction x) (all r)
               end) l
        | None => Forall_nil P
        end
  end.

End ObjInduction.

(** ** [aggregateNest] writes under reserved names only *)

Lemma not_reserved_agg k p : ~ reserved k -> k <> agg_key p.
Proof. intros H E. apply H. exists p. now left. Qed.

Lemma not_reserved_childProp k p : ~ reserved k -> k <> childProp_key p.
Proof. intros H E. apply H. exists p. now right. Qed.

Lemma aggregateLeaf_plain properties k ps :
  ~ reserved k -> get k (aggregateLeaf properties ps) = get k ps.
Proof.
  intros Hk. unfold aggregateLeaf. revert ps.
  induction properties as [| p l IH]; intros ps; cbn [fold_left];
    [reflexivity |].
  rewrite IH. apply get_set_other. now apply not_reserved_agg.
Qed.

Lemma aggregateStep_plain calculation child node p k :
  ~ reserved k -> get k (aggregateStep calculation child node p) = get k node.
Proof.
  intros Hk. unfold aggregateStep.
  rewrite get_set_other by now apply not_reserved_agg.
  destruct (isNaN (get (agg_key p) node)); [| reflexivity].
  apply get_set_other. now apply not_reserved_agg.
Qed.

Lemma aggregateChildren_plain properties calculation vs node k :
  ~ reserved k ->
  get k (aggregateChildren properties calculation vs node) = get k node.
Proof.
  intros Hk. unfold aggregateChildren.
  assert (Hstep : forall c l nd,
            get k (fold_left (aggregateStep calculation c) l nd) = get k nd).
  { intros c l. induction l as [| p l IHl]; intros nd; cbn [fold_left];
      [reflexivity |].
    rewrite IHl. now apply aggregateStep_plain. }
  revert node.
  induction vs as [| c vs IH]; intros node; cbn [fold_left]; [reflexivity |].
  rewrite IH. apply Hstep.
Qed.

Lemma setSourceField_plain k cp cs :
  ~ reserved k ->
  get k (fst (setSourceField cp cs)) = get k (fst cs)
  /\ get k (snd (setSourceField cp cs)) = get k (snd cs).
Proof.
  intros Hk. destruct cs as [child parent]. unfold setSourceField.
  cbn [fst snd]. split.
  - destruct (not_undefined (get cp child)); [| reflexivity].
    apply get_set_other. now apply not_reserved_childProp.
  - apply get_set_other. now apply not_reserved_childProp.
Qed.

Lemma setSourceFields_plain k cps child parent :
  ~ reserved k ->
  get k (fst (setSourceFields cps child parent)) = get k child
  /\ option_map (get k) (snd (setSourceFields cps child parent))
     = option_map (get k) parent.
Proof.
  intros Hk. unfold setSourceFields.
  destruct parent as [pps |]; [| split; reflexivity].
  assert (H : forall cs,
            let r := fold_left (fun cs cp => setSourceField cp cs) cps cs in
            get k (fst r) = get k (fst cs) /\ get k (snd r) = get k (snd cs)).
  { induction cps as [| cp l IH]; intros cs; cbn [fold_left].
    - split; reflexivity.
    - destruct (IH (setSourceField cp cs)) as [H1 H2].
      destruct (setSourceField_plain k cp cs Hk) as [H3 H4].
      split; congruence. }
  specialize (H (child, pps)). cbv zeta in H. cbn [fst snd] in H.
  destruct (fold_left _ cps (child, pps)) as [c q]. cbn [fst snd] in *.
  destruct H as [H1 H2]. split; [exact H1 | cbn [option_map]; congruence].
Qed.

Lemma kept_properties o ps1 ps2 vs1 :
  kept o (Obj ps1 vs1) ->
  (forall k, ~ reserved k -> get k ps2 = get k ps1) ->
  kept o (Obj ps2 vs1).
Proof.
  intros H Hps. inversion H as [ps ? Hk | ps vs ? ? Hk Hvs]; subst.
  - apply kept_record. intros k Hr. rewrite Hps by assumption. auto.
  - apply kept_group; [| assumption].
    intros k Hr. rewrite Hps by assumption. auto.
Qed.

Lemma aggregateLoop_kept cps each vs :
  Forall (fun c => kept c (each c)) vs ->
  forall parent,
    Forall2 kept vs (fst (aggregateLoop cps each vs parent))
    /\ forall k, ~ reserved k ->
         option_map (get k) (snd (aggregateLoop cps each vs parent))
         = option_map (get k) parent.
Proof.
  induction 1 as [| c vs Hc Hvs IH]; intros parent.
  - split; [constructor | reflexivity].
  - rewrite aggregateLoop_cons. cbn [fst snd].
    destruct (IH (snd (setSourceFields cps (properties_of (each c)) parent)))
      as [H1 H2].
    split.
    + constructor; [| exact H1].
      apply kept_properties with (ps1 := properties_of (each c)).
      * now destruct (each c).
      * intros k Hk. now apply setSourceFields_plain.
    + intros k Hk. rewrite H2 by assumption. now apply setSourceFields_plain.
Qed.

Lemma aggregateNode_kept properties calculation cps o :
  kept o (aggregateNode properties calculation cps o).
Proof.
  induction o as [ps vs IH] using obj_induction. destruct vs as [vs |].
  - rewrite aggregateNode_group. cbv zeta. cbn [TreeFacts.option_list] in IH.
    destruct (aggregateLoop_kept cps
                (aggregateNode properties calculation cps) vs IH (Some ps))
      as [H1 H2].
    destruct (aggregateLoop_parent cps
                (aggregateNode properties calculation cps) vs ps) as [q Hq].
    rewrite Hq in *. apply kept_group; [| exact H1].
    intros k Hk. rewrite aggregateChildren_plain by assumption.
    specialize (H2 k Hk). cbn [option_map] in H2. congruence.
  - cbn [aggregateNode]. apply kept_record. intros k Hk.
    now apply aggregateLeaf_plain.
Qed.

(** X7.  When [aggregateNest] returns, the nest has the groups and records
    it had, in the same order, and every property of every one of them
    whose name is neither [agg_<name>] nor [childProp_<name>] has the value
    it had: the function only writes under these two prefixes. *)
Theorem aggregateNest_keeps_the_nest nest properties calculation result :
  aggregateNest nest properties calculation = Some result ->
  Forall2 kept nest result.
Proof.
  intros Hres.
  pose proof (aggregateNest_result nest properties calculation) as H.
  unfold aggregateNest_result_holds in H.
  destruct nest as [| first rest]; [congruence |].
  destruct (deepest first) as [d |]; [| congruence].
  rewrite H in Hres. injection Hres as <-.
  assert (Hall : forall l,
            Forall2 kept l
              (map (aggregateNode properties calculation (own_names d)) l)).
  { induction l as [| o l IH]; cbn [map]; constructor;
      [apply aggregateNode_kept | exact IH]. }
  exact (Hall (first :: rest)).
Qed.

(** The sample nest, aggregated with the sum. *)
Lemma aggregateNest_keeps_the_nest_witness :
  exists result,
    aggregateNest sample_nest ["v"] sum = Some result
    /\ Forall2 kept sample_nest result.
Proof.
  eexists. split; [reflexivity |].
  apply (aggregateNest_keeps_the_nest sample_nest ["v"] sum). reflexivity.
Defined.

(** ** The sum of a property over a nest *)

Lemma Forall2_flat_map {T U V} (R : U -> V -> Prop)
  (f : T -> list U) (g : T -> list V) (l : list T) :
  Forall (fun c => Forall2 R (f c) (g c)) l ->
  Forall2 R (flat_map f l) (flat_map g l).
Proof.
  induction 1 as [| c l Hc Hl IH]; cbn [flat_map]; [constructor |].
  now apply Forall2_app.
Qed.

Lemma group_aggregates_properties p ps x :
  get (agg_key p) ps = agg_of p x ->
  group_aggregates p (Obj ps (values_of x)) = group_aggregates p x.
Proof.
  destruct x as [px [vs |]]; cbn [values_of group_aggregates]; [| reflexivity].
  intros H. unfold agg_of in *. cbn [properties_of] in *. now rewrite H.
Qed.

Lemma aggregateLoop_groups p cps each vs :
  forall parent,
    flat_map (group_aggregates p) (fst (aggregateLoop cps each vs parent))
    = flat_map (fun c => group_aggregates p (each c)) vs.
Proof.
  induction vs as [| c vs IH]; intros parent; [reflexivity |].
  rewrite aggregateLoop_cons. cbn [fst flat_map]. rewrite IH. f_equal.
  apply group_aggregates_properties.
  apply (setSourceFields_agg p cps (properties_of (each c)) parent).
Qed.

Lemma aggregateNode_group_agg properties calculation cps p ps vs :
  NoDup properties -> In p properties ->
  agg_of p (aggregateNode properties calculation cps (Obj ps (Some vs)))
  = fold_left (combine calculation)
      (map (fun c => agg_of p (aggregateNode properties calculation cps c)) vs)
      (get (agg_key p) ps).
Proof.
  intros Hnd Hin. rewrite aggregateNode_group. cbv zeta.
  destruct (aggregateLoop_agg p cps
              (aggregateNode properties calculation cps) vs (Some ps))
    as [Hkids Hpar].
  destruct (aggregateLoop_parent cps
              (aggregateNode properties calculation cps) vs ps) as [q Hq].
  rewrite Hq in *. cbn [option_map] in Hpar.
  unfold agg_of at 1. cbn [properties_of].
  rewrite aggregateChildren_agg by assumption. congruence.
Qed.

Lemma weight_nonneg p o : (0 <= weight p o)%Z.
Proof.
  induction o as [ps vs IH] using obj_induction.
  destruct vs as [l |]; cbn [weight].
  - cbn [TreeFacts.option_list] in IH.
    induction IH as [| c l Hc _ IHl]; cbn [fold_right]; lia.
  - destruct (Number (get p ps)); lia.
Qed.

Lemma total_weight p o : (Z.abs (total p o) <= weight p o)%Z.
Proof.
  induction o as [ps vs IH] using obj_induction.
  destruct vs as [l |]; cbn [weight total].
  - cbn [TreeFacts.option_list] in IH.
    induction IH as [| c l Hc _ IHl]; cbn [fold_right]; lia.
  - destruct (Number (get p ps)); lia.
Qed.

Lemma weight_child p c l :
  In c l ->
  (weight p c <= fold_right (fun c acc => (weight p c + acc)%Z) 0%Z l)%Z.
Proof.
  induction l as [| x l IH]; intros H; [elim H |]. cbn [fold_right].
  assert (W := weight_nonneg p x).
  assert (0 <= fold_right (fun c acc => (weight p c + acc)%Z) 0%Z l)%Z.
  { clear. induction l as [| y l IH]; cbn [fold_right]; [lia |].
    assert (W := weight_nonneg p y). lia. }
  destruct H as [-> | H]; [lia |]. specialize (IH H). lia.
Qed.

(** A left fold of the sum over integers is their sum, as long as the
    absolute values add up to 53 bits at most. *)
Lemma combine_sum_fold p :
  forall vs a,
    (Z.abs a + fold_right (fun c acc => (weight p c + acc)%Z) 0%Z vs <= 2 ^ 53)%Z ->
    fold_left (combine sum) (map (fun c => vnum (total p c)) vs) (vnum a)
    = vnum (a + fold_right (fun c acc => (total p c + acc)%Z) 0%Z vs).
Proof.
  induction vs as [| c vs IH]; intros a H; cbn [map fold_left fold_right].
  - now rewrite Z.add_0_r.
  - cbn [fold_right] in H.
    assert (T := total_weight p c). assert (W := weight_nonneg p c).
    assert (0 <= fold_right (fun c acc => (weight p c + acc)%Z) 0%Z vs)%Z.
    { clear. induction vs as [| y l IH]; cbn [fold_right]; [lia |].
      assert (W := weight_nonneg p y). lia. }
    assert (E : combine sum (vnum a) (vnum (total p c))
                = vnum (a + total p c)).
    { unfold combine, sum, vnum. cbn [isNaN Number isNaN_num of_Z].
      rewrite add_of_Z by lia. reflexivity. }
    rewrite E, IH by lia. f_equal. lia.
Qed.

Lemma combine_sum_fresh p vs acc :
  isNaN acc = true ->
  (fold_right (fun c acc => (weight p c + acc)%Z) 0%Z vs <= 2 ^ 53)%Z ->
  vs <> [] ->
  fold_left (combine sum) (map (fun c => vnum (total p c)) vs) acc
  = vnum (fold_right (fun c acc => (total p c + acc)%Z) 0%Z vs).
Proof.
  intros Hacc H Hne. destruct vs as [| c vs]; [congruence |].
  cbn [map fold_left fold_right] in *.
  assert (T := total_weight p c). assert (W := weight_nonneg p c).
  assert (0 <= fold_right (fun c acc => (weight p c + acc)%Z) 0%Z vs)%Z.
  { clear. induction vs as [| y l IH]; cbn [fold_right]; [lia |].
    assert (W := weight_nonneg p y). lia. }
  assert (E : combine sum acc (vnum (total p c)) = vnum (total p c)).
  { unfold combine. rewrite Hacc. unfold sum, vnum. cbn [Number].
    rewrite add_of_Z by lia. reflexivity. }
  rewrite E. apply combine_sum_fold. lia.
Qed.

Lemma aggregateNode_sum properties cps p :
  NoDup properties -> In p properties ->
  (forall q, In q properties -> p <> agg_key q) ->
  forall o,
    summable p o -> (weight p o <= 2 ^ 53)%Z ->
    agg_of p (aggregateNode properties sum cps o) = vnum (total p o)
    /\ group_aggregates p (aggregateNode properties sum cps o)
       = map vnum (group_totals p o).
Proof.
  intros Hnd Hin Hplain.
  induction o as [ps vs IH] using obj_induction. intros Hs Hw.
  inversion Hs as [? Hp | ? l Hne Hfresh Hall]; subst.
  - split; [| reflexivity].
    unfold agg_of. cbn [aggregateNode properties_of].
    rewrite aggregateLeaf_fold by assumption. cbn [total]. cbv zeta.
    destruct Hp as [Hp | [z Hp]].
    + rewrite Hp. now destruct (Number (get p ps)).
    + rewrite Hp. cbn [isNaN_num of_Z]. unfold vnum. do 2 f_equal.
      now rewrite Qfloor_Z.
  - cbn [TreeFacts.option_list] in IH. cbn [weight] in Hw.
    assert (Hkids : Forall (fun c =>
                      agg_of p (aggregateNode properties sum cps c)
                      = vnum (total p c)
                      /\ group_aggregates p
                           (aggregateNode properties sum cps c)
                         = map vnum (group_totals p c)) l).
    { rewrite Forall_forall in *. intros c Hc. apply IH; auto.
      assert (W := weight_child p c l Hc). lia. }
    assert (Htop : agg_of p (aggregateNode properties sum cps
                                            (Obj ps (Some l)))
                   = vnum (total p (Obj ps (Some l)))).
    { rewrite aggregateNode_group_agg by assumption. cbn [total].
      rewrite (map_ext_in _ (fun c => vnum (total p c))).
      - now apply combine_sum_fresh.
      - intros c Hc. rewrite Forall_forall in Hkids. now apply Hkids. }
    split; [exact Htop |].
    cbn [group_totals map]. rewrite aggregateNode_group. cbv zeta.
    cbn [group_aggregates]. f_equal.
    + rewrite aggregateNode_group in Htop. exact Htop.
    + rewrite aggregateLoop_groups.
      rewrite !flat_map_concat_map, concat_map, map_map. f_equal.
      apply map_ext_in. intros c Hc. rewrite Forall_forall in Hkids.
      now apply Hkids.
Qed.




(** ** The fields a group takes from its last child *)

Lemma childProp_key_inj p q : childProp_key p = childProp_key q -> p = q.
Proof. unfold childProp_key. simpl. intros H. now inversion H. Qed.

Lemma truthy_not_undefined v : truthy v = true -> not_undefined v = true.
Proof. destruct v; simpl; congruence. Qed.

(** What one turn of [setSourceFields] for the property [f] leaves in
    [child['childProp_' + f]] and in [parent['childProp_' + f]], from the
    values of [child[f]] and [child['childProp_' + f]]. *)
Definition child_turn (cf ccf : value) : value :=
  if not_undefined cf then cf else ccf.

Definition parent_turn (cf ccf : value) : value :=
  if truthy (child_turn cf ccf) then child_turn cf ccf else cf.

Lemma child_turn_idem cf ccf :
  child_turn cf (child_turn cf ccf) = child_turn cf ccf.
Proof. unfold child_turn. now destruct (not_undefined cf). Qed.

Lemma setSourceField_turns f cp cs :
  ~ reserved f ->
  get f (fst (setSourceField cp cs)) = get f (fst cs)
  /\ (cp <> f ->
      get (childProp_key f) (fst (setSourceField cp cs))
      = get (childProp_key f) (fst cs)
      /\ get (childProp_key f) (snd (setSourceField cp cs))
         = get (childProp_key f) (snd cs))
  /\ (cp = f ->
      get (childProp_key f) (fst (setSourceField cp cs))
      = child_turn (get f (fst cs)) (get (childProp_key f) (fst cs))
      /\ get (childProp_key f) (snd (setSourceField cp cs))
         = parent_turn (get f (fst cs)) (get (childProp_key f) (fst cs))).
Proof.
  intros Hf. destruct cs as [child parent]. unfold setSourceField.
  cbn [fst snd].
  assert (Hplain : forall v, get f (set (childProp_key cp) v child)
                             = get f child).
  { intros v. apply get_set_other. now apply not_reserved_childProp. }
  split; [| split].
  - destruct (not_undefined (get cp child)); [apply Hplain | reflexivity].
  - intros Hne.
    assert (Hk : childProp_key f <> childProp_key cp)
      by (intros E; apply childProp_key_inj in E; congruence).
    split.
    + destruct (not_undefined (get cp child)); [| reflexivity].
      now apply get_set_other.
    + now apply get_set_other.
  - intros ->. unfold parent_turn, child_turn.
    rewrite get_set_same.
    destruct (not_undefined (get f child)) eqn:E.
    + rewrite get_set_same, Hplain. split; reflexivity.
    + split; reflexivity.
Qed.

Lemma setSourceField_fold_turns f cps :
  ~ reserved f ->
  forall cs,
    let r := fold_left (fun cs cp => setSourceField cp cs) cps cs in
    get f (fst r) = get f (fst cs)
    /\ (In f cps ->
        get (childProp_key f) (fst r)
        = child_turn (get f (fst cs)) (get (childProp_key f) (fst cs))
        /\ get (childProp_key f) (snd r)
           = parent_turn (get f (fst cs)) (get (childProp_key f) (fst cs)))
    /\ (~ In f cps ->
        get (childProp_key f) (fst r) = get (childProp_key f) (fst cs)
        /\ get (childProp_key f) (snd r) = get (childProp_key f) (snd cs)).
Proof.
  intros Hf. induction cps as [| cp l IH]; intros cs; cbn [fold_left].
  - cbv zeta. split; [reflexivity |]. split; [intros [] | auto].
  - cbv zeta in *.
    destruct (IH (setSourceField cp cs)) as (H1 & H2 & H3).
    destruct (setSourceField_turns f cp cs Hf) as (T1 & T2 & T3).
    split; [congruence |].
    destruct (string_dec cp f) as [E | E].
    + destruct (T3 E) as [T4 T5]. split; [| intros H; elim H; now left].
      intros _. destruct (in_dec string_dec f l) as [Hin | Hin].
      * destruct (H2 Hin) as [H4 H5]. rewrite H4, H5, T1, T4.
        unfold parent_turn. rewrite child_turn_idem. auto.
      * destruct (H3 Hin) as [H4 H5]. rewrite H4, H5. auto.
    + destruct (T2 E) as [T4 T5]. split.
      * intros [Hin | Hin]; [congruence |].
        destruct (H2 Hin) as [H4 H5]. rewrite H4, H5, T1, T4. auto.
      * intros Hin. destruct H3 as [H4 H5]; [intros H; apply Hin; now right |].
        rewrite H4, H5. auto.
Qed.

Lemma setSourceFields_turn f cps child pps :
  ~ reserved f -> In f cps ->
  option_map (get (childProp_key f))
             (snd (setSourceFields cps child (Some pps)))
  = Some (parent_turn (get f child) (get (childProp_key f) child)).
Proof.
  intros Hf Hin. unfold setSourceFields.
  pose proof (setSourceField_fold_turns f cps Hf (child, pps)) as H.
  cbv zeta in H. cbn [fst snd] in H.
  destruct (fold_left _ cps (child, pps)) as [c q].
  cbn [fst snd option_map] in *.
  destruct H as (_ & H & _). destruct (H Hin) as [_ ->]. reflexivity.
Qed.

Lemma aggregateLoop_last cps each vs c :
  forall parent,
    snd (aggregateLoop cps each (vs ++ [c])%list parent)
    = snd (setSourceFields cps (properties_of (each c))
             (snd (aggregateLoop cps each vs parent))).
Proof.
  induction vs as [| x vs IH]; intros parent.
  - cbn [app]. rewrite aggregateLoop_cons. reflexivity.
  - cbn [app]. rewrite !aggregateLoop_cons. cbn [snd]. apply IH.
Qed.

Lemma aggregateChildren_childProp properties calculation vs node f :
  get (childProp_key f) (aggregateChildren properties calculation vs node)
  = get (childProp_key f) node.
Proof.
  unfold aggregateChildren.
  assert (Hne : forall p, childProp_key f <> agg_key p)
    by (intros p E; now apply (agg_key_not_childProp p f)).
  assert (Hstep : forall c l nd,
            get (childProp_key f)
                (fold_left (aggregateStep calculation c) l nd)
            = get (childProp_key f) nd).
  { intros c l. induction l as [| p l IHl]; intros nd; cbn [fold_left];
      [reflexivity |].
    rewrite IHl. unfold aggregateStep.
    rewrite get_set_other by apply Hne.
    destruct (isNaN (get (agg_key p) nd)); [| reflexivity].
    apply get_set_other. apply Hne. }
  revert node.
  induction vs as [| c vs IH]; intros node; cbn [fold_left]; [reflexivity |].
  rewrite IH. apply Hstep.
Qed.

Lemma aggregateNode_last_child properties calculation cps f ps vs c :
  ~ reserved f -> In f cps ->
  let done := aggregateNode properties calculation cps in
  get (childProp_key f) (properties_of (done (Obj ps (Some (vs ++ [c])%list))))
  = parent_turn (get f (properties_of (done c)))
                (get (childProp_key f) (properties_of (done c)))
  /\ get f (properties_of (done (Obj ps (Some (vs ++ [c])%list)))) = get f ps.
Proof.
  intros Hf Hin done. subst done. rewrite aggregateNode_group. cbv zeta.
  cbn [properties_of].
  set (each := aggregateNode properties calculation cps).
  destruct (aggregateLoop_parent cps each (vs ++ [c])%list ps) as [q Hq].
  rewrite Hq. split.
  - rewrite aggregateChildren_childProp.
    rewrite aggregateLoop_last in Hq.
    destruct (aggregateLoop_parent cps each vs ps) as [q0 Hq0].
    rewrite Hq0 in Hq.
    pose proof (setSourceFields_turn f cps (properties_of (each c)) q0 Hf Hin)
      as H.
    rewrite Hq in H. cbn [option_map] in H. congruence.
  - rewrite aggregateChildren_plain by assumption.
    assert (Hall : Forall (fun x => kept x (each x)) (vs ++ [c])%list).
    { apply Forall_forall. intros x _. apply aggregateNode_kept. }
    pose proof (proj2 (aggregateLoop_kept cps each (vs ++ [c])%list Hall
                                          (Some ps))
                      f Hf) as H.
    rewrite Hq in H. cbn [option_map] in H. congruence.
Qed.




End UtilRestFacts.

(* ================================================================== *)
(** * More properties of the weighted tree *)
(* ================================================================== *)

Module TreeRestFacts.

Import WeightedTree TreeFacts TreeRest.

(** ** The hierarchy and the data *)

Section Mirror.

Context {A : Type}.

Lemma data_hierarchy_at (d : inode A) k :
  data (hierarchy_at k d) = d /\ depth (hierarchy_at k d) = k.
Proof. destruct d as [a ks]. split; reflexivity. Qed.

Lemma held_hierarchy_at_kids (d : inode A) k :
  held_children (hierarchy_at k d) = map (hierarchy_at (S k)) (kids_list d).
Proof. destruct d as [a [[| x l] |]]; reflexivity. Qed.

Lemma node_at_hierarchy (p : path) :
  forall (d : inode A) k,
    node_at p (hierarchy_at k d)
    = option_map (hierarchy_at (k + List.length p)) (record_at p d).
Proof.
  induction p as [| i p IH]; intros d k.
  - cbn [node_at record_at option_map List.length]. now rewrite Nat.add_0_r.
  - cbn [node_at record_at List.length].
    rewrite held_hierarchy_at_kids, nth_error_map.
    destruct (nth_error (kids_list d) i) as [c |]; cbn [option_map];
      [| reflexivity].
    rewrite IH. now rewrite Nat.add_succ_r.
Qed.

Lemma Forall2_nth_error_l {T U} (R : T -> U -> Prop) (l : list T) :
  forall (m : list U) i x,
    Forall2 R l m -> nth_error l i = Some x ->
    exists y, nth_error m i = Some y /\ R x y.
Proof.
  induction l as [| z l IH]; intros m i x H El; inversion H; subst;
    destruct i; simpl in *; try discriminate.
  - injection El as ->. eauto.
  - eauto.
Qed.

Lemma same_records_node_at_l (p : path) :
  forall (a b m : hnode A),
    same_records a b -> node_at p a = Some m ->
    exists n, node_at p b = Some n /\ depth n = depth m /\ data n = data m.
Proof.
  induction p as [| i p IH]; intros a b m H E; simpl in E.
  - injection E as <-. exists b. inversion H; subst. auto.
  - destruct (nth_error (held_children a) i) as [x |] eqn:Ex; [| discriminate].
    inversion H as [d k c c1 c2 c3 Hall]; subst.
    destruct (Forall2_nth_error_l _ _ _ _ _ Hall Ex) as (y & Ey & Hxy).
    destruct (IH x y m Hxy E) as (n & Hn & Hdn).
    exists n. simpl. simpl in Ey. rewrite Ey. auto.
Qed.

Variable degenerate : R.
Variable scope : @Scope A.


End Mirror.


(** ** Two toggles in a row *)

Section Twice.

Context {A : Type}.

Lemma replace_nth_same {T} (l : list T) :
  forall i x, nth_error l i = Some x -> replace_nth i x l = l.
Proof.
  induction l as [| y l IH]; intros [| i] x E; simpl in *;
    try discriminate; try reflexivity.
  - now injection E as ->.
  - now rewrite IH.
Qed.

Lemma replace_nth_twice {T} (l : list T) :
  forall i x y, replace_nth i x (replace_nth i y l) = replace_nth i x l.
Proof.
  induction l as [| z l IH]; intros [| i] x y; simpl; try reflexivity.
  now rewrite IH.
Qed.

Lemma with_held_twice (n : hnode A) l1 l2 :
  with_held_children (with_held_children n l1) l2 = with_held_children n l2.
Proof. now destruct n as [d k [c |] [c1 |]]. Qed.

Lemma with_held_same (n : hnode A) :
  with_held_children n (held_children n) = n.
Proof. now destruct n as [d k [c |] [c1 |]]. Qed.

Lemma update_at_twice (f g : hnode A -> hnode A) (p : path) :
  forall h n,
    node_at p h = Some n -> f (g n) = n ->
    update_at p f (update_at p g h) = h.
Proof.
  induction p as [| i p IH]; intros h n E Hfg.
  - simpl in *. injection E as <-. exact Hfg.
  - cbn [node_at] in E. cbn [update_at].
    destruct (nth_error (held_children h) i) as [c |] eqn:Ec; [| discriminate].
    assert (Hne : held_children h <> [])
      by (intros H; rewrite H in Ec; destruct i; discriminate).
    cbn [update_at]. rewrite held_with_held by assumption.
    rewrite (nth_error_replace_nth _ i _ c Ec).
    rewrite (IH c n E Hfg), replace_nth_twice, with_held_twice.
    rewrite (replace_nth_same _ i c Ec). apply with_held_same.
Qed.

Variable degenerate : R.
Variable scope : @Scope A.

(** X11.  Two calls of [toggleNode] on the same node, one after the other,
    leave the component as it was: the hierarchy, with the state of every
    node below the one toggled, and all that [measure] has set. *)
Theorem toggleNode_twice st d st1 calls :
  reachable degenerate scope st ->
  toggleNode degenerate scope st d = Some (st1, calls) ->
  exists calls1, toggleNode degenerate scope st1 d = Some (st, calls1).
Proof.
  intros Hr Ht.
  destruct (toggleNode_inv degenerate scope st d st1 calls Ht)
    as (h & n & r & Hh & Hn & -> & _).
  assert (He : exclusive n).
  { eapply exclusive_node_at; [| exact Hn].
    eapply reachable_exclusive; eauto. }
  pose proof (node_at_update_at toggle d h n Hn) as Hn1.
  destruct (toggleNode_defined degenerate scope
              (set_hieararchy st (update_at d toggle h)) d
              (update_at d toggle h) (toggle n) eq_refl Hn1)
    as (st2 & calls1 & Ht1).
  exists calls1. rewrite Ht1. do 2 f_equal.
  destruct (toggleNode_inv degenerate scope _ d st2 calls1 Ht1)
    as (h1 & n1 & r1 & Hh1 & _ & -> & _).
  cbn [set_hieararchy hieararchy] in Hh1. injection Hh1 as <-.
  rewrite (update_at_twice toggle toggle d h n Hn)
    by apply (exclusive_fields n He).
  destruct st. cbn in *. now subst.
Qed.

Lemma update_at_fixed (f : hnode A -> hnode A) (p : path) :
  forall h n, node_at p h = Some n -> f n = n -> update_at p f h = h.
Proof.
  induction p as [| i p IH]; intros h n E Hf.
  - simpl in *. injection E as <-. exact Hf.
  - cbn [node_at] in E. cbn [update_at].
    destruct (nth_error (held_children h) i) as [c |] eqn:Ec; [| reflexivity].
    rewrite (IH c n E Hf), (replace_nth_same _ i c Ec).
    apply with_held_same.
Qed.

(** X12.  [toggleNode] on a node whose record has no children changes
    nothing: the hierarchy is the same, [updateNode(d, 0)] is the only call
    and no zoom is asked for. *)
Theorem toggleNode_on_a_leaf st d h n :
  reachable degenerate scope st ->
  hieararchy st = Some h -> node_at d h = Some n ->
  has_kids (data n) = false ->
  exists done,
    toggleNode degenerate scope st d
    = Some (st, [Call_updateNode d (JS.vnum 0) done]).
Proof.
  intros Hr Hh Hn Hk.
  assert (He : exclusive n).
  { eapply exclusive_node_at; [| exact Hn].
    eapply reachable_exclusive; eauto. }
  destruct (proj1 (proj2 (proj2 (exclusive_fields n He))) Hk) as [Hc Hc1].
  assert (Ht : toggle n = n).
  { destruct n as [dn kn c c1]. cbn [children _children] in Hc, Hc1.
    now subst. }
  destruct (toggleNode_defined degenerate scope st d h n Hh Hn)
    as (st1 & calls & Htog).
  destruct (toggleNode_inv degenerate scope st d st1 calls Htog)
    as (h0 & n0 & done & Hh0 & Hn0 & Hst & _ & Hcalls).
  assert (h0 = h) by congruence. subst h0.
  assert (n0 = n) by congruence. subst n0.
  exists done. rewrite Htog. f_equal. f_equal.
  - rewrite Hst, (update_at_fixed toggle d h n Hn Ht).
    destruct st. cbn in *. now subst.
  - rewrite Hcalls, Ht, Hc. reflexivity.
Qed.


End Twice.

(** The group of the sample, toggled open and closed again. *)
Lemma toggleNode_twice_witness :
  exists st1 calls calls1,
    toggleNode (1 / 2) sample_scope sample_state [0%nat] = Some (st1, calls)
    /\ toggleNode (1 / 2) sample_scope st1 [0%nat]
       = Some (sample_state, calls1).
Proof.
  destruct (toggleNode_defined (1 / 2) sample_scope sample_state [0%nat]
              sample_collapsed sample_group eq_refl eq_refl)
    as (st1 & calls & Ht).
  destruct (toggleNode_twice (1 / 2) sample_scope sample_state [0%nat] st1 calls
              sample_state_reachable Ht) as [calls1 Ht1].
  exists st1, calls, calls1. split; assumption.
Defined.

(** The single record under the root of the sample. *)
Lemma toggleNode_on_a_leaf_witness :
  exists done,
    toggleNode (1 / 2) sample_scope sample_state [1%nat]
    = Some (sample_state, [Call_updateNode [1%nat] (JS.vnum 0) done]).
Proof.
  exact (toggleNode_on_a_leaf (1 / 2) sample_scope sample_state [1%nat]
           sample_collapsed (HNode (INode 9%nat None) 1 None None)
           sample_state_reachable eq_refl eq_refl eq_refl).
Defined.


(** ** An update of data that has not changed *)

Section Clean.

Context {A : Type}.
Variable degenerate : R.
Variable scope : @Scope A.

(** The size of a state with a hierarchy is the size of the properties. *)
Lemma reachable_sized st :
  reachable degenerate scope st -> hieararchy st <> None ->
  real_size (Util.size (scope_margin scope)
               (JS.VNum (JS.Fin (scope_width scope)))
               (JS.VNum (JS.Fin (scope_height scope)))) = Some (size st).
Proof.
  induction 1 as [| st Hr IH | st k Hr IH | st refresh st1 done Hr IH Hu
                  | st d st1 calls Hr IH Ht]; intros Hh.
  - now elim Hh.
  - apply IH. exact Hh.
  - apply IH. exact Hh.
  - apply update_inv in Hu. destruct Hu as (Hm & _).
    apply measure_inv in Hm.
    destruct Hm
      as (sz & st2 & scale & Hs & _ & _ & _ & _ & _ & _ & _ & Hsz & _).
    congruence.
  - apply toggleNode_inv in Ht.
    destruct Ht as (h & n & r & Hh0 & _ & -> & _).
    cbn [set_hieararchy size]. apply IH. congruence.
Qed.

Lemma measure_clean st refresh :
  reachable degenerate scope st -> dataIsDirty st = false ->
  (refresh = false -> refreshNeeded st = false) ->
  exists st1,
    measure scope (request_refresh st refresh) = Some st1
    /\ hieararchy st1
       = (if refresh then Some (hierarchy (scope_data scope))
          else hieararchy st)
    /\ dataIsDirty st1 = false /\ refreshNeeded st1 = false
    /\ zoom_k st1 = zoom_k st.
Proof.
  intros Hr Hd Hn.
  destruct (reachable_measured degenerate scope st Hr) as [Hclean Hm].
  specialize (Hclean Hd). specialize (Hm Hclean).
  destruct Hm as (_ & _ & _ & _ & (scale & Hroom & _) & _).
  pose proof (reachable_sized st Hr Hclean) as Hs.
  unfold measure. rewrite Hs, Hroom.
  unfold prepare. cbn [request_refresh dataIsDirty refreshNeeded].
  rewrite Hd. destruct refresh.
  - rewrite orb_true_r. cbn [orb refreshData hieararchy].
    eexists. split; [reflexivity |]. cbn. repeat split.
  - rewrite (Hn eq_refl). cbn [orb].
    eexists. split; [reflexivity |]. cbn.
    repeat split; try assumption. now rewrite (Hn eq_refl).
Qed.

(** X13.  [viz.update] when the data has not changed since the last
    update.  With [refresh] set it goes through, rebuilds the hierarchy from
    the data without collapsing anything (what was collapsed is expanded
    again) and lays out every node of the data.  Without [refresh], and
    with no refresh pending, it goes through and leaves the hierarchy, so
    what was collapsed or expanded, as it is. *)
Theorem update_of_unchanged_data st :
  reachable degenerate scope st -> dataIsDirty st = false ->
  (exists st1 done,
     update degenerate scope st true = Some (st1, done)
     /\ hieararchy st1 = Some (hierarchy (scope_data scope))
     /\ map pn_node (sized_nodes (render_tree done)) = all_nodes scope)
  /\ (refreshNeeded st = false ->
      exists st1 done,
        update degenerate scope st false = Some (st1, done)
        /\ hieararchy st1 = hieararchy st).
Proof.
  intros Hr Hd. split.
  - destruct (measure_clean st true Hr Hd) as (st1 & Hm & Hh & _);
      [discriminate |].
    destruct (updateNode_defined degenerate scope st1 None JS.VUndefined
                _ Hh) as [done Hu].
    exists st1, done. unfold update. rewrite Hm, Hu.
    split; [reflexivity |]. split; [exact Hh |].
    destruct (updateNode_at_their_depth degenerate scope st1 None JS.VUndefined
                done Hu) as (h & Hh1 & Hnodes & _).
    rewrite Hnodes. unfold all_nodes. congruence.
  - intros Hn.
    destruct (measure_clean st false Hr Hd) as (st1 & Hm & Hh & _);
      [auto |].
    destruct (reachable_measured degenerate scope st Hr) as [Hclean _].
    destruct (hieararchy st) as [h |] eqn:Eh; [| now elim (Hclean Hd)].
    destruct (updateNode_defined degenerate scope st1 None JS.VUndefined
                _ Hh) as [done Hu].
    exists st1, done. unfold update. rewrite Hm, Hu. auto.
Qed.

End Clean.

(** A refresh of the sample after its first update lays out its five
    nodes. *)
Lemma update_of_unchanged_data_witness :
  exists st1 done,
    update (1 / 2) sample_scope sample_state true = Some (st1, done)
    /\ hieararchy st1 = Some (hierarchy sample_data)
    /\ List.length (sized_nodes (render_tree done)) = 5%nat.
Proof.
  destruct (proj1 (update_of_unchanged_data (1 / 2) sample_scope sample_state
                     sample_state_reachable eq_refl))
    as (st1 & done & Hu & Hh & Hn).
  exists st1, done. split; [exact Hu |]. split; [exact Hh |].
  rewrite <- (length_map pn_node), Hn. reflexivity.
Defined.


(** ** The nodes that are laid out *)

Section Shown.

Context {A : Type}.

Lemma in_combine_seq {T} (l : list T) :
  forall start i x,
    In (i, x) (combine (seq start (List.length l)) l) ->
    exists j, i = (start + j)%nat /\ nth_error l j = Some x.
Proof.
  induction l as [| y l IH]; intros start i x H; simpl in H; [contradiction |].
  destruct H as [E | H].
  - injection E as <- <-. exists O. split; [lia | reflexivity].
  - destruct (IH (S start) i x H) as (j & -> & Hj).
    exists (S j). split; [lia | exact Hj].
Qed.

Lemma level_shown (k : nat) :
  forall q (n : hnode A) q1 m,
    In (q1, m) (level k q n) ->
    exists p, q1 = q ++ p /\ List.length p = k /\ shown_at p n = Some m.
Proof.
  induction k as [| k IH]; intros q n q1 m H.
  - simpl in H. destruct H as [E | []]. injection E as <- <-.
    exists []. rewrite app_nil_r. auto.
  - cbn [level] in H. apply in_flat_map in H.
    destruct H as ([i c] & Hic & H). cbn [fst snd] in H.
    apply in_combine_seq in Hic. destruct Hic as (j & -> & Hj).
    destruct (IH _ _ _ _ H) as (p & -> & Hlen & Hs).
    exists (j :: p). rewrite <- app_assoc. cbn [app List.length shown_at].
    rewrite Hj. auto.
Qed.

Lemma shown_level (p : path) :
  forall (n : hnode A) q m,
    shown_at p n = Some m -> In (q ++ p, m) (level (List.length p) q n).
Proof.
  induction p as [| i p IH]; intros n q m E.
  - simpl in E. injection E as <-. rewrite app_nil_r. now left.
  - cbn [shown_at] in E.
    destruct (nth_error (active_children n) i) as [c |] eqn:Ec;
      [| discriminate].
    cbn [List.length level]. apply in_flat_map. exists (i, c). split.
    + exact (nth_error_combine_seq _ 0 i c Ec).
    + cbn [fst snd].
      replace (q ++ i :: p) with ((q ++ [i]) ++ p)
        by (rewrite <- app_assoc; reflexivity).
      now apply IH.
Qed.

Lemma shown_height (p : path) :
  forall (n m : hnode A),
    shown_at p n = Some m -> (List.length p <= height n)%nat.
Proof.
  induction p as [| i p IH]; intros n m E; [simpl; lia |].
  cbn [shown_at] in E.
  destruct (nth_error (active_children n) i) as [c |] eqn:Ec; [| discriminate].
  pose proof (height_child _ _ (nth_error_In _ _ Ec)) as Hh.
  specialize (IH c m E). simpl. lia.
Qed.

(** [descendants] lists the nodes reached through [children], each with
    its path. *)
Lemma descendants_shown (n : hnode A) (p : path) (m : hnode A) :
  In (p, m) (descendants n) <-> shown_at p n = Some m.
Proof.
  unfold descendants. split.
  - intros H. apply in_flat_map in H. destruct H as (k & _ & H).
    apply level_shown in H. destruct H as (q & -> & _ & H). exact H.
  - intros H. apply in_flat_map. exists (List.length p). split.
    + apply in_seq. pose proof (shown_height p n m H). lia.
    + exact (shown_level p n [] m H).
Qed.

Lemma shown_node_at (p : path) :
  forall (h m : hnode A), shown_at p h = Some m -> node_at p h = Some m.
Proof.
  induction p as [| i p IH]; intros h m E; [exact E |].
  cbn [shown_at node_at] in *.
  destruct h as [d k [l |] c1]; unfold active_children in E;
    cbn [children held_children] in *.
  - destruct (nth_error l i) as [c |]; [now apply IH | discriminate].
  - destruct i; discriminate.
Qed.

Lemma shown_at_app (p q : path) :
  forall h : hnode A,
    shown_at (p ++ q) h
    = match shown_at p h with
      | Some m => shown_at q m
      | None => None
      end.
Proof.
  induction p as [| i p IH]; intros h; [reflexivity |].
  cbn [app shown_at].
  destruct (nth_error (active_children h) i) as [c |]; [apply IH | reflexivity].
Qed.

Lemma nth_error_replace_nth_other {T} (l : list T) :
  forall i j x, i <> j -> nth_error (replace_nth j x l) i = nth_error l i.
Proof.
  induction l as [| y l IH]; intros [| i] [| j] x H; simpl; try reflexivity;
    try congruence.
  apply IH. congruence.
Qed.

Lemma shown_at_update_at (f : hnode A -> hnode A) (p : path) :
  forall h n,
    shown_at p h = Some n -> shown_at p (update_at p f h) = Some (f n).
Proof.
  induction p as [| i p IH]; intros h n E.
  - simpl in *. now injection E as <-.
  - cbn [shown_at update_at] in *.
    destruct h as [d k [l |] c1]; unfold active_children in *;
      cbn [children held_children] in *; [| destruct i; discriminate].
    destruct (nth_error l i) as [c |] eqn:Ec; [| discriminate].
    cbn [with_held_children children].
    rewrite (nth_error_replace_nth _ i _ c Ec). now apply IH.
Qed.

Lemma shown_at_update_at_other (f : hnode A -> hnode A) (p : path) :
  forall d h,
    ~ below d p ->
    (exists m, shown_at p (update_at d f h) = Some m)
    <-> (exists m, shown_at p h = Some m).
Proof.
  induction p as [| i p IH]; intros d h Hd.
  - simpl. split; eauto.
  - destruct d as [| j d]; [elim Hd; now exists (i :: p) |].
    cbn [update_at].
    destruct (nth_error (held_children h) j) as [c |] eqn:Ec; [| reflexivity].
    destruct h as [dt k [l |] c1]; cbn [held_children children _children] in *.
    + cbn [with_held_children shown_at]. unfold active_children.
      cbn [children].
      destruct (Nat.eq_dec i j) as [-> | Hne].
      * rewrite (nth_error_replace_nth _ j _ c Ec), Ec.
        apply IH. intros [r ->]. apply Hd. now exists r.
      * rewrite nth_error_replace_nth_other by assumption. reflexivity.
    + destruct c1 as [l1 |]; cbn [with_held_children shown_at];
        unfold active_children; cbn [children]; reflexivity.
Qed.

Variable degenerate : R.
Variable scope : @Scope A.

Lemma layout_pairs (h : hnode A) :
  map (fun d => (pn_path d, pn_node d)) (layout scope h) = descendants h.
Proof.
  unfold layout. rewrite map_map. cbn [pn_path pn_node].
  rewrite <- (map_id (descendants h)) at 2. apply map_ext.
  now intros [p n].
Qed.

Lemma updateTreeSize_pairs st rootNode ns ts :
  updateTreeSize degenerate scope st rootNode ns = Some ts ->
  map (fun d => (pn_path d, pn_node d)) (sized_nodes ts)
  = map (fun d => (pn_path d, pn_node d)) ns.
Proof.
  unfold updateTreeSize. destruct ns as [| first rest]; [discriminate |].
  intros [= <-]. cbn [sized_nodes map pn_path pn_node]. f_equal.
  rewrite map_map. reflexivity.
Qed.

(** What a call of [updateNode] lays out: the nodes reached through
    [children], each once. *)
Lemma updateNode_lays_out st rootNode duration done h :
  updateNode degenerate scope st rootNode duration = Some done ->
  hieararchy st = Some h ->
  map (fun d => (pn_path d, pn_node d)) (sized_nodes (render_tree done))
  = descendants h.
Proof.
  intros Hu Hh. apply updateNode_inv in Hu.
  destruct Hu as (h1 & ts & Hh1 & Hts & ->). cbn [render_tree].
  assert (h1 = h) by congruence. subst h1.
  rewrite (updateTreeSize_pairs _ _ _ _ Hts). apply layout_pairs.
Qed.

Lemma laid_out_shown st rootNode duration done h (p : path) :
  updateNode degenerate scope st rootNode duration = Some done ->
  hieararchy st = Some h ->
  In p (laid_out done) <-> exists m, shown_at p h = Some m.
Proof.
  intros Hu Hh. pose proof (updateNode_lays_out _ _ _ _ _ Hu Hh) as Hl.
  unfold laid_out.
  assert (Hp : map pn_path (sized_nodes (render_tree done))
               = map fst (descendants h)).
  { rewrite <- Hl, map_map. reflexivity. }
  rewrite Hp. split.
  - intros H. apply in_map_iff in H. destruct H as ([q m] & <- & H).
    exists m. now apply descendants_shown.
  - intros [m H]. apply in_map_iff. exists (p, m). split; [reflexivity |].
    now apply descendants_shown.
Qed.

(** X14.  What [toggleNode(d)] changes in the drawing.  The nodes that are
    neither [d] nor below [d] are laid out after the call exactly when
    they were before.  When [d] was open, of [d] and the nodes below it
    at most [d] itself is still laid out.  When [d] was collapsed and was
    laid out, [d] and each of its children are laid out after the call. *)
Theorem toggleNode_shows_and_hides st d st1 calls h n :
  hieararchy st = Some h -> node_at d h = Some n ->
  toggleNode degenerate scope st d = Some (st1, calls) ->
  exists done rest,
    calls = Call_updateNode d (JS.vnum 0) done :: rest
    /\ (forall q, ~ below d q ->
          (In q (laid_out done) <-> In q (map fst (descendants h))))
    /\ (forall l, children n = Some l ->
          forall q, In q (laid_out done) -> below d q -> q = d)
    /\ (forall l, children n = None -> _children n = Some l ->
          In d (map fst (descendants h)) ->
          In d (laid_out done)
          /\ forall i, (i < List.length l)%nat ->
                       In (d ++ [i]) (laid_out done)).
Proof.
  intros Hh Hn Ht.
  destruct (toggleNode_inv degenerate scope st d st1 calls Ht)
    as (h0 & n0 & done & Hh0 & Hn0 & -> & Hu & ->).
  assert (h0 = h) by congruence. subst h0.
  assert (n0 = n) by congruence. subst n0.
  exists done. eexists. split; [reflexivity |].
  assert (Hlaid : forall q, In q (laid_out done)
                            <-> exists m, shown_at q (update_at d toggle h)
                                          = Some m).
  { intros q. eapply laid_out_shown; [exact Hu | reflexivity]. }
  assert (Hbefore : forall q, In q (map fst (descendants h))
                              <-> exists m, shown_at q h = Some m).
  { intros q. split.
    - intros H. apply in_map_iff in H. destruct H as ([q1 m] & <- & H).
      exists m. now apply descendants_shown.
    - intros [m H]. apply in_map_iff. exists (q, m). split; [reflexivity |].
      now apply descendants_shown. }
  split; [| split].
  - intros q Hq. rewrite Hlaid, Hbefore.
    now apply shown_at_update_at_other.
  - intros l Hl q Hq [r ->]. apply Hlaid in Hq. destruct Hq as [m Hm].
    rewrite shown_at_app in Hm.
    destruct (shown_at d (update_at d toggle h)) as [m0 |] eqn:E;
      [| discriminate].
    apply shown_node_at in E.
    rewrite (node_at_update_at toggle d h n Hn) in E. injection E as <-.
    destruct r as [| i r]; [now rewrite app_nil_r |].
    destruct n as [dn kn c c1]. cbn [children] in Hl. subst c.
    cbn [toggle shown_at] in Hm. unfold active_children in Hm.
    cbn [children] in Hm. destruct i; discriminate.
  - intros l Hc Hc1 Hd. apply Hbefore in Hd. destruct Hd as [m Hm].
    assert (m = n).
    { apply shown_node_at in Hm. congruence. }
    subst m.
    pose proof (shown_at_update_at toggle d h n Hm) as Hs.
    split.
    + apply Hlaid. eauto.
    + intros i Hi. apply Hlaid. rewrite shown_at_app, Hs.
      destruct n as [dn kn c c1]. cbn [children _children] in Hc, Hc1.
      subst c c1. cbn [toggle shown_at]. unfold active_children.
      cbn [children].
      destruct (nth_error l i) as [x |] eqn:Ex; [eauto |].
      apply nth_error_None in Ex. lia.
Qed.

Lemma find_path {T} (path_of : T -> path) (l : list T) (p : path) :
  In p (map path_of l) ->
  exists x,
    find (fun n => if list_eq_dec Nat.eq_dec (path_of n) p
                   then true else false) l = Some x
    /\ In x l /\ path_of x = p.
Proof.
  induction l as [| y l IH]; intros H; [destruct H |].
  cbn [find]. destruct (list_eq_dec Nat.eq_dec (path_of y) p) as [E | E].
  - exists y. split; [reflexivity |]. split; [now left | exact E].
  - destruct H as [H | H]; [congruence |].
    destruct (IH H) as (x & Hx & Hin & Hp).
    exists x. split; [exact Hx |]. split; [now right | exact Hp].
Qed.



End Shown.

(** The group of the sample is toggled open: its two records are laid
    out, and the single record next to it still is. *)
Lemma toggleNode_shows_and_hides_witness :
  exists st1 done rest,
    toggleNode (1 / 2) sample_scope sample_state [0%nat]
    = Some (st1, Call_updateNode [0%nat] (JS.vnum 0) done :: rest)
    /\ In [0; 0]%nat (laid_out done) /\ In [0; 1]%nat (laid_out done)
    /\ (In [1%nat] (laid_out done)
        <-> In [1%nat] (map fst (descendants sample_collapsed))).
Proof.
  destruct (toggleNode_defined (1 / 2) sample_scope sample_state [0%nat]
              sample_collapsed sample_group eq_refl eq_refl)
    as (st1 & calls & Ht).
  destruct (toggleNode_shows_and_hides (1 / 2) sample_scope sample_state
              [0%nat] st1 calls sample_collapsed sample_group
              eq_refl eq_refl Ht)
    as (done & rest & -> & Hother & _ & Hopen).
  exists st1, done, rest. split; [exact Ht |].
  destruct (Hopen _ eq_refl eq_refl) as [_ Hkids].
  { right. now left. }
  split; [apply (Hkids 0%nat); simpl; lia |].
  split; [apply (Hkids 1%nat); simpl; lia |].
  apply Hother. intros [r Hr]. discriminate Hr.
Defined.




(** ** The canvas and the vertical shift of [updateTreeSize] *)

Section TreeSize.

Local Open Scope R_scope.

Lemma Rmaximum_bounds (l : list R) :
  forall x, x <= Rmaximum x l /\ forall y, In y l -> y <= Rmaximum x l.
Proof.
  unfold Rmaximum. induction l as [| z l IH]; intros x; cbn [fold_left].
  - split; [lra | intros y []].
  - destruct (IH (Rmax x z)) as [H1 H2].
    pose proof (Rmax_l x z). pose proof (Rmax_r x z).
    split; [lra |]. intros y [<- | Hy]; [lra | auto].
Qed.

Lemma Rminimum_bounds (l : list R) :
  forall x, Rminimum x l <= x /\ forall y, In y l -> Rminimum x l <= y.
Proof.
  unfold Rminimum. induction l as [| z l IH]; intros x; cbn [fold_left].
  - split; [lra | intros y []].
  - destruct (IH (Rmin x z)) as [H1 H2].
    pose proof (Rmin_l x z). pose proof (Rmin_r x z).
    split; [lra |]. intros y [<- | Hy]; [lra | auto].
Qed.

Lemma Rmaximum_attained (l : list R) :
  forall x, In (Rmaximum x l) (x :: l).
Proof.
  unfold Rmaximum. induction l as [| z l IH]; intros x; cbn [fold_left].
  - now left.
  - destruct (IH (Rmax x z)) as [H | H]; [| right; now right].
    rewrite <- H. unfold Rmax. destruct (Rle_dec x z); [right |]; now left.
Qed.

Lemma Rminimum_attained (l : list R) :
  forall x, In (Rminimum x l) (x :: l).
Proof.
  unfold Rminimum. induction l as [| z l IH]; intros x; cbn [fold_left].
  - now left.
  - destruct (IH (Rmin x z)) as [H | H]; [| right; now right].
    rewrite <- H. unfold Rmin. destruct (Rle_dec x z); [| right]; now left.
Qed.

Context {A : Type}.
Variable degenerate : R.
Variable scope : @Scope A.


(** X17.  The canvas [updateTreeSize] asks for.  Its width is at least the
    configured width and, for a zoom scale that is not negative, leaves a
    fifth of the configured width and the left margin to the right of
    every node.  When the room of a node is not negative, its height is at
    least the configured height, and at least half the inner height plus
    the scaled [y] of every node. *)
Theorem updateTreeSize_canvas st rootNode (ns : list (@pnode A)) ts :
  updateTreeSize degenerate scope st rootNode ns = Some ts ->
  let k := if scope_useZoom scope then zoom_k st else 1 in
  Q2R (scope_width scope) <= svg_width ts
  /\ (0 <= k ->
      forall d, In d ns ->
        pn_y d * k + Q2R (scope_width scope) * 0.2 + left (size st)
        <= svg_width ts)
  /\ (0 <= fst (tree_nodeSize st) ->
      Q2R (scope_height scope) <= svg_height ts
      /\ (0 <= k ->
          forall d, In d ns ->
            height_px (size st) / 2 + pn_y d * k <= svg_height ts)).
Proof.
  unfold updateTreeSize. destruct ns as [| first rest]; [discriminate |].
  intros E. injection E as <-. cbv zeta. cbn [svg_width svg_height].
  set (k := if scope_useZoom scope then zoom_k st else 1).
  set (maxY := Rmaximum (pn_y first) (map pn_y rest)).
  set (maxX := Rmaximum (pn_x first) (map pn_x rest)).
  set (minX := Rminimum (pn_x first) (map pn_x rest)).
  assert (Hy : forall d, In d (first :: rest) -> pn_y d <= maxY).
  { intros d [<- | Hd].
    - exact (proj1 (Rmaximum_bounds _ _)).
    - exact (proj2 (Rmaximum_bounds _ _) _ (in_map pn_y _ _ Hd)). }
  set (h0 := Rmax (Q2R (scope_height scope)) (maxX * k - minX + top (size st))).
  pose proof (Rmax_l (Q2R (scope_height scope))
                     (maxX * k - minX + top (size st))) as Hh0.
  fold h0 in Hh0.
  split; [apply Rmax_l |]. split.
  - intros Hk d Hd.
    pose proof (Rmax_r (Q2R (scope_width scope))
                       (maxY * k + Q2R (scope_width scope) * 0.2
                        + left (size st))).
    specialize (Hy d Hd). nra.
  - intros Hn.
    destruct (Rlt_dec h0 (height_px (size st) / 2 + maxY * k)) as [Hlt | Hge].
    + split; [lra |]. intros Hk d Hd. specialize (Hy d Hd). nra.
    + split; [lra |]. intros Hk d Hd. specialize (Hy d Hd). nra.
Qed.

(** ** [scaleToHeight] *)


End TreeSize.


(** ** The colors of the branches *)

Section Colors.

Context {B : Type}.

Lemma kids_setLinkColor_child color (c : inode (B * option string)) :
  kids_list (setLinkColor_child color c)
  = map (setLinkColor_child color) (kids_list c).
Proof. destruct c as [[b c0] [l |]]; reflexivity. Qed.

Lemma color_setLinkColor_child color (c : inode (B * option string)) :
  vz_link_color (setLinkColor_child color c) = color
  /\ fst (datum_of (setLinkColor_child color c)) = fst (datum_of c).
Proof. destruct c as [[b c0] ks]. split; reflexivity. Qed.

Lemma record_at_setLinkColor_child color (p : path) :
  forall c : inode (B * option string),
    record_at p (setLinkColor_child color c)
    = option_map (setLinkColor_child color) (record_at p c).
Proof.
  induction p as [| i p IH]; intros c; [reflexivity |].
  cbn [record_at]. rewrite kids_setLinkColor_child, nth_error_map.
  destruct (nth_error (kids_list c) i) as [x |]; [apply IH | reflexivity].
Qed.

Lemma setLinkColor_child_idem color (c : inode (B * option string)) :
  setLinkColor_child color (setLinkColor_child color c)
  = setLinkColor_child color c.
Proof.
  induction c as [[b c0] ks IH] using inode_induction.
  cbn [setLinkColor_child]. f_equal.
  destruct ks as [l |]; [| reflexivity]. f_equal.
  cbn [option_list] in IH. rewrite map_map. apply map_ext_in.
  intros x Hx. rewrite Forall_forall in IH. now apply IH.
Qed.

Lemma nth_error_indexed {T U} (f : nat -> T -> U) (l : list T) :
  forall start i,
    nth_error (map (fun ic => f (fst ic) (snd ic))
                   (combine (seq start (List.length l)) l)) i
    = option_map (f (start + i)%nat) (nth_error l i).
Proof.
  induction l as [| x l IH]; intros start [| i]; cbn; try reflexivity.
  - now rewrite Nat.add_0_r.
  - rewrite IH. now rewrite Nat.add_succ_r.
Qed.

Lemma indexed_idem {T} (f : nat -> T -> T) (l : list T) :
  (forall i x, f i (f i x) = f i x) ->
  forall start,
    let l1 := map (fun ic => f (fst ic) (snd ic))
                  (combine (seq start (List.length l)) l) in
    map (fun ic => f (fst ic) (snd ic))
        (combine (seq start (List.length l1)) l1) = l1.
Proof.
  intros Hf. induction l as [| x l IH]; intros start; [reflexivity |].
  cbv zeta in *. cbn [List.length seq combine map fst snd].
  rewrite Hf. f_equal. apply IH.
Qed.

Lemma styles_prepColorData_children colors bc
  (l : list (inode (B * option string))) :
  styles_prepColorData colors (INode bc (Some l))
  = Some (INode bc
            (Some (map (fun ic =>
                          setLinkColor_child (color_of colors (fst ic))
                                             (snd ic))
                       (combine (seq 0 (List.length l)) l)))).
Proof.
  cbn [styles_prepColorData]. do 3 f_equal. apply map_ext.
  intros [i [[b c0] ks]]. reflexivity.
Qed.


End Colors.


(** ** The three theorems about sizes, on the sample *)

Lemma sample_layout :
  exists first rest, layout sample_scope sample_collapsed = first :: rest.
Proof. apply layout_not_nil. Qed.


(** The same layout: the canvas is at least 600 wide. *)
Lemma updateTreeSize_canvas_witness :
  exists ts,
    updateTreeSize (1 / 2) sample_scope sample_state None
                   (layout sample_scope sample_collapsed) = Some ts
    /\ (Q2R 600 <= svg_width ts)%R.
Proof.
  destruct sample_layout as (first & rest & E). rewrite E.
  destruct (updateTreeSize_defined (1 / 2) sample_scope sample_state
              None first rest) as [ts Hts].
  exists ts. split; [exact Hts |].
  exact (proj1 (updateTreeSize_canvas (1 / 2) sample_scope sample_state
                  None (first :: rest) ts Hts)).
Defined.



(** ** An update after an update *)

Section Again.

Context {A : Type}.
Variable degenerate : R.
Variable scope : @Scope A.

Lemma nodeRadius_same st st1 (n : hnode A) :
  same_measures st st1 ->
  nodeRadius degenerate scope st1 n = nodeRadius degenerate scope st n.
Proof.
  intros (_ & _ & _ & _ & _ & _ & _ & Hmax & Hmin & Hrange & _).
  unfold nodeRadius. now rewrite Hmax, Hmin, Hrange.
Qed.

Lemma updateTreeSize_same st st1 rootNode ns :
  same_measures st st1 ->
  updateTreeSize degenerate scope st1 rootNode ns
  = updateTreeSize degenerate scope st rootNode ns.
Proof.
  intros Hs. pose proof (fun n => nodeRadius_same st st1 n Hs) as Hr.
  destruct Hs as (_ & _ & Hsize & _ & _ & Hspan & _ & _ & _ & _ & Hns & Hcx
                  & Hcy & Hk).
  unfold updateTreeSize. destruct ns as [| first rest]; [reflexivity |].
  rewrite Hsize, Hspan, Hns, Hcx, Hcy, Hk.
  assert (Hmove :
            map (fun d =>
                   mkPnode (pn_path d) (pn_node d)
                     (pn_x d
                      + (Rmax 0
                           (- (Rminimum (pn_y first) (map pn_y rest)
                               * (if scope_useZoom scope
                                  then zoom_k st else 1))
                            - height_px (size st) / 2)
                         + fst (tree_nodeSize st) / 2)
                      + cy st - fst (tree_nodeSize st))
                     (INR (depth (pn_node d)) * depthSpan st + cx st)
                     (Some (nodeRadius degenerate scope st1 (pn_node d))))
                (first :: rest)
            = map (fun d =>
                     mkPnode (pn_path d) (pn_node d)
                       (pn_x d
                        + (Rmax 0
                             (- (Rminimum (pn_y first) (map pn_y rest)
                                 * (if scope_useZoom scope
                                    then zoom_k st else 1))
                              - height_px (size st) / 2)
                           + fst (tree_nodeSize st) / 2)
                        + cy st - fst (tree_nodeSize st))
                       (INR (depth (pn_node d)) * depthSpan st + cx st)
                       (Some (nodeRadius degenerate scope st (pn_node d))))
                  (first :: rest)).
  { apply map_ext. intros d. now rewrite Hr. }
  cbv zeta. rewrite Hmove. reflexivity.
Qed.

Lemma updateNode_same st st1 rootNode duration :
  same_measures st st1 ->
  updateNode degenerate scope st1 rootNode duration
  = updateNode degenerate scope st rootNode duration.
Proof.
  intros Hs. unfold updateNode.
  rewrite (proj1 (proj2 (proj2 (proj2 Hs)))).
  destruct (hieararchy st) as [h |]; [| reflexivity].
  now rewrite (updateTreeSize_same st st1 _ _ Hs).
Qed.

Lemma extremes_again pick (ns : list (hnode A)) deepest old i :
  extremes scope pick ns deepest (extremes scope pick ns deepest old) i
  = extremes scope pick ns deepest old i.
Proof.
  unfold extremes. now destruct (Nat.leb 1 i && Nat.leb i deepest).
Qed.

(** X20.  An update right after an update draws the same thing: whatever
    the first call of [viz.update] was given, a call without [refresh]
    that follows it goes through, leaves every variable of the closure as
    it is (the hierarchy, the nodes, the size, the spans, the extreme
    values of each level) and lays out the same nodes at the same
    places with the same radii. *)
Theorem update_again st refresh st1 done :
  update degenerate scope st refresh = Some (st1, done) ->
  exists st2,
    update degenerate scope st1 false = Some (st2, done)
    /\ same_measures st1 st2.
Proof.
  intros Hu. destruct (update_inv degenerate scope st refresh st1 done Hu)
    as [Hm Hn].
  assert (Hclean : dataIsDirty st1 = false /\ refreshNeeded st1 = false).
  { destruct (measure_inv scope _ _ Hm)
      as (sz & st0 & scale & _ & Hp & _ & _ & _ & _ & Hd & Hr & _).
    rewrite Hd, Hr. apply prepare_cases in Hp.
    destruct Hp as [(H1 & H2 & ->) | (H1 & H2 & _)]; [| auto].
    cbn [request_refresh dataIsDirty refreshNeeded] in *.
    split; [exact H1 |].
    destruct refresh; [now rewrite orb_true_r in H2 |].
    now rewrite orb_false_r in H2 |- *. }
  destruct Hclean as [Hd Hr].
  assert (Hm2 : exists st2,
            measure scope (request_refresh st1 false) = Some st2
            /\ same_measures st1 st2).
  { revert Hm. unfold measure.
    destruct (real_size _) as [sz |]; [| discriminate].
    destruct (prepare scope (request_refresh st refresh)) as [st0 |];
      [| discriminate].
    destruct (node_room scope sz) as [scale |]; [| discriminate].
    intros [= <-]. unfold prepare.
    cbn [request_refresh dataIsDirty refreshNeeded] in *.
    rewrite Hd, Hr. cbn [orb].
    eexists. split; [reflexivity |].
    unfold same_measures.
    cbn [dataIsDirty refreshNeeded size hieararchy nodes depthSpan maxDepth
         maxValues minValues nodeScale_range tree_nodeSize cx cy zoom_k].
    repeat split; try reflexivity; try (now rewrite orb_false_r);
      intros i; apply extremes_again. }
  destruct Hm2 as (st2 & Hm2 & Hs).
  exists st2. split; [| exact Hs].
  unfold update. rewrite Hm2, (updateNode_same st1 st2 _ _ Hs), Hn.
  reflexivity.
Qed.

End Again.

(** The first update of the sample, done again. *)
Lemma update_again_witness :
  exists st1 done st2,
    sample_first = Some (st1, done)
    /\ update (1 / 2) sample_scope st1 false = Some (st2, done)
    /\ same_measures st1 st2.
Proof.
  assert (Hh : option_map (fun sr => hieararchy (fst sr)) sample_first
               = Some (Some sample_collapsed)) by reflexivity.
  destruct sample_first as [[st1 done] |] eqn:E; [| discriminate Hh].
  unfold sample_first in E.
  destruct (update_again (1 / 2) sample_scope initial false st1 done E)
    as (st2 & Hu & Hs).
  exists st1, done, st2. split; [reflexivity |]. split; [exact Hu | exact Hs].
Defined.

End TreeRestFacts.
